(** * The fuzzy report-matching core of [server.js]

    A shallow embedding of the report cache, the document index, the
    candidate generator, the edit-distance scorer and the two resolvers of
    [server.js], with the properties the specification states about them.

    Conventions of the embedding:
    - a JavaScript string is the list of its UTF-16 code units ([jsstring]);
    - a JavaScript number that holds a length or an edit distance is a [nat];
      a number that holds a score is a binary64 [float], evaluated by the
      kernel exactly as the JavaScript engine evaluates it;
    - a thrown exception is the [Throw] branch of [Result];
    - the module-level variables [reportsCache] and [reportDocsIndex] are the
      fields of an explicit [State];
    - the platform functions whose tables are not part of the repository
      (Unicode lowercasing and NFKD outside ASCII, the WHATWG URL parser) are
      parameters, gathered in [Platform]. *)

From Stdlib Require Import ZArith NArith List String Ascii Lia DecimalNat DecimalFacts.
From Stdlib Require Import PrimFloat Uint63 Floats.
From stdpp Require Import gmap list.

Set Default Proof Using "Type".

(** ** JavaScript strings *)

Abbreviation jsstring := (list N).

(** The code units of an ASCII literal. *)
Definition js (s : string) : jsstring :=
  map N_of_ascii (list_ascii_of_string s).

(** ** Edit distance *)

Module Lev.

Definition min3 (x y z : nat) : nat := x `min` (y `min` z).

Definition cost (x y : N) : nat := if bool_decide (x = y) then 0 else 1.

(** The reference definition: the edit distance of two strings by recursion
    on both, an insertion, a deletion and a substitution costing 1 each. *)
Fixpoint lev (a : jsstring) : jsstring -> nat :=
  fix lev_a (b : jsstring) : nat :=
    match a, b with
    | [], _ => length b
    | _, [] => length a
    | x :: a', y :: b' =>
        min3 (lev a' b + 1) (lev_a b' + 1) (lev a' b' + cost x y)
    end.

End Lev.

(** [a[i] === b[j]]: an index read yields a one-unit string, or [undefined]
    out of range; two reads are strictly equal when both are the same unit or
    both are [undefined]. *)
Definition same_unit (a b : jsstring) (i j : nat) : bool :=
  bool_decide (a !! i = b !! j).

(** The body of the inner loop of [levenshteinDistance] for one [j]: reads
    [currentRow[j]], [previousRow[j + 1]] and [previousRow[j]], and pushes the
    minimum on [currentRow]. All reads are in range. *)
Definition lev_inner_body (a b : jsstring) (i : nat) (previousRow : list nat)
    (currentRow : list nat) (j : nat) : list nat :=
  let insertCost := currentRow !!! j + 1 in
  let deleteCost := previousRow !!! (j + 1) + 1 in
  let replaceCost := previousRow !!! j + (if same_unit a b i j then 0 else 1) in
  currentRow ++ [insertCost `min` (deleteCost `min` replaceCost)].

(** [previousRow[j] = currentRow[j]]: the row is updated in place. *)
Definition lev_copy_body (currentRow : list nat) (previousRow : list nat)
    (j : nat) : list nat :=
  <[j := currentRow !!! j]> previousRow.

(** The body of the outer loop for one [i]. *)
Definition lev_outer_body (a b : jsstring) (previousRow : list nat) (i : nat)
    : list nat :=
  let currentRow :=
    foldl (lev_inner_body a b i previousRow) [i + 1] (seq 0 (length b)) in
  foldl (lev_copy_body currentRow) previousRow (seq 0 (length b + 1)).

Definition levenshteinDistance (a b : jsstring) : nat :=
  if bool_decide (a = b) then 0
  else if bool_decide (length a = 0) then length b
  else if bool_decide (length b = 0) then length a
  else
    let previousRow := seq 0 (length b + 1) in
    let previousRow := foldl (lev_outer_body a b) previousRow (seq 0 (length a)) in
    previousRow !!! length b.

(** Row [i] of the table of the dynamic programme: the distances from the
    first [i] units of [a] to the prefixes of [b] of length below [n]. *)
Definition lev_row (a b : jsstring) (i n : nat) : list nat :=
  (fun j => Lev.lev (take i a) (take j b)) <$> seq 0 n.

(** ** Values, exceptions and the platform *)

(** The values the code handles. Strings are kept in full. A value that is
    neither [undefined], [null], a boolean nor a string (a number, an array,
    an object, a function) is kept through the two observations the code
    makes of it: its truthiness and its [String(.)] conversion. No such value
    has a method [toLowerCase] or [split]. [VUnprintable] is an object whose
    conversion to a string throws: a parsed object whose [toString] is not a
    function and whose [valueOf] gives no primitive value, such as
    [{"toString": 1}]. *)
Inductive JsValue :=
| VUndefined
| VNull
| VBool (b : bool)
| VString (s : jsstring)
| VOther (truthy : bool) (text : jsstring)
| VUnprintable.

#[global] Instance JsValue_eq_dec : EqDecision JsValue.
Proof. solve_decision. Defined.

#[global] Instance JsValue_inhabited : Inhabited JsValue := populate VUndefined.

(** Truthiness: what [if (v)], [!v], [v || w], [Boolean(v)] and
    [.filter(Boolean)] test. *)
Definition truthy (v : JsValue) : bool :=
  match v with
  | VUndefined | VNull => false
  | VBool b => b
  | VString s => negb (bool_decide (s = []))
  | VOther t _ => t
  | VUnprintable => true
  end.

(** [v || w]. *)
Definition js_or (v w : JsValue) : JsValue := if truthy v then v else w.

(** An object with string keys: a parsed JSON object (or array, whose keys are
    its indices), or a report record built from one. *)
Abbreviation Obj := (gmap jsstring JsValue).

(** [o.k] for a key that [Object.prototype] does not define. *)
Definition get (o : Obj) (k : string) : JsValue := default VUndefined (o !! js k).

(** What is thrown: a [TypeError] by a call of a method a value does not
    have, or the failure of a file read or of [JSON.parse], whose
    [error.code] is ['ENOENT'] or not. *)
Inductive Error :=
| TypeError
| IOError (enoent : bool).

Inductive Result (A : Type) :=
| Ok (a : A)
| Throw (e : Error).
Arguments Ok {A} a.
Arguments Throw {A} e.

#[global] Instance Result_ret : MRet Result := @Ok.

#[global] Instance Result_bind : MBind Result := fun A B k r =>
  match r with
  | Ok a => k a
  | Throw e => Throw e
  end.

(** [String(v)], which throws for an object that has no primitive value. *)
Definition ToString (v : JsValue) : Result jsstring :=
  match v with
  | VUndefined => Ok (js "undefined")
  | VNull => Ok (js "null")
  | VBool true => Ok (js "true")
  | VBool false => Ok (js "false")
  | VString s => Ok s
  | VOther _ text => Ok text
  | VUnprintable => Throw TypeError
  end.

(** [for (const x of l) { acc = f(acc, x) }] where [f] may throw. *)
Fixpoint foldM {A B} (f : A -> B -> Result A) (acc : A) (l : list B) : Result A :=
  match l with
  | [] => Ok acc
  | x :: l' => acc' ← f acc x; foldM f acc' l'
  end.

(** The platform functions the code calls whose definition is a table or an
    algorithm outside the repository. *)
Class Platform := {
  (** [s.toLowerCase()] for a string with a unit outside ASCII *)
  unicode_toLowerCase : jsstring -> jsstring;
  (** [s.normalize('NFKD')] for a string with a unit outside ASCII *)
  unicode_NFKD : jsstring -> jsstring;
  (** [new URL(s).pathname], [None] when the constructor throws *)
  url_pathname : jsstring -> option jsstring;
}.

(** ** Text normaliser *)

Definition is_ascii (c : N) : bool := (c <? 128)%N.

Definition ascii_lower (c : N) : N :=
  if ((65 <=? c) && (c <=? 90))%N then (c + 32)%N else c.

(** [/[a-z0-9]/] *)
Definition lower_alnum (c : N) : bool :=
  ((97 <=? c) && (c <=? 122) || (48 <=? c) && (c <=? 57))%N.

Definition hyphen : N := 45%N.
Definition slash : N := 47%N.
Definition dot : N := 46%N.

Section text.
Context {P : Platform}.

(** On ASCII, lowercasing acts unit by unit and NFKD is the identity. *)
Definition toLowerCase (s : jsstring) : jsstring :=
  if forallb is_ascii s then map ascii_lower s else unicode_toLowerCase s.

Definition normalizeNFKD (s : jsstring) : jsstring :=
  if forallb is_ascii s then s else unicode_NFKD s.

(** [normalizeText]: a falsy value gives the empty string; a truthy value
    that is not a string has no [toLowerCase]. *)
Definition normalizeText (value : JsValue) : Result jsstring :=
  if negb (truthy value) then Ok []
  else match value with
       | VString s =>
           Ok (List.filter lower_alnum (normalizeNFKD (toLowerCase s)))
       | _ => Throw TypeError
       end.

(** [.replace(/[^a-z0-9]+/g, '-')]: [in_run] holds inside a run of units
    that are not [a-z0-9], whose hyphen has been written already. *)
Fixpoint hyphenate (in_run : bool) (s : jsstring) : jsstring :=
  match s with
  | [] => []
  | c :: s' =>
      if lower_alnum c then c :: hyphenate false s'
      else if in_run then hyphenate true s'
      else hyphen :: hyphenate true s'
  end.

Fixpoint drop_hyphens (s : jsstring) : jsstring :=
  match s with
  | [] => []
  | c :: s' => if bool_decide (c = hyphen) then drop_hyphens s' else s
  end.

(** [.replace(/^-+|-+$/g, '')] *)
Definition trim_hyphens (s : jsstring) : jsstring :=
  rev (drop_hyphens (rev (drop_hyphens s))).

Definition createSlug (value : jsstring) : jsstring :=
  trim_hyphens (hyphenate false (normalizeNFKD (toLowerCase value))).

End text.

(** ** Strings and paths *)

Fixpoint is_prefix (p s : jsstring) : bool :=
  match p, s with
  | [], _ => true
  | _ :: _, [] => false
  | x :: p', y :: s' => bool_decide (x = y) && is_prefix p' s'
  end.

(** [s.includes(t)] *)
Fixpoint includes (s t : jsstring) : bool :=
  is_prefix t s ||
  match s with
  | [] => false
  | _ :: s' => includes s' t
  end.

(** [s.endsWith(t)] *)
Definition endsWith (s t : jsstring) : bool :=
  bool_decide (drop (length s - length t) s = t).

(** [s.split(sep)] for a one-unit separator *)
Fixpoint split (sep : N) (s : jsstring) : list jsstring :=
  match s with
  | [] => [[]]
  | c :: s' =>
      if bool_decide (c = sep) then [] :: split sep s'
      else match split sep s' with
           | seg :: rest => (c :: seg) :: rest
           | [] => [[c]]
           end
  end.

Definition nonempty (s : jsstring) : bool := negb (bool_decide (s = [])).

Fixpoint drop_slashes (s : jsstring) : jsstring :=
  match s with
  | [] => []
  | c :: s' => if bool_decide (c = slash) then drop_slashes s' else s
  end.

Fixpoint take_segment (s : jsstring) : jsstring :=
  match s with
  | [] => []
  | c :: s' => if bool_decide (c = slash) then [] else c :: take_segment s'
  end.

(** Modelled from the spec: [path.basename] of Node's [path] module, which is
    not part of the repository: "the final path segment". As the POSIX
    implementation does, trailing slashes are skipped and the units back to
    the previous slash are returned; a path of slashes only gives the empty
    string. *)
Definition basename (p : jsstring) : jsstring :=
  rev (take_segment (drop_slashes (rev p))).

(** Modelled from the spec: [path.join(dir, entry)] of Node's [path] module for
    a normalised directory [dir] and a directory entry name [entry]: the two
    joined by one separator. *)
Definition path_join (dir entry : jsstring) : jsstring := dir ++ slash :: entry.

(** [fileName.replace(/\.[^.]+$/, '')]: the match, if any, starts at the last
    dot, and needs one unit at least after it. [strip_ext_rev] works on the
    reversed string and returns [None] when there is no match. *)
Fixpoint strip_ext_rev (seen : bool) (r : jsstring) : option jsstring :=
  match r with
  | [] => None
  | c :: r' =>
      if bool_decide (c = dot) then (if seen then Some r' else None)
      else strip_ext_rev true r'
  end.

Definition strip_extension (fileName : jsstring) : jsstring :=
  match strip_ext_rev false (rev fileName) with
  | Some r => rev r
  | None => fileName
  end.

Fixpoint uint_units (d : Decimal.uint) : jsstring :=
  match d with
  | Decimal.Nil => []
  | Decimal.D0 d => 48%N :: uint_units d
  | Decimal.D1 d => 49%N :: uint_units d
  | Decimal.D2 d => 50%N :: uint_units d
  | Decimal.D3 d => 51%N :: uint_units d
  | Decimal.D4 d => 52%N :: uint_units d
  | Decimal.D5 d => 53%N :: uint_units d
  | Decimal.D6 d => 54%N :: uint_units d
  | Decimal.D7 d => 55%N :: uint_units d
  | Decimal.D8 d => 56%N :: uint_units d
  | Decimal.D9 d => 57%N :: uint_units d
  end.

(** The decimal digits of a natural number, as a template literal prints an
    index. *)
Definition decimal (n : nat) : jsstring := uint_units (Nat.to_uint n).

(** [`report-${index + 1}`] *)
Definition placeholder (index : nat) : jsstring :=
  js "report-" ++ decimal (index + 1).

(** ** Scores *)

(** A length or a distance as a JavaScript number. Lengths are far below
    [2^53], so the conversion is exact. *)
Definition of_nat (n : nat) : float :=
  PrimFloat.of_uint63 (Uint63.of_Z (Z.of_nat n)).

(** The literal [0.6]: the binary64 number nearest to 6/10. *)
Definition threshold_path : float := 0x1.3333333333333p-1%float.

(** The literal [0.45]: the binary64 number nearest to 45/100. *)
Definition threshold_query : float := 0x1.ccccccccccccdp-2%float.


(** [1 - distance / maxLength] *)
Definition similarity_of (distance maxLength : nat) : float :=
  (1 - of_nat distance / of_nat maxLength)%float.

(** ** The document index *)

(** [reportDocsIndex]: a plain object used as a map from normalised keys to
    paths. The list holds its own properties in the order [Object.entries]
    enumerates them. *)
Abbreviation Index := (list (jsstring * jsstring)).

Fixpoint own (idx : Index) (k : jsstring) : option jsstring :=
  match idx with
  | [] => None
  | (k', v) :: idx' => if bool_decide (k' = k) then Some v else own idx' k
  end.

(** What a plain object inherits: [Object.prototype[k]]. The methods are
    functions, [__proto__] reads the prototype itself; all are truthy and none
    is a string. *)
Definition object_prototype (k : jsstring) : JsValue :=
  if bool_decide (k = js "constructor") then
    VOther true (js "function Object() { [native code] }")
  else if bool_decide (k ∈ js <$> ["__defineGetter__"; "__defineSetter__";
             "hasOwnProperty"; "__lookupGetter__"; "__lookupSetter__";
             "isPrototypeOf"; "propertyIsEnumerable"; "toString"; "valueOf";
             "toLocaleString"]%string) then
    VOther true (js "function " ++ k ++ js "() { [native code] }")
  else if bool_decide (k = js "__proto__") then
    VOther true (js "[object Object]")
  else VUndefined.

(** [reportDocsIndex[k]]: an own property, or else what the prototype has. *)
Definition index_get (idx : Index) (k : jsstring) : JsValue :=
  match own idx k with
  | Some path => VString path
  | None => object_prototype k
  end.

Definition is_digit (c : N) : bool := ((48 <=? c) && (c <=? 57))%N.

Definition digits_value (s : jsstring) : N :=
  foldl (fun acc c => acc * 10 + (c - 48))%N 0%N s.

(** An array index: the canonical decimal form of an integer below
    [2^32 - 1]. Such keys are enumerated first, in numeric order. *)
Definition array_index (k : jsstring) : option N :=
  match k with
  | [] => None
  | c :: rest =>
      if forallb is_digit k
         && (negb (c =? 48)%N || bool_decide (rest = []))
         && (digits_value k <? 4294967295)%N
      then Some (digits_value k) else None
  end.

Fixpoint replace_own (k v : jsstring) (idx : Index) : Index :=
  match idx with
  | [] => []
  | (k', v') :: idx' =>
      if bool_decide (k' = k) then (k, v) :: idx'
      else (k', v') :: replace_own k v idx'
  end.

Fixpoint insert_array_index (n : N) (k v : jsstring) (idx : Index) : Index :=
  match idx with
  | [] => [(k, v)]
  | (k', v') :: idx' =>
      match array_index k' with
      | Some n' =>
          if (n' <? n)%N then (k', v') :: insert_array_index n k v idx'
          else (k, v) :: idx
      | None => (k, v) :: idx
      end
  end.

(** [reportDocsIndex[k] = v]: an existing key keeps its place; a new array
    index goes among the array indices, any other new key at the end. *)
Definition set_property (k v : jsstring) (idx : Index) : Index :=
  match own idx k with
  | Some _ => replace_own k v idx
  | None =>
      match array_index k with
      | Some n => insert_array_index n k v idx
      | None => idx ++ [(k, v)]
      end
  end.

(** ** Candidates *)

(** [candidates.add(v)] on a [Set] kept in insertion order. Strings are
    compared as [Set] compares them; two values that are not strings count as
    the same when their observations are. *)
Definition set_add (v : JsValue) (s : list JsValue) : list JsValue :=
  if bool_decide (v ∈ s) then s else s ++ [v].

Section candidates.
Context {P : Platform}.

Definition add_repo_segment (repo : JsValue) (candidates : list JsValue)
    : Result (list JsValue) :=
  match repo with
  | VString r =>
      let segments := List.filter nonempty (split slash r) in
      if (0 <? length segments)%nat
      then Ok (set_add (VString (List.last segments [])) candidates)
      else Ok candidates
  | _ => Throw TypeError
  end.

(** [new URL(url).pathname]: the constructor converts its argument to a
    string and parses it; [None] when either step throws. *)
Definition pathname_of (url : JsValue) : option jsstring :=
  match ToString url with
  | Ok text => url_pathname text
  | Throw _ => None
  end.

(** The [try] block over [new URL(report.url)]: a constructor that throws is
    caught and ignored. *)
Definition add_url_variants (url : JsValue) (candidates : list JsValue)
    : list JsValue :=
  match pathname_of url with
  | Some pathname =>
      if nonempty pathname then
        let fileName := basename pathname in
        if nonempty fileName then
          set_add (VString (strip_extension fileName))
            (set_add (VString fileName) candidates)
        else candidates
      else candidates
  | None => candidates
  end.

Definition buildReportDocCandidates (report : Obj) (slug : jsstring)
    : Result (list JsValue) :=
  let candidates := [] in
  let candidates :=
    if nonempty slug then set_add (VString slug) candidates else candidates in
  let candidates :=
    if truthy (get report "title")
    then set_add (get report "title") candidates else candidates in
  candidates ←
    (if truthy (get report "github_repo") then
       add_repo_segment (get report "github_repo")
         (set_add (get report "github_repo") candidates)
     else Ok candidates);
  let candidates :=
    if truthy (get report "url") then
      add_url_variants (get report "url")
        (set_add (get report "url") candidates)
    else candidates in
  Ok (List.filter truthy candidates).

(** The body of [entries.forEach] in [findDocPathForCandidates]. *)
Definition score_entry (normalized : jsstring) (best : JsValue * float)
    (entry : jsstring * jsstring) : JsValue * float :=
  let '(bestPath, bestSimilarity) := best in
  let '(key, value) := entry in
  let maxLength := (length key `max` length normalized) `max` 1 in
  let distance := levenshteinDistance key normalized in
  let similarity := similarity_of distance maxLength in
  if (bestSimilarity <? similarity)%float then (VString value, similarity)
  else (bestPath, bestSimilarity).

(** The loop over the candidates: [inl v] when the loop returns [v] from
    inside, on an exact key; [inr best] when it runs to its end. *)
Fixpoint scan_candidates (idx : Index) (best : JsValue * float)
    (candidates : list JsValue) : Result (JsValue + JsValue * float) :=
  match candidates with
  | [] => Ok (inr best)
  | candidate :: rest =>
      normalized ← normalizeText candidate;
      if nonempty normalized && truthy (index_get idx normalized) then
        Ok (inl (index_get idx normalized))
      else if negb (nonempty normalized) then scan_candidates idx best rest
      else scan_candidates idx (foldl (score_entry normalized) best idx) rest
  end.

(** [bestPath && bestSimilarity >= 0.6] *)
Definition accept_path (best : JsValue * float) : JsValue :=
  let '(bestPath, bestSimilarity) := best in
  if truthy bestPath && (threshold_path <=? bestSimilarity)%float
  then bestPath else VNull.

Definition findDocPathForCandidates (reportDocsIndex : option Index)
    (candidates : list JsValue) : Result JsValue :=
  match reportDocsIndex with
  | None => Ok VNull
  | Some idx =>
      scanned ← scan_candidates idx (VNull, 0%float) candidates;
      match scanned with
      | inl found => Ok found
      | inr best => Ok (accept_path best)
      end
  end.

End candidates.

(** ** Process state and the file system *)

(** The module-level variables, and two counters that record how often the
    records source and the document directory have been read. *)
Record State := {
  reportsCache : list Obj;
  reportDocsIndex : option Index;
  sourceReads : nat;
  directoryReads : nat;
}.

Definition initial_state : State :=
  {| reportsCache := []; reportDocsIndex := None;
     sourceReads := 0; directoryReads := 0 |}.

(** An element of the parsed array: [ItemObject] when
    [item && typeof item === 'object'], with its own enumerable properties. *)
Inductive JsonItem :=
| ItemObject (o : Obj)
| ItemOther.

(** What [JSON.parse] returns: an array, or any other value. *)
Inductive Json :=
| JsonArray (items : list JsonItem)
| JsonOther.

(** Failures of the file system and of [JSON.parse] are exceptions; the
    handlers look at [error.code] only, and only to decide whether to log. *)
Inductive IOResult (A : Type) :=
| Done (a : A)
| Failed (enoent : bool).
Arguments Done {A} a.
Arguments Failed {A} enoent.

(** The files the core reads, fixed while it runs. *)
Class World := {
  (** [path.join(__dirname, 'data', 'reports')] *)
  reportsDir : jsstring;
  (** [fs.readdir(reportsDir)] *)
  readdir : IOResult (list jsstring);
  (** [JSON.parse(fs.readFile(reportsPath))] *)
  readReportsJson : IOResult Json;
  (** [fs.readFile(explanationPath, 'utf8')] *)
  readFile : JsValue -> IOResult jsstring;
}.

(** A computation over the state that may throw. *)
Definition Server (A : Type) : Type := State -> State * Result A.

#[global] Instance Server_ret : MRet Server := fun A a st => (st, Ok a).

#[global] Instance Server_bind : MBind Server := fun A B k m st =>
  match m st with
  | (st', Ok a) => k a st'
  | (st', Throw e) => (st', Throw e)
  end.

Definition lift {A} (r : Result A) : Server A := fun st => (st, r).

Definition get_state : Server State := fun st => (st, Ok st).

(** [try { m } catch (error) { handler }] *)
Definition try_catch {A} (m : Server A) (handler : Server A) : Server A :=
  fun st =>
    match m st with
    | (st', Ok a) => (st', Ok a)
    | (st', Throw _) => handler st'
    end.

Definition set_index (idx : Index) : Server unit := fun st =>
  ({| reportsCache := reportsCache st; reportDocsIndex := Some idx;
      sourceReads := sourceReads st; directoryReads := directoryReads st |},
   Ok tt).

Definition set_cache (cache : list Obj) : Server unit := fun st =>
  ({| reportsCache := cache; reportDocsIndex := reportDocsIndex st;
      sourceReads := sourceReads st; directoryReads := directoryReads st |},
   Ok tt).

Definition count_directory_read : Server unit := fun st =>
  ({| reportsCache := reportsCache st; reportDocsIndex := reportDocsIndex st;
      sourceReads := sourceReads st; directoryReads := S (directoryReads st) |},
   Ok tt).

Definition count_source_read : Server unit := fun st =>
  ({| reportsCache := reportsCache st; reportDocsIndex := reportDocsIndex st;
      sourceReads := S (sourceReads st); directoryReads := directoryReads st |},
   Ok tt).

Section server.
Context {P : Platform} {W : World}.

(** The body of [entries.forEach] in [ensureReportDocsIndex]. *)
Definition index_entry (idx : Index) (entry : jsstring) : Result Index :=
  if endsWith (toLowerCase entry) (js ".md") then
    let baseName := take (length entry - 3) entry in
    normalized ← normalizeText (VString baseName);
    if nonempty normalized
    then Ok (set_property normalized (path_join reportsDir entry) idx)
    else Ok idx
  else Ok idx.

(** Both branches of the [try] end with an index: the one built from the
    listing, or the empty one of the [catch]. *)
Definition ensureReportDocsIndex : Server unit :=
  st ← get_state;
  match reportDocsIndex st with
  | Some _ => mret tt
  | None =>
      try_catch
        (count_directory_read;;
         match readdir with
         | Done entries =>
             idx ← lift (foldM index_entry [] entries);
             set_index idx
         | Failed enoent => lift (Throw (IOError enoent))
         end)
        (set_index [])
  end.

(** [a.slug || a.title || a.github_repo || a.url] *)
Definition slug_source (o : Obj) : JsValue :=
  js_or (js_or (js_or (get o "slug") (get o "title")) (get o "github_repo"))
    (get o "url").

(** [slugSource ? createSlug(String(slugSource)) : ''] *)
Definition source_slug (slugSource : JsValue) : Result jsstring :=
  if truthy slugSource then
    text ← ToString slugSource;
    Ok (createSlug text)
  else Ok [].

Definition resolveExplanationPath (report : Obj) : Server JsValue :=
  ensureReportDocsIndex;;
  let slugSource := slug_source report in
  slug ← lift (source_slug slugSource);
  candidates ← lift (buildReportDocCandidates report slug);
  st ← get_state;
  lift (findDocPathForCandidates (reportDocsIndex st) candidates).

(** The callback of [reportsArray.map] in [ensureReportsLoaded]. *)
Definition enrich (item : JsonItem) (index : nat) : Server Obj :=
  let base := match item with ItemObject o => o | ItemOther => ∅ end in
  let slugSource := js_or (slug_source base) (VString (placeholder index)) in
  text ← lift (ToString slugSource);
  let slugCandidate := createSlug text in
  let slug :=
    if nonempty slugCandidate then slugCandidate else placeholder index in
  let reportWithSlug := <[js "slug" := VString slug]> base in
  explanationPath ← resolveExplanationPath reportWithSlug;
  mret (<[js "hasExplanation" := VBool (truthy explanationPath)]>
          (<[js "explanationPath" := js_or explanationPath VNull]>
             reportWithSlug)).

(** The [try] block of [ensureReportsLoaded]. The callbacks of
    [Promise.all] are run in order: once the index is built, which it is
    before the first of them starts, none changes the state, so the order
    in which they are interleaved is not observable. *)
Definition load_reports : Server unit :=
  count_source_read;;
  match readReportsJson with
  | Failed enoent => lift (Throw (IOError enoent))
  | Done parsed =>
      let reportsArray :=
        match parsed with JsonArray items => items | JsonOther => [] end in
      ensureReportDocsIndex;;
      cache ← mapM (fun '(index, item) => enrich item index)
                (imap pair reportsArray);
      set_cache cache
  end.

(** A non-empty cache makes the call a no-op; a failure of any kind inside
    the [try] leaves the cache empty. *)
Definition ensureReportsLoaded : Server unit :=
  st ← get_state;
  if (0 <? length (reportsCache st))%nat then mret tt
  else try_catch load_reports (set_cache []).

(** The body of [candidates.forEach] in [findBestReportMatch]. *)
Definition score_candidate (normalizedQuery : jsstring) (report : Obj)
    (best : option Obj * float) (candidate : jsstring) : option Obj * float :=
  let '(bestMatch, bestScore) := best in
  if negb (nonempty candidate) then best
  else if includes candidate normalizedQuery
          || includes normalizedQuery candidate then
    let score :=
      (of_nat (length normalizedQuery) / of_nat (length candidate `max` 1))%float in
    if (bestScore <? score)%float then (Some report, score) else best
  else
    let distance := levenshteinDistance candidate normalizedQuery in
    let maxLength :=
      (length candidate `max` length normalizedQuery) `max` 1 in
    let similarity := similarity_of distance maxLength in
    if (bestScore <? similarity)%float then (Some report, similarity) else best.

(** The body of [reportsCache.forEach]. *)
Definition score_report (normalizedQuery : jsstring)
    (best : option Obj * float) (report : Obj) : Result (option Obj * float) :=
  candidates ← mapM normalizeText
    (List.filter truthy
       [get report "title"; get report "github_repo"; get report "url"]);
  Ok (foldl (score_candidate normalizedQuery report) best candidates).

(** The object [{ report: bestMatch, score: bestScore }]. *)
Record Match := { report : option Obj; score : float }.

(** [reportsCache.forEach] from [bestMatch = null], [bestScore = -Infinity]. *)
Definition best_report (cache : list Obj) (normalizedQuery : jsstring)
    : Result (option Obj * float) :=
  foldM (score_report normalizedQuery) (None, neg_infinity) cache.

Definition findBestReportMatch (cache : list Obj) (query : jsstring)
    : Result (option Match) :=
  normalizedQuery ← normalizeText (VString query);
  if negb (nonempty normalizedQuery) then Ok None
  else
    best ← best_report cache normalizedQuery;
    let '(bestMatch, bestScore) := best in
    if (bestScore <? threshold_query)%float then Ok None
    else Ok (Some {| report := bestMatch; score := bestScore |}).

End server.

(** [sanitizeReport]: [None] stands for [null] and [undefined]. *)
Definition sanitizeReport (report : option Obj) : option Obj :=
  match report with
  | None => None
  | Some r => Some (delete (js "explanationPath") r)
  end.

(** ** The two endpoints over the reports *)

(** ECMAScript white space and line terminators, which [trim] removes. *)
Definition is_space (c : N) : bool :=
  bool_decide (c ∈ [9; 10; 11; 12; 13; 32; 160; 5760; 8232; 8233; 8239; 8287;
                    12288; 65279]%N)
  || ((8192 <=? c) && (c <=? 8202))%N.

Fixpoint drop_spaces (s : jsstring) : jsstring :=
  match s with
  | [] => []
  | c :: s' => if is_space c then drop_spaces s' else s
  end.

(** [v.trim()] *)
Definition js_trim (v : JsValue) : Result jsstring :=
  match v with
  | VString s => Ok (rev (drop_spaces (rev (drop_spaces s))))
  | _ => Throw TypeError
  end.

(** What a handler sends: [res.status(code).json({ error })] or one of the
    bodies of [res.json]. *)
Inductive Response :=
| ErrorStatus (status : nat)
| NoMatch
| SearchMatch (found : option Obj) (score : float)
| NoExplanation
| Explanation (report : option Obj) (markdown : jsstring).

Section endpoints.
Context {P : Platform} {W : World}.

(** [GET /api/reports/search], [q] being [req.query.q]. *)
Definition search_handler (q : JsValue) : Server Response :=
  try_catch
    (query ← lift (js_trim (js_or q (VString [])));
     if negb (nonempty query) then mret (ErrorStatus 400)
     else
       ensureReportsLoaded;;
       st ← get_state;
       result ← lift (findBestReportMatch (reportsCache st) query);
       match result with
       | None => mret NoMatch
       | Some m =>
           mret (SearchMatch (sanitizeReport (report m)) (score m))
       end)
    (mret (ErrorStatus 500)).

(** [reportsCache.find((item) => normalizeText(item.slug) === normalizedSlug)] *)
Fixpoint find_by_slug (normalizedSlug : jsstring) (cache : list Obj)
    : Result (option Obj) :=
  match cache with
  | [] => Ok None
  | item :: rest =>
      normalized ← normalizeText (get item "slug");
      if bool_decide (normalized = normalizedSlug) then Ok (Some item)
      else find_by_slug normalizedSlug rest
  end.

Definition read_markdown (explanationPath : JsValue) : Result jsstring :=
  match readFile explanationPath with
  | Done markdown => Ok markdown
  | Failed enoent => Throw (IOError enoent)
  end.

(** [GET /api/reports/:slug/explain], [slug] being [req.params.slug]. *)
Definition explain_handler (slug : jsstring) : Server Response :=
  try_catch
    (ensureReportsLoaded;;
     normalizedSlug ← lift (normalizeText (VString slug));
     st ← get_state;
     found ← lift (find_by_slug normalizedSlug (reportsCache st));
     match found with
     | None => mret (ErrorStatus 404)
     | Some report =>
         explanationPath ←
           (if truthy (get report "explanationPath")
            then mret (get report "explanationPath")
            else resolveExplanationPath report);
         if negb (truthy explanationPath) then mret NoExplanation
         else
           markdown ← lift (read_markdown explanationPath);
           mret (Explanation (sanitizeReport (Some report)) markdown)
     end)
    (mret (ErrorStatus 500)).

End endpoints.

(** ** What the stateful functions compute *)

(** The functions below say, without the state, what the stateful ones
    return; the properties relate the two. *)

Section pure.
Context {P : Platform} {W : World}.

(** The index [ensureReportDocsIndex] builds from the directory listing. *)
Definition directory_index : Index :=
  match readdir with
  | Done entries =>
      match foldM index_entry [] entries with
      | Ok idx => idx
      | Throw _ => []
      end
  | Failed _ => []
  end.

(** The index in use once [ensureReportDocsIndex] has run. *)
Definition index_of (st : State) : Index :=
  default directory_index (reportDocsIndex st).

(** [resolveExplanationPath] over a built index. *)
Definition resolve_with (idx : Index) (report : Obj) : Result JsValue :=
  slug ← source_slug (slug_source report);
  candidates ← buildReportDocCandidates report slug;
  findDocPathForCandidates (Some idx) candidates.

(** The slug [enrich] gives to the item at position [index]. *)
Definition enriched_slug (item : JsonItem) (index : nat) : Result jsstring :=
  let base := match item with ItemObject o => o | ItemOther => ∅ end in
  let slugSource := js_or (slug_source base) (VString (placeholder index)) in
  text ← ToString slugSource;
  let slugCandidate := createSlug text in
  Ok (if nonempty slugCandidate then slugCandidate else placeholder index).

(** [enrich] over a built index. *)
Definition enrich_with (idx : Index) (item : JsonItem) (index : nat)
    : Result Obj :=
  let base := match item with ItemObject o => o | ItemOther => ∅ end in
  slug ← enriched_slug item index;
  let reportWithSlug := <[js "slug" := VString slug]> base in
  explanationPath ← resolve_with idx reportWithSlug;
  Ok (<[js "hasExplanation" := VBool (truthy explanationPath)]>
        (<[js "explanationPath" := js_or explanationPath VNull]>
           reportWithSlug)).

(** The array [ensureReportsLoaded] maps over. *)
Definition reports_array : list JsonItem :=
  match readReportsJson with
  | Done (JsonArray items) => items
  | _ => []
  end.

(** The cache [ensureReportsLoaded] leaves when it loads over the index
    [idx]. *)
Definition loaded_cache (idx : Index) : list Obj :=
  match readReportsJson with
  | Failed _ => []
  | Done _ =>
      match mapM (fun '(index, item) => enrich_with idx item index)
              (imap pair reports_array) with
      | Ok cache => cache
      | Throw _ => []
      end
  end.

End pure.

(** ** The final segment of a repository path *)

(** The last non-empty piece of [r] between slashes, when there is one: the
    segment [buildReportDocCandidates] adds for [github_repo]. *)
Definition final_segment (r : jsstring) : option jsstring :=
  let segments := List.filter nonempty (split slash r) in
  if (0 <? length segments)%nat then Some (List.last segments []) else None.

(** ** Records whose identifying fields are text *)

Definition is_string (v : JsValue) : bool :=
  match v with VString _ => true | _ => false end.

(** A field the code can use as text: a string, or a falsy value, which
    every use skips. *)
Definition textual (v : JsValue) : bool := is_string v || negb (truthy v).

(** A report record as the data model describes it: [title], [github_repo]
    and [url], when present, are strings. *)
Definition textual_record (o : Obj) : bool :=
  textual (get o "title") && textual (get o "github_repo")
  && textual (get o "url").

Definition textual_item (item : JsonItem) : bool :=
  match item with
  | ItemObject o => textual_record o
  | ItemOther => true
  end.

(** ** The slug as the specification words it *)

(** "report-<1-based index>": the units [report-] followed by the decimal
    digits of [index + 1], the first of which is not 0. *)
Definition is_placeholder (index : nat) (slug : jsstring) : Prop :=
  exists digits,
    slug = js "report-" ++ digits
    /\ digits <> []
    /\ forallb is_digit digits = true
    /\ head digits <> Some 48%N
    /\ digits_value digits = N.of_nat (index + 1).

(** A value that is absent or blank: [undefined], [null], or a string of
    white space only, the empty string being one. *)
Definition blank (v : JsValue) : bool :=
  match v with
  | VUndefined | VNull => true
  | VString s => forallb is_space s
  | _ => false
  end.

(** A value whose conversion to a string does not throw. *)
Definition printable (v : JsValue) : bool :=
  match v with
  | VUnprintable => false
  | _ => true
  end.

(** An item that [enrich] turns into a record without throwing: its title,
    repository and URL are strings or falsy, and its slug has a conversion
    to a string. *)
Definition loadable (item : JsonItem) : bool :=
  match item with
  | ItemObject o => textual_record o && printable (get o "slug")
  | ItemOther => true
  end.

Section spec.
Context {P : Platform}.

(** What the sentence says of the slug of the item at position [index], a
    field being taken when [chosen] holds of it: the slug is "derived by
    slugifying the first" chosen "of the record's slug, title, github_repo,
    url (in that priority order), and when" none is chosen "or the
    slugified result is empty it falls back to the positional
    placeholder". *)
Definition derived_slug (chosen : JsValue -> bool) (item : JsonItem)
    (index : nat) (slug : jsstring) : Prop :=
  let base := match item with ItemObject o => o | ItemOther => ∅ end in
  match List.find chosen [get base "slug"; get base "title";
                          get base "github_repo"; get base "url"] with
  | Some source =>
      exists text,
        ToString source = Ok text
        /\ if nonempty (createSlug text) then slug = createSlug text
           else is_placeholder index slug
  | None => is_placeholder index slug
  end.

(** The sentence as it is written: a field is taken when it is "present and
    non-blank". *)
Definition spec_slug : JsonItem -> nat -> jsstring -> Prop :=
  derived_slug (fun v => negb (blank v)).

(** The sentence as the code has it: a field is taken when it is truthy, so
    that a string of white space only is taken. *)
Definition truthy_slug : JsonItem -> nat -> jsstring -> Prop :=
  derived_slug truthy.

End spec.

(** ** Candidates that are no exact hit *)

(** A candidate the loop of [findDocPathForCandidates] goes past: it
    normalises to a string that is neither a key of the index nor the name
    [constructor]. *)
Definition no_hit {P : Platform} (idx : Index) (v : JsValue) : Prop :=
  exists n, normalizeText v = Ok n /\ own idx n = None /\ n <> js "constructor".

(** ** Closed instances for the examples *)

(** The path of an [https://host/path] URL: what follows the host, from its
    first slash on. On the URLs of the examples, which have neither dot
    segments, query, fragment nor units that need escaping, this is the
    [pathname] the URL parser gives. *)
Definition sample_url_pathname (s : jsstring) : option jsstring :=
  if is_prefix (js "https://") s then
    let after_scheme := drop 8 s in
    let host := take_segment after_scheme in
    if nonempty host then
      let rest := drop (length host) after_scheme in
      Some (if nonempty rest then rest else [slash])
    else None
  else None.

(** A platform for closed examples, all of which are ASCII. *)
Definition sample_platform : Platform :=
  {| unicode_toLowerCase := fun s => s;
     unicode_NFKD := fun s => s;
     url_pathname := sample_url_pathname |}.

(** No document directory, and a records source that holds an empty array. *)
Definition empty_world : World :=
  {| reportsDir := js "/srv/data/reports";
     readdir := Failed true;
     readReportsJson := Done (JsonArray []);
     readFile := fun _ => Failed true |}.

(** A record with the given string fields. *)
Definition record (fields : list (string * string)) : Obj :=
  list_to_map ((fun '(k, v) => (js k, VString (js v))) <$> fields).

(** [fs.readFile] of the examples: every path names a file that holds
    [# Foo Bar]; a value that is no string is no path, and the read
    throws. *)
Definition sample_readFile (path : JsValue) : IOResult jsstring :=
  match path with
  | VString _ => Done (js "# Foo Bar")
  | _ => Failed false
  end.

(** One document, [foo-bar.md], and one record whose slug is three spaces
    and whose title names the document. *)
Definition blank_slug_world : World :=
  {| reportsDir := js "/srv/data/reports";
     readdir := Done [js "foo-bar.md"];
     readReportsJson :=
       Done (JsonArray
               [ItemObject (record [("slug", "   ");
                                    ("title", "Foo Bar")])]%string);
     readFile := sample_readFile |}.

(** One document, [foo-bar.md], and three records. *)
Definition sample_world : World :=
  {| reportsDir := js "/srv/data/reports";
     readdir := Done [js "foo-bar.md"];
     readReportsJson :=
       Done (JsonArray
               [ItemObject (record [("slug", "foo-bar");
                                    ("title", "Reentrancy Attack in TokenVault")]);
                ItemObject (record [("title", "Foo Bar")]);
                ItemOther]%string);
     readFile := sample_readFile |}.

(** The document [foo-bar.md], and one record whose slug is [constructor]
    and whose title names the document. *)
Definition constructor_world : World :=
  {| reportsDir := js "/srv/data/reports";
     readdir := Done [js "foo-bar.md"];
     readReportsJson :=
       Done (JsonArray
               [ItemObject (record [("slug", "constructor");
                                    ("title", "Foo Bar")])]%string);
     readFile := sample_readFile |}.

(** The function [Object], which every plain object inherits as
    [constructor]. *)
Definition object_function : JsValue :=
  VOther true (js "function Object() { [native code] }").

(** ** The pairings of the query matcher *)

(** An integer as a JavaScript number. *)
Definition of_Z (z : Z) : float := PrimFloat.of_uint63 (Uint63.of_Z z).

Section pairings.
Context {P : Platform}.

(** The comparison strings of a report in [findBestReportMatch]: the truthy
    ones of its [title], [github_repo] and [url], normalised. *)
Definition comparison_strings (report : Obj) : Result (list jsstring) :=
  mapM normalizeText
    (List.filter truthy
       [get report "title"; get report "github_repo"; get report "url"]).

(** The score that the body of [candidates.forEach] computes for a
    comparison string that is not empty. *)
Definition pair_score (normalizedQuery candidate : jsstring) : float :=
  if includes candidate normalizedQuery
     || includes normalizedQuery candidate then
    (of_nat (length normalizedQuery) / of_nat (length candidate `max` 1))%float
  else
    similarity_of (levenshteinDistance candidate normalizedQuery)
      ((length candidate `max` length normalizedQuery) `max` 1).

(** A report of the cache with one of its comparison strings, a non-empty
    one: the pairs that [findBestReportMatch] scores. *)
Definition pairing (cache : list Obj) (r : Obj) (candidate : jsstring) : Prop :=
  r ∈ cache /\ candidate <> []
  /\ exists candidates,
       comparison_strings r = Ok candidates /\ candidate ∈ candidates.

(** The pairing that wins: the match holds its report and its score, and no
    pairing has a greater score. *)
Definition winning (cache : list Obj) (normalizedQuery : jsstring)
    (r : Obj) (candidate : jsstring) (m : Match) : Prop :=
  pairing cache r candidate
  /\ report m = Some r
  /\ score m = pair_score normalizedQuery candidate
  /\ forall r' candidate',
       pairing cache r' candidate' ->
       (score m <? pair_score normalizedQuery candidate')%float = false.

(** The reports with their comparison strings, in the order of the two
    loops. *)
Definition scored_pairs (cache : list Obj) : list (Obj * jsstring) :=
  flat_map
    (fun r =>
       match comparison_strings r with
       | Ok candidates => pair r <$> candidates
       | Throw _ => []
       end)
    cache.

(** The running best after the pairs [seen]: the score is a number other
    than NaN; it is [-Infinity] with no report, or the score of a pair seen,
    with the report of that pair; and no pair seen has a greater score. *)
Definition leads (normalizedQuery : jsstring) (seen : list (Obj * jsstring))
    (best : option Obj * float) : Prop :=
  (best.2 <=? best.2)%float = true
  /\ match best.1 with
     | None => best.2 = neg_infinity
     | Some r =>
         exists candidate,
           (r, candidate) ∈ seen /\ candidate <> []
           /\ best.2 = pair_score normalizedQuery candidate
     end
  /\ forall r' candidate',
       (r', candidate') ∈ seen -> candidate' <> [] ->
       (best.2 <? pair_score normalizedQuery candidate')%float = false.

End pairings.

(** ** The shape of a slug *)

(** A unit a slug is made of: [a-z], [0-9] or the hyphen. *)
Definition slug_unit (c : N) : bool := lower_alnum c || bool_decide (c = hyphen).

(** A slug: made of slug units, with no hyphen at either end and no two
    hyphens in a row. *)
Definition slug_shaped (t : jsstring) : Prop :=
  forallb slug_unit t = true
  /\ (forall l, t <> hyphen :: l)
  /\ (forall l, t <> l ++ [hyphen])
  /\ (forall l1 l2, t <> l1 ++ hyphen :: hyphen :: l2).

(** ** The key of a directory entry *)

(** The key under which [ensureReportDocsIndex] files a directory entry:
    the normalised name without its last three units, for an entry whose
    lowercased name ends in [.md] and whose normalised name is not empty. *)
Definition entry_key {P : Platform} (entry : jsstring) : option jsstring :=
  if endsWith (toLowerCase entry) (js ".md") then
    match normalizeText (VString (take (length entry - 3) entry)) with
    | Ok normalized => if nonempty normalized then Some normalized else None
    | Throw _ => None
    end
  else None.

(** The body of [entries.forEach] in [ensureReportDocsIndex], which never
    throws. *)
Definition file_entry {P : Platform} {W : World} (idx : Index)
    (entry : jsstring) : Index :=
  match entry_key entry with
  | Some normalized => set_property normalized (path_join reportsDir entry) idx
  | None => idx
  end.

(** The entry that wins the key [k]: the last one of the listing that has
    it. *)
Definition wins {P : Platform} (entries : list jsstring) (k : jsstring) (e : jsstring) : Prop :=
  exists before after,
    entries = before ++ e :: after
    /\ entry_key e = Some k
    /\ Forall (fun e' => entry_key e' <> Some k) after.

(** Three documents, two of which have the same key, and a file that is no
    document. *)
Definition colliding_world : World :=
  {| reportsDir := js "/srv/data/reports";
     readdir := Done [js "Foo-Bar.md"; js "notes.txt"; js "2024.md";
                      js "foobar.MD"];
     readReportsJson := Done (JsonArray []);
     readFile := fun _ => Failed true |}.

(** One document and two records, the second of which has the number 42 as
    its [github_repo]. *)
Definition poisoned_world : World :=
  {| reportsDir := js "/srv/data/reports";
     readdir := Done [js "foo-bar.md"];
     readReportsJson :=
       Done (JsonArray
               [ItemObject (record [("title", "Foo Bar")]%string);
                ItemObject (<[js "github_repo" := VOther true (js "42")]> ∅)]);
     readFile := sample_readFile |}.

(** ** What the two matchers can return *)

(** A value that is a path stored in the index. *)
Definition stored (idx : Index) (v : JsValue) : Prop :=
  exists k p, (k, p) ∈ idx /\ v = VString p.

(** The running best of [findBestReportMatch]: no report yet and the score
    [-Infinity], or a report of the cache one of whose comparison fields is
    truthy. *)
Definition best_of (cache : list Obj) (best : option Obj * float) : Prop :=
  match best.1 with
  | None => best.2 = neg_infinity
  | Some r =>
      r ∈ cache
      /\ (truthy (get r "title") || truthy (get r "github_repo")
          || truthy (get r "url")) = true
  end.

(** ** The bug list endpoints *)

(** A parsed JSON document as far as the bug list endpoints look at it: an
    array, [null], or any other value, of which [zero_length] says whether
    its [length] is the number 0 (the empty string has one, and an object
    with such a property). The items of an array are not looked at. *)
Inductive Document :=
| ArrayDoc (items : list JsValue)
| NullDoc
| OtherDoc (zero_length : bool) (value : JsValue).

(** [bugsCache.length === 0]; reading a property of [null] throws. *)
Definition length_is_zero (doc : Document) : Result bool :=
  match doc with
  | ArrayDoc items => Ok (length items =? 0)%nat
  | NullDoc => Throw TypeError
  | OtherDoc zero_length _ => Ok zero_length
  end.

(** The module-level variables [bugsCache] and [uploadedFileHash]. *)
Record Store := {
  bugsCache : Document;
  uploadedFileHash : JsValue;
}.

Definition initial_store : Store :=
  {| bugsCache := ArrayDoc []; uploadedFileHash := VNull |}.

(** What the file system and the storage network do during one upload
    request. *)
Record Upload := {
  (** [JSON.parse(fs.readFile(req.file.path))], or the failure of either *)
  upload_content : IOResult Document;
  (** the hash [tree.rootHash()] when the inner [try] block got as far as
      assigning it, [None] when it threw before *)
  upload_root : option JsValue;
  (** [fs.writeFile('data/bugs.json', ...)] did not throw *)
  upload_written : bool;
  (** [fs.unlink(req.file.path)] did not throw *)
  upload_unlinked : bool;
}.

(** What a bug list endpoint sends. *)
Inductive Reply :=
| ReplyError (status : nat)
| ReplyUploaded (count : nat) (rootHash : JsValue)
| ReplyDownloaded (data : Document)
| ReplyBugs (bugs : Document)
| ReplyHash (rootHash : JsValue).

(** [POST /api/upload], [file] being [req.file]. The hash and the cache are
    assigned before the file is written, so a failure of the last two steps
    is answered 500 with both assigned. *)
Definition upload_handler (file : option Upload) (st : Store) : Store * Reply :=
  match file with
  | None => (st, ReplyError 400)
  | Some run =>
      match upload_content run with
      | Failed _ => (st, ReplyError 500)
      | Done (ArrayDoc items) =>
          let hash := default (uploadedFileHash st) (upload_root run) in
          let st' := {| bugsCache := ArrayDoc items; uploadedFileHash := hash |} in
          if upload_written run && upload_unlinked run
          then (st', ReplyUploaded (length items) hash)
          else (st', ReplyError 500)
      | Done _ => (st, ReplyError 400)
      end
  end.

(** [GET /api/download/:rootHash]; [downloaded] is what the download from
    the storage network, the read of the temporary file and [JSON.parse]
    give, or the failure of any of them. The document is not checked to be
    an array. *)
Definition download_handler (rootHash : JsValue)
    (downloaded : IOResult Document) (st : Store) : Store * Reply :=
  if negb (truthy rootHash) then (st, ReplyError 400)
  else match downloaded with
       | Failed _ => (st, ReplyError 500)
       | Done data =>
           ({| bugsCache := data; uploadedFileHash := uploadedFileHash st |},
            ReplyDownloaded data)
       end.

(** [GET /api/bugs]; [read] is [JSON.parse(fs.readFile('data/bugs.json'))]
    or the failure of either, which the inner [catch] turns into the empty
    array. *)
Definition bugs_handler (read : IOResult Document) (st : Store) : Store * Reply :=
  match length_is_zero (bugsCache st) with
  | Throw _ => (st, ReplyError 500)
  | Ok true =>
      let loaded := match read with Done doc => doc | Failed _ => ArrayDoc [] end in
      ({| bugsCache := loaded; uploadedFileHash := uploadedFileHash st |},
       ReplyBugs loaded)
  | Ok false => (st, ReplyBugs (bugsCache st))
  end.

(** [GET /api/file-hash] *)
Definition file_hash_handler (st : Store) : Reply :=
  ReplyHash (uploadedFileHash st).

(** A request to one of the four endpoints, with what the outside world
    does while it is served. *)
Inductive Request :=
| PostUpload (file : option Upload)
| GetDownload (rootHash : JsValue) (downloaded : IOResult Document)
| GetBugs (read : IOResult Document)
| GetFileHash.

Definition serve (st : Store) (request : Request) : Store * Reply :=
  match request with
  | PostUpload file => upload_handler file st
  | GetDownload rootHash downloaded => download_handler rootHash downloaded st
  | GetBugs read => bugs_handler read st
  | GetFileHash => (st, file_hash_handler st)
  end.

(** The store after a sequence of requests, served one after the other. *)
Definition serve_all (st : Store) (requests : list Request) : Store :=
  foldl (fun st request => (serve st request).1) st requests.

(** ** Sequences of requests to the report endpoints *)

(** A request to one of the two report endpoints, or the call of
    [ensureReportsLoaded] that [initDataDir] makes when the server starts. *)
Inductive ReportRequest :=
| Startup
| GetSearch (q : JsValue)
| GetExplain (slug : jsstring).

Definition serve_report {P : Platform} {W : World} (st : State)
    (request : ReportRequest) : State :=
  match request with
  | Startup => (ensureReportsLoaded st).1
  | GetSearch q => (search_handler q st).1
  | GetExplain slug => (explain_handler slug st).1
  end.

(** The state after a sequence of requests that do not overlap, from the
    state the module starts in. *)
Definition state_after {P : Platform} {W : World}
    (requests : list ReportRequest) : State :=
  foldl serve_report initial_state requests.

(** What holds of the state between two requests: the index is not built,
    the directory has not been read and the cache is empty; or the index is
    the one of the directory, which has been read once. The cache is empty
    or holds the records of the source, enriched over that index. *)
Definition consistent {P : Platform} {W : World} (st : State) : Prop :=
  match reportDocsIndex st with
  | None => directoryReads st = 0 /\ reportsCache st = []
  | Some idx =>
      idx = directory_index /\ directoryReads st = 1
      /\ (reportsCache st = [] \/ reportsCache st = loaded_cache directory_index)
  end.

(** * Properties *)

(** ** Facts about the reference distance *)

Section lev_facts.
Import Lev.

Lemma lev_nil_l b : lev [] b = length b.
Proof. by destruct b. Qed.

Lemma lev_nil_r a : lev a [] = length a.
Proof. by destruct a. Qed.

Lemma lev_cons x a y b :
  lev (x :: a) (y :: b)
  = min3 (lev a (y :: b) + 1) (lev (x :: a) b + 1) (lev a b + cost x y).
Proof. reflexivity. Qed.

Lemma cost_refl x : cost x x = 0.
Proof. unfold cost. by rewrite bool_decide_eq_true_2. Qed.

Lemma cost_sym x y : cost x y = cost y x.
Proof. unfold cost. repeat case_bool_decide; congruence. Qed.

Lemma lev_sym a : forall b, lev a b = lev b a.
Proof.
  induction a as [|x a IHa]; intros b.
  - by rewrite lev_nil_l, lev_nil_r.
  - induction b as [|y b IHb]; [done|].
    rewrite !lev_cons, IHb, !IHa, (cost_sym x y). unfold min3. lia.
Qed.

Lemma lev_le_length_l a : forall b, lev a b <= length a `max` length b.
Proof.
  induction a as [|x a IHa]; intros b.
  - rewrite lev_nil_l. simpl. lia.
  - destruct b as [|y b]; [simpl; lia|].
    rewrite lev_cons. specialize (IHa b). unfold min3, cost.
    case_bool_decide; simpl; lia.
Qed.

Lemma lev_refl a : lev a a = 0.
Proof.
  induction a as [|x a IHa]; [done|].
  rewrite lev_cons, IHa, cost_refl. unfold min3. lia.
Qed.

(** [m <= t] for [m] a nested minimum one of whose leaves is below [t]. *)
Ltac min_below :=
  solve [ lia
        | eapply Nat.le_trans; [apply Nat.le_min_l|]; min_below
        | eapply Nat.le_trans; [apply Nat.le_min_r|]; min_below ].

(** Nine-way regrouping used by the prefix recurrence. *)
Lemma min3_regroup a1 a2 a3 b1 b2 b3 c1 c2 c3 k1 k2 :
  min3 (min3 (a1 + 1) (a2 + 1) (a3 + k2) + 1)
       (min3 (b1 + 1) (b2 + 1) (b3 + k2) + 1)
       (min3 (c1 + 1) (c2 + 1) (c3 + k2) + k1)
  = min3 (min3 (a1 + 1) (b1 + 1) (c1 + k1) + 1)
         (min3 (a2 + 1) (b2 + 1) (c2 + k1) + 1)
         (min3 (a3 + 1) (b3 + 1) (c3 + k1) + k2).
Proof.
  unfold min3. rewrite <- !Nat.add_min_distr_r.
  apply Nat.le_antisymm; repeat apply Nat.min_glb; min_below.
Qed.

(** The recurrence read from the other end of both strings: the one the
    dynamic programme follows, row by row over prefixes. *)
Lemma lev_snoc a : forall b x y,
  lev (a ++ [x]) (b ++ [y])
  = min3 (lev a (b ++ [y]) + 1) (lev (a ++ [x]) b + 1) (lev a b + cost x y).
Proof.
  induction a as [|x0 a IHa]; intros b; induction b as [|y0 b IHb]; intros x y.
  - reflexivity.
  - change (lev ([] ++ [x]) ((y0 :: b) ++ [y]))
      with (lev (x :: []) (y0 :: (b ++ [y]))).
    rewrite lev_cons. change [x] with ([] ++ [x]) at 1. rewrite IHb.
    change ([] ++ [x]) with (x :: []). rewrite (lev_cons x [] y0 b).
    rewrite !lev_nil_l. simpl length. rewrite !length_app. simpl length.
    unfold min3. rewrite <- !Nat.add_min_distr_r.
    apply Nat.le_antisymm; repeat apply Nat.min_glb; min_below.
  - change (lev ((x0 :: a) ++ [x]) ([] ++ [y]))
      with (lev (x0 :: (a ++ [x])) (y :: [])).
    rewrite lev_cons. change [y] with ([] ++ [y]) at 1. rewrite IHa.
    change ([] ++ [y]) with (y :: []). rewrite (lev_cons x0 a y []).
    rewrite !lev_nil_r. simpl length. rewrite !length_app. simpl length.
    unfold min3. rewrite <- !Nat.add_min_distr_r.
    apply Nat.le_antisymm; repeat apply Nat.min_glb; min_below.
  - change (lev ((x0 :: a) ++ [x]) ((y0 :: b) ++ [y]))
      with (lev (x0 :: (a ++ [x])) (y0 :: (b ++ [y]))).
    rewrite lev_cons.
    change (y0 :: (b ++ [y])) with ((y0 :: b) ++ [y]).
    change (x0 :: (a ++ [x])) with ((x0 :: a) ++ [x]).
    rewrite (IHa (y0 :: b)), IHb, (IHa b).
    change ((y0 :: b) ++ [y]) with (y0 :: (b ++ [y])).
    change ((x0 :: a) ++ [x]) with (x0 :: (a ++ [x])).
    rewrite (lev_cons x0 a y0 (b ++ [y])), (lev_cons x0 (a ++ [x]) y0 b),
      (lev_cons x0 a y0 b).
    apply min3_regroup.
Qed.

End lev_facts.

(** ** The dynamic programme computes the reference distance *)

Section lev_dp.
Import Lev.

(** A counting loop [for (k = 0; k < n; k += 1)] keeps an invariant. *)
Lemma foldl_seq_inv {A} (P : nat -> A -> Prop) (f : A -> nat -> A) n x :
  P 0 x ->
  (forall i y, i < n -> P i y -> P (S i) (f y i)) ->
  P n (foldl f x (seq 0 n)).
Proof.
  induction n as [|n IH]; intros H0 Hstep; [done|].
  rewrite seq_S, foldl_app. simpl. apply Hstep; [lia|].
  apply IH; [done|]. intros i y Hi. apply Hstep. lia.
Qed.

Lemma lev_row_lookup a b i n j :
  j < n -> lev_row a b i n !! j = Some (lev (take i a) (take j b)).
Proof.
  intros Hj. unfold lev_row. rewrite list_lookup_fmap, lookup_seq_lt by done.
  reflexivity.
Qed.

Lemma lev_row_total a b i n j :
  j < n -> lev_row a b i n !!! j = lev (take i a) (take j b).
Proof. intros Hj. by apply list_lookup_total_correct, lev_row_lookup. Qed.

Lemma lev_row_length a b i n : length (lev_row a b i n) = n.
Proof. unfold lev_row. by rewrite length_fmap, length_seq. Qed.

Lemma lev_row_S a b i n :
  lev_row a b i (S n) = lev_row a b i n ++ [lev (take i a) (take n b)].
Proof. unfold lev_row. by rewrite seq_S, fmap_app. Qed.

Lemma lev_row_0 b : lev_row [] b 0 (length b + 1) = seq 0 (length b + 1).
Proof.
  apply list_eq. intros j. destruct (decide (j < length b + 1)) as [Hj|Hj].
  - rewrite (lev_row_lookup [] b 0 (length b + 1) j Hj), lookup_seq_lt by done.
    rewrite take_nil, lev_nil_l, length_take. f_equal. lia.
  - rewrite !lookup_ge_None_2; [done| |]; rewrite ?lev_row_length, ?length_seq; lia.
Qed.

Lemma lev_inner_loop a b i n :
  i < length a -> n <= length b ->
  foldl (lev_inner_body a b i (lev_row a b i (length b + 1))) [i + 1] (seq 0 n)
  = lev_row a b (S i) (S n).
Proof.
  intros Hi Hn.
  apply (foldl_seq_inv (fun k row => k <= length b -> row = lev_row a b (S i) (S k)));
    [| |done].
  - intros _. unfold lev_row. simpl.
    rewrite take_0, lev_nil_r, length_take. f_equal. lia.
  - intros j row Hj IH Hjb. rewrite IH by lia. clear IH row.
    unfold lev_inner_body.
    rewrite !lev_row_total by lia.
    rewrite (lev_row_S a b (S i) (S j)). f_equal. f_equal.
    destruct (lookup_lt_is_Some_2 a i Hi) as [x Hx].
    destruct (lookup_lt_is_Some_2 b j) as [y Hy]; [lia|].
    rewrite (take_S_r a i x Hx), (take_S_r b j y Hy), lev_snoc.
    rewrite <- (take_S_r a i x Hx), <- (take_S_r b j y Hy).
    replace (j + 1) with (S j) by lia.
    unfold same_unit, cost, min3. rewrite Hx, Hy.
    repeat case_bool_decide; try congruence; lia.
Qed.

Lemma lev_copy_loop (cur prev : list nat) n :
  length cur = length prev -> n <= length prev ->
  foldl (lev_copy_body cur) prev (seq 0 n) = take n cur ++ drop n prev.
Proof.
  intros Hlen Hn.
  apply (foldl_seq_inv (fun k row => k <= length prev -> row = take k cur ++ drop k prev));
    [| |done].
  - intros _. by rewrite take_0, drop_0.
  - intros j row Hj IH Hjl. rewrite IH by lia. clear IH row.
    unfold lev_copy_body.
    destruct (lookup_lt_is_Some_2 cur j) as [c Hc]; [lia|].
    rewrite (list_lookup_total_correct _ _ _ Hc), (take_S_r cur j c Hc).
    rewrite insert_app_r_alt by (rewrite length_take; lia).
    rewrite length_take, Nat.min_l, Nat.sub_diag by lia.
    destruct (drop j prev) as [|p rest] eqn:Hd.
    + apply (f_equal length) in Hd. rewrite length_drop in Hd. simpl in Hd. lia.
    + simpl. rewrite <- app_assoc. simpl. do 2 f_equal.
      assert (drop (S j) prev = drop 1 (drop j prev)) as ->
        by (rewrite drop_drop; f_equal; lia).
      by rewrite Hd.
Qed.

Lemma lev_outer_loop a b n :
  n <= length a ->
  foldl (lev_outer_body a b) (seq 0 (length b + 1)) (seq 0 n)
  = lev_row a b n (length b + 1).
Proof.
  intros Hn.
  apply (foldl_seq_inv (fun k row => k <= length a -> row = lev_row a b k (length b + 1)));
    [| |done].
  - intros _. rewrite <- lev_row_0. unfold lev_row. by rewrite !take_0.
  - intros i row Hi IH Hia. rewrite IH by lia. clear IH row.
    unfold lev_outer_body. rewrite lev_inner_loop by lia.
    rewrite lev_copy_loop.
    + replace (length b + 1) with (S (length b)) by lia.
      rewrite firstn_all2 by (rewrite lev_row_length; lia).
      rewrite drop_ge by (rewrite lev_row_length; lia).
      by rewrite app_nil_r.
    + rewrite !lev_row_length. lia.
    + rewrite lev_row_length. lia.
Qed.

Lemma levenshteinDistance_lev a b : levenshteinDistance a b = lev a b.
Proof.
  unfold levenshteinDistance. repeat case_bool_decide.
  - subst. by rewrite lev_refl.
  - destruct a; [|done]. by rewrite lev_nil_l.
  - destruct b; [|done]. by rewrite lev_nil_r.
  - cbv zeta. rewrite lev_outer_loop by done.
    rewrite lev_row_total by lia. by rewrite !firstn_all.
Qed.

End lev_dp.



(** C1. [levenshteinDistance] is the classic edit distance: for all strings
    [a] and [b] it equals the reference distance [Lev.lev a b], in which an
    insertion, a deletion and a substitution cost 1 each. In particular the
    distance from a string to itself is 0, the distance is symmetric, the
    distance between the empty string and [s] is the length of [s], and
    [levenshteinDistance("", "abc")] is 3. *)
Theorem levenshteinDistance_classic :
  (forall a b, levenshteinDistance a b = Lev.lev a b) /\
  (forall a, levenshteinDistance a a = 0) /\
  (forall a b, levenshteinDistance a b = levenshteinDistance b a) /\
  (forall s, levenshteinDistance [] s = length s
             /\ levenshteinDistance s [] = length s) /\
  levenshteinDistance (js "") (js "abc") = 3.
Proof.
  split; [apply levenshteinDistance_lev|].
  split; [intros a; rewrite levenshteinDistance_lev; apply lev_refl|].
  split; [intros a b; rewrite !levenshteinDistance_lev; apply lev_sym|].
  split; [|reflexivity].
  intros s. rewrite !levenshteinDistance_lev, lev_nil_l, lev_nil_r. done.
Qed.

(** ** The stateful functions and what they compute *)

Section server_facts.
Context {P : Platform} {W : World}.

Lemma bind_unfold {A B} (m : Server A) (k : A -> Server B) st :
  (m ≫= k) st
  = match m st with
    | (st', Ok a) => k a st'
    | (st', Throw e) => (st', Throw e)
    end.
Proof. reflexivity. Qed.

Lemma ensureReportDocsIndex_built st idx :
  reportDocsIndex st = Some idx -> ensureReportDocsIndex st = (st, Ok tt).
Proof.
  intros H. unfold ensureReportDocsIndex. rewrite bind_unfold. simpl.
  by rewrite H.
Qed.

Lemma ensureReportDocsIndex_fresh st :
  reportDocsIndex st = None ->
  ensureReportDocsIndex st
  = ({| reportsCache := reportsCache st;
        reportDocsIndex := Some directory_index;
        sourceReads := sourceReads st;
        directoryReads := S (directoryReads st) |}, Ok tt).
Proof.
  intros H. unfold ensureReportDocsIndex. rewrite bind_unfold. simpl.
  rewrite H. unfold try_catch, directory_index. rewrite bind_unfold. simpl.
  destruct readdir as [entries|enoent]; simpl; [|done].
  rewrite bind_unfold. unfold lift.
  destruct (foldM index_entry [] entries); done.
Qed.

(** After [ensureReportDocsIndex] the index is [index_of st], and nothing
    is thrown. *)
Lemma ensureReportDocsIndex_spec st :
  exists st',
    ensureReportDocsIndex st = (st', Ok tt)
    /\ reportDocsIndex st' = Some (index_of st)
    /\ reportsCache st' = reportsCache st
    /\ sourceReads st' = sourceReads st.
Proof.
  unfold index_of. destruct (reportDocsIndex st) as [idx|] eqn:H.
  - exists st. by rewrite (ensureReportDocsIndex_built st idx).
  - eexists. rewrite ensureReportDocsIndex_fresh by done. done.
Qed.

Lemma resolveExplanationPath_built st idx report :
  reportDocsIndex st = Some idx ->
  resolveExplanationPath report st = (st, resolve_with idx report).
Proof.
  intros H. unfold resolveExplanationPath, resolve_with.
  rewrite bind_unfold, (ensureReportDocsIndex_built st idx H).
  rewrite bind_unfold. unfold lift at 1.
  destruct (source_slug _) as [slug|e]; [|done]. simpl.
  rewrite bind_unfold. unfold lift at 1.
  destruct (buildReportDocCandidates _ _) as [candidates|e]; [|done].
  rewrite bind_unfold. simpl. unfold lift. by rewrite H.
Qed.

Lemma enrich_built st idx item index :
  reportDocsIndex st = Some idx ->
  enrich item index st = (st, enrich_with idx item index).
Proof.
  intros H. unfold enrich, enrich_with, enriched_slug.
  rewrite bind_unfold. unfold lift at 1.
  destruct (ToString _) as [text|e]; [|done]. simpl.
  rewrite bind_unfold, (resolveExplanationPath_built st idx _ H).
  by destruct (resolve_with idx _).
Qed.

Lemma mapM_enrich_built st idx (l : list (nat * JsonItem)) :
  reportDocsIndex st = Some idx ->
  mapM (fun '(index, item) => enrich item index) l st
  = (st, mapM (fun '(index, item) => enrich_with idx item index) l).
Proof.
  intros H. induction l as [|[index item] l IH]; [done|].
  cbn [mapM]. rewrite bind_unfold, (enrich_built st idx item index H).
  destruct (enrich_with idx item index) as [o|e]; [|done].
  rewrite bind_unfold, IH.
  by destruct (mapM (fun '(index, item) => enrich_with idx item index) l).
Qed.


Lemma ensureReportsLoaded_loaded st :
  reportsCache st <> [] -> ensureReportsLoaded st = (st, Ok tt).
Proof.
  intros H. unfold ensureReportsLoaded. rewrite bind_unfold. simpl.
  destruct (reportsCache st); done.
Qed.

(** A call over an empty cache reads the source once and leaves the cache
    [loaded_cache] computes; it throws nothing. *)
Lemma ensureReportsLoaded_empty st :
  reportsCache st = [] ->
  exists st',
    ensureReportsLoaded st = (st', Ok tt)
    /\ reportsCache st' = loaded_cache (index_of st)
    /\ sourceReads st' = S (sourceReads st)
    /\ index_of st' = index_of st
    /\ (readReportsJson = Failed true \/ readReportsJson = Failed false
        \/ reportDocsIndex st' = Some (index_of st)).
Proof.
  intros H. unfold ensureReportsLoaded. rewrite bind_unfold. simpl.
  rewrite H. simpl. unfold try_catch, load_reports, loaded_cache, reports_array.
  rewrite bind_unfold. simpl.
  destruct readReportsJson as [parsed|enoent]; simpl.
  - rewrite bind_unfold.
    set (st0 := {| reportsCache := reportsCache st;
                   reportDocsIndex := reportDocsIndex st;
                   sourceReads := S (sourceReads st);
                   directoryReads := directoryReads st |}).
    destruct (ensureReportDocsIndex_spec st0) as (st1 & -> & Hidx & Hc & Hr).
    change (index_of st0) with (index_of st) in Hidx.
    rewrite bind_unfold, (mapM_enrich_built st1 (index_of st) _ Hidx).
    destruct (mapM _ _) as [cache|e]; simpl.
    + eexists. split; [done|]. simpl. unfold index_of at 1. simpl.
      rewrite Hidx, Hr. simpl. auto 10.
    + eexists. split; [done|]. simpl. unfold index_of at 1. simpl.
      rewrite Hidx, Hr. simpl. auto 10.
  - eexists. split; [done|]. simpl. destruct enoent; auto 10.
Qed.

End server_facts.

(** ** Idempotence of the report cache *)

Section cache_facts.
Context {P : Platform} {W : World}.

(** C7, as amended. Two calls of [ensureReportsLoaded] in succession leave
    the cache as one call does, and neither throws. When the first call
    leaves the cache non-empty the second changes nothing, and so does not
    read the records source; when the first call leaves the cache empty
    the second reads the source once more. *)
Theorem ensureReportsLoaded_twice (st : State) :
  let r1 := ensureReportsLoaded st in
  let r2 := ensureReportsLoaded r1.1 in
  r1.2 = Ok tt /\ r2.2 = Ok tt
  /\ reportsCache r2.1 = reportsCache r1.1
  /\ (reportsCache r1.1 <> [] -> r2.1 = r1.1)
  /\ (reportsCache r1.1 = [] -> sourceReads r2.1 = S (sourceReads r1.1)).
Proof.
  intros r1 r2. subst r1 r2.
  assert (forall s, reportsCache s <> [] ->
            let r := ensureReportsLoaded s in
            r.2 = Ok tt /\ r.1 = s) as Hfull.
  { intros s Hs. by rewrite (ensureReportsLoaded_loaded s Hs). }
  assert (forall s, reportsCache s = [] ->
            let r := ensureReportsLoaded s in
            r.2 = Ok tt
            /\ reportsCache r.1 = loaded_cache (index_of s)
            /\ sourceReads r.1 = S (sourceReads s)
            /\ index_of r.1 = index_of s) as Hempty.
  { intros s Hs.
    destruct (ensureReportsLoaded_empty s Hs) as (s' & -> & ? & ? & ? & _).
    done. }
  destruct (decide (reportsCache st = [])) as [Hst|Hst].
  - destruct (Hempty st Hst) as (Hok & Hc & Hr & Hi).
    set (st1 := (ensureReportsLoaded st).1) in *.
    split; [done|].
    destruct (decide (reportsCache st1 = [])) as [H1|H1].
    + destruct (Hempty st1 H1) as (Hok2 & Hc2 & Hr2 & _).
      rewrite Hi, <- Hc in Hc2. done.
    + destruct (Hfull st1 H1) as (Hok2 & ->). done.
  - destruct (Hfull st Hst) as (Hok & Hs). rewrite Hs.
    destruct (Hfull st Hst) as (Hok2 & Hs2). rewrite Hs2. done.
Qed.

End cache_facts.

(** The amended statement at the sample world: the first call fills the
    cache, so the second reads nothing. *)
Lemma ensureReportsLoaded_twice_witness :
  let r1 := @ensureReportsLoaded sample_platform sample_world initial_state in
  let r2 := @ensureReportsLoaded sample_platform sample_world r1.1 in
  reportsCache r1.1 <> [] /\ r2.1 = r1.1
  /\ sourceReads r1.1 = 1 /\ sourceReads r2.1 = 1.
Proof.
  intros r1 r2.
  assert (length (reportsCache r1.1) = 3) as Hlen by (vm_compute; reflexivity).
  assert (reportsCache r1.1 <> []) as Hne.
  { intros Hnil. rewrite Hnil in Hlen. discriminate Hlen. }
  pose proof (@ensureReportsLoaded_twice sample_platform sample_world
                initial_state) as (_ & _ & _ & Hsame & _).
  specialize (Hsame Hne). fold r1 in Hsame. fold r2 in Hsame.
  split; [exact Hne|]. split; [exact Hsame|].
  rewrite Hsame. split; vm_compute; reflexivity.
Defined.

(** C7, as stated, fails when the records source holds no record: the cache
    is empty after the first call, so the second reads the source again. *)
Lemma ensureReportsLoaded_rereads_empty_source :
  let r1 := @ensureReportsLoaded sample_platform empty_world initial_state in
  let r2 := @ensureReportsLoaded sample_platform empty_world r1.1 in
  reportsCache r1.1 = [] /\ reportsCache r2.1 = []
  /\ sourceReads r1.1 = 1 /\ sourceReads r2.1 = 2
  /\ sourceReads r2.1 <> sourceReads r1.1.
Proof. vm_compute. repeat split; discriminate. Qed.

(** ** What the endpoints expose *)

Section sanitize_facts.
Context {P : Platform} {W : World}.

Lemma sanitizeReport_Some (r : option Obj) (x : Obj) :
  sanitizeReport r = Some x -> x !! js "explanationPath" = None.
Proof.
  destruct r as [r|]; simpl; [|done]. intros [= <-]. apply lookup_delete_eq.
Qed.

Lemma search_handler_hides_path q st :
  match (search_handler q st).2 with
  | Ok (SearchMatch (Some o) _) => o !! js "explanationPath" = None
  | Ok (Explanation _ _) | Ok NoExplanation | Throw _ => False
  | _ => True
  end.
Proof.
  unfold search_handler, try_catch. rewrite bind_unfold. unfold lift at 1.
  destruct (js_trim _) as [query|e]; simpl; [|done].
  destruct (nonempty query); simpl; [|done].
  rewrite bind_unfold.
  destruct (ensureReportsLoaded st) as [st1 [[]|e]]; simpl; [|done].
  rewrite bind_unfold. simpl. rewrite bind_unfold. unfold lift.
  destruct (findBestReportMatch _ _) as [[m|]|e]; simpl; [|done|done].
  destruct (sanitizeReport (report m)) as [o|] eqn:Ho; [|done].
  by apply (sanitizeReport_Some (report m)).
Qed.

Lemma explain_handler_hides_path slug st :
  match (explain_handler slug st).2 with
  | Ok (Explanation (Some o) _) => o !! js "explanationPath" = None
  | Ok (SearchMatch _ _) | Ok NoMatch | Throw _ => False
  | _ => True
  end.
Proof.
  unfold explain_handler, try_catch. rewrite bind_unfold.
  destruct (ensureReportsLoaded st) as [st1 [[]|e]]; simpl; [|done].
  rewrite bind_unfold. unfold lift at 1.
  destruct (normalizeText _) as [normalizedSlug|e]; simpl; [|done].
  rewrite bind_unfold. simpl. rewrite bind_unfold. unfold lift at 1.
  destruct (find_by_slug _ _) as [[r|]|e]; simpl; [|done|done].
  rewrite bind_unfold.
  destruct (truthy (get r "explanationPath")); simpl.
  - destruct (truthy (get r "explanationPath")); simpl; [|done].
    rewrite bind_unfold. unfold lift, read_markdown.
    destruct (readFile _); simpl; [|done]. apply lookup_delete_eq.
  - destruct (resolveExplanationPath r st1) as [st2 [v|e]]; simpl; [|done].
    destruct (truthy v); simpl; [|done].
    rewrite bind_unfold. unfold lift, read_markdown.
    destruct (readFile _); simpl; [|done]. apply lookup_delete_eq.
Qed.

(** C9. For a report record, [sanitizeReport] returns the record without its
    [explanationPath] field and with every other field as it was; for [null]
    or [undefined] it returns [null]. Hence no report object that the search
    endpoint or the explain endpoint sends has an [explanationPath] field. *)
Theorem sanitizeReport_removes_explanationPath :
  (forall r : Obj,
     exists r' : Obj,
       sanitizeReport (Some r) = Some r'
       /\ r' !! js "explanationPath" = None
       /\ forall k, k <> js "explanationPath" -> r' !! k = r !! k)
  /\ sanitizeReport None = None
  /\ (forall q st,
        match (search_handler q st).2 with
        | Ok (SearchMatch (Some o) _) => o !! js "explanationPath" = None
        | Ok (Explanation _ _) | Ok NoExplanation | Throw _ => False
        | _ => True
        end)
  /\ (forall slug st,
        match (explain_handler slug st).2 with
        | Ok (Explanation (Some o) _) => o !! js "explanationPath" = None
        | Ok (SearchMatch _ _) | Ok NoMatch | Throw _ => False
        | _ => True
        end).
Proof.
  split.
  { intros r. exists (delete (js "explanationPath") r).
    split; [done|]. split; [apply lookup_delete_eq|].
    intros k Hk. by apply lookup_delete_ne. }
  split; [done|].
  split; [apply search_handler_hides_path|apply explain_handler_hides_path].
Qed.

End sanitize_facts.

(** C9 at the sample world: the cached record of [foo-bar] holds the path of
    its document; what [sanitizeReport] makes of it does not, and has the
    title of the cached record; and so has the record that the explain
    endpoint sends. *)
Lemma sanitizeReport_removes_explanationPath_witness :
  let st := (@ensureReportsLoaded sample_platform sample_world initial_state).1 in
  let r : Obj := default ∅ (reportsCache st !! 0) in
  r !! js "explanationPath" = Some (VString (js "/srv/data/reports/foo-bar.md"))
  /\ (exists r' : Obj,
        sanitizeReport (Some r) = Some r'
        /\ r' !! js "explanationPath" = None
        /\ r' !! js "title"
           = Some (VString (js "Reentrancy Attack in TokenVault")))
  /\ match (@explain_handler sample_platform sample_world (js "foo-bar") st).2 with
     | Ok (Explanation (Some o) markdown) =>
         o !! js "explanationPath" = None
         /\ o !! js "title" = Some (VString (js "Reentrancy Attack in TokenVault"))
         /\ markdown = js "# Foo Bar"
     | _ => False
     end.
Proof.
  intros st r.
  destruct (@sanitizeReport_removes_explanationPath sample_platform sample_world)
    as (Hs & _ & _ & _).
  destruct (Hs r) as (r' & Hr' & Hnone & Hkeep).
  split; [vm_compute; reflexivity|].
  split.
  - exists r'. split; [exact Hr'|]. split; [exact Hnone|].
    rewrite (Hkeep (js "title")).
    + vm_compute. reflexivity.
    + intros Heq. vm_compute in Heq. discriminate Heq.
  - vm_compute. repeat split; reflexivity.
Defined.

(** ** Slugs of the enriched records *)

Lemma truthy_VString s : truthy (VString s) = nonempty s.
Proof. reflexivity. Qed.

Lemma nonempty_true s : nonempty s = true <-> s <> [].
Proof. unfold nonempty. case_bool_decide; simpl; split; congruence. Qed.

Section slug_facts.
Context {P : Platform}.

Lemma uint_units_alnum d : forallb lower_alnum (uint_units d) = true.
Proof. induction d; simpl; auto. Qed.

Lemma uint_units_ascii d : forallb is_ascii (uint_units d) = true.
Proof. induction d; simpl; auto. Qed.

Lemma uint_units_lower d : map ascii_lower (uint_units d) = uint_units d.
Proof. induction d; simpl; [done|..]; by rewrite IHd. Qed.

Lemma to_uint_nonnil n : Nat.to_uint n <> Decimal.Nil.
Proof.
  rewrite <- (DecimalNat.Unsigned.of_to n), DecimalNat.Unsigned.to_of.
  apply DecimalFacts.unorm_nonnil.
Qed.

Lemma decimal_nonempty n : decimal n <> [].
Proof.
  unfold decimal. pose proof (to_uint_nonnil n) as H.
  destruct (Nat.to_uint n); done.
Qed.

Lemma hyphenate_alnum b s :
  forallb lower_alnum s = true -> hyphenate b s = s.
Proof.
  revert b. induction s as [|c s IH]; intros b; simpl; [done|].
  intros [Hc Hs]%andb_prop. rewrite Hc. by rewrite IH.
Qed.

Lemma drop_hyphens_alnum c s :
  lower_alnum c = true -> drop_hyphens (c :: s) = c :: s.
Proof.
  intros Hc. simpl. case_bool_decide as Heq; [|done].
  subst c. by vm_compute in Hc.
Qed.

Lemma placeholder_nonempty index : placeholder index <> [].
Proof. done. Qed.

(** The placeholder is a slug already. *)
Lemma createSlug_placeholder index :
  createSlug (placeholder index) = placeholder index.
Proof.
  unfold createSlug, toLowerCase, normalizeNFKD, placeholder.
  assert (forallb is_ascii (js "report-" ++ decimal (index + 1)) = true) as Ha.
  { rewrite forallb_app. unfold decimal. by rewrite uint_units_ascii. }
  assert (map ascii_lower (js "report-" ++ decimal (index + 1))
          = js "report-" ++ decimal (index + 1)) as Hl.
  { rewrite map_app. unfold decimal. by rewrite uint_units_lower. }
  rewrite Ha, Hl, Ha.
  assert (hyphenate false (js "report-" ++ decimal (index + 1))
          = js "report-" ++ decimal (index + 1)) as ->.
  { change (js "report-") with (js "report" ++ [hyphen]).
    rewrite <- app_assoc. simpl.
    rewrite hyphenate_alnum; [done|]. apply uint_units_alnum. }
  unfold trim_hyphens.
  change (js "report-" ++ decimal (index + 1))
    with (114%N :: (js "eport-" ++ decimal (index + 1))).
  rewrite drop_hyphens_alnum by done.
  change (114%N :: (js "eport-" ++ decimal (index + 1)))
    with (js "report-" ++ decimal (index + 1)).
  rewrite rev_app_distr.
  pose proof (decimal_nonempty (index + 1)) as Hne.
  pose proof (uint_units_alnum (Nat.to_uint (index + 1))) as Hal.
  fold (decimal (index + 1)) in Hal.
  destruct (rev (decimal (index + 1))) as [|c r] eqn:Hrev.
  { apply (f_equal (@rev N)) in Hrev. rewrite rev_involutive in Hrev. done. }
  assert (lower_alnum c = true) as Hc.
  { rewrite forallb_forall in Hal. apply Hal, in_rev. rewrite Hrev. by left. }
  rewrite <- app_comm_cons, drop_hyphens_alnum by done.
  rewrite app_comm_cons, <- Hrev, <- rev_app_distr. apply rev_involutive.
Qed.

Lemma js_or_truthy v w : truthy v = true -> js_or v w = v.
Proof. unfold js_or. by intros ->. Qed.

Lemma js_or_falsy v w : truthy v = false -> js_or v w = w.
Proof. unfold js_or. by intros ->. Qed.

Lemma uint_units_digits d : forallb is_digit (uint_units d) = true.
Proof. induction d; simpl; [done|..]; exact IHd. Qed.

Lemma digits_value_acc d : forall acc,
  foldl (fun acc c => acc * 10 + (c - 48))%N (N.of_nat acc) (uint_units d)
  = N.of_nat (Nat.of_uint_acc d acc).
Proof.
  induction d; intros acc; cbn [uint_units foldl Nat.of_uint_acc]; [done|..];
    rewrite <- IHd; f_equal; rewrite Nat.tail_mul_spec; lia.
Qed.

Lemma digits_value_decimal n : digits_value (decimal n) = N.of_nat n.
Proof.
  unfold digits_value, decimal. change 0%N with (N.of_nat 0).
  rewrite digits_value_acc. f_equal. apply DecimalNat.Unsigned.of_to.
Qed.

Lemma to_uint_unorm n : Decimal.unorm (Nat.to_uint n) = Nat.to_uint n.
Proof.
  rewrite <- DecimalNat.Unsigned.to_of. f_equal. apply DecimalNat.Unsigned.of_to.
Qed.

Lemma decimal_head n : 0 < n -> head (decimal n) <> Some 48%N.
Proof.
  intros Hn. unfold decimal. pose proof (to_uint_unorm n) as Hu.
  destruct (Nat.to_uint n) as [|d|d|d|d|d|d|d|d|d|d] eqn:E; try done.
  exfalso. rewrite DecimalFacts.unorm_D0 in Hu.
  assert (d = Decimal.Nil \/ d <> Decimal.Nil) as [->|Hd]
    by (destruct d; [by left|by right..]).
  - pose proof (DecimalNat.Unsigned.of_to n) as Hn'. rewrite E in Hn'.
    cbn in Hn'. lia.
  - pose proof (DecimalFacts.nb_digits_unorm d Hd) as Hle.
    rewrite Hu in Hle. simpl in Hle. lia.
Qed.

(** The placeholder of the code is the one the sentence describes. *)
Lemma placeholder_is_placeholder index : is_placeholder index (placeholder index).
Proof.
  exists (decimal (index + 1)). unfold placeholder. split; [done|].
  split; [apply decimal_nonempty|]. split; [apply uint_units_digits|].
  split; [apply decimal_head; lia|apply digits_value_decimal].
Qed.

Lemma slug_source_find (base : Obj) :
  match List.find truthy [get base "slug"; get base "title";
                          get base "github_repo"; get base "url"] with
  | Some source => slug_source base = source /\ truthy source = true
  | None => truthy (slug_source base) = false
  end.
Proof.
  unfold slug_source. simpl List.find.
  destruct (truthy (get base "slug")) eqn:H1.
  { by rewrite !(js_or_truthy (get base "slug")) by done. }
  rewrite (js_or_falsy (get base "slug")) by done.
  destruct (truthy (get base "title")) eqn:H2.
  { by rewrite !(js_or_truthy (get base "title")) by done. }
  rewrite (js_or_falsy (get base "title")) by done.
  destruct (truthy (get base "github_repo")) eqn:H3.
  { by rewrite !(js_or_truthy (get base "github_repo")) by done. }
  rewrite (js_or_falsy (get base "github_repo")) by done.
  destruct (truthy (get base "url")) eqn:H4; [done|done].
Qed.

Lemma enriched_slug_derived item index slug :
  enriched_slug item index = Ok slug ->
  slug <> [] /\ truthy_slug item index slug.
Proof.
  unfold enriched_slug, truthy_slug, derived_slug. cbv zeta.
  set (base := match item with ItemObject o => o | ItemOther => ∅ end).
  pose proof (slug_source_find base) as Hfind.
  destruct (List.find _ _) as [source|].
  - destruct Hfind as [-> Ht]. rewrite (js_or_truthy source _ Ht).
    destruct (ToString source) as [text|e]; [|done]. simpl.
    intros [= <-]. destruct (nonempty (createSlug text)) eqn:Hne.
    + split; [by apply nonempty_true|]. exists text. split; [done|].
      by rewrite Hne.
    + split; [apply placeholder_nonempty|]. exists text. split; [done|].
      rewrite Hne. apply placeholder_is_placeholder.
  - rewrite (js_or_falsy _ _ Hfind). simpl.
    rewrite createSlug_placeholder.
    assert (nonempty (placeholder index) = true) as ->
      by (apply nonempty_true, placeholder_nonempty).
    intros [= <-]. split; [apply placeholder_nonempty|].
    apply placeholder_is_placeholder.
Qed.

End slug_facts.

(** ** Records of text never throw *)

Section total_facts.
Context {P : Platform}.

Lemma mapM_Ok_lookup {A B} (f : A -> Result B) l k :
  mapM f l = Ok k ->
  forall i y, k !! i = Some y -> exists x, l !! i = Some x /\ f x = Ok y.
Proof.
  revert k. induction l as [|x l IH]; intros k; simpl.
  - intros [= <-] i y Hi. by rewrite lookup_nil in Hi.
  - destruct (f x) as [y0|e] eqn:Hfx; simpl; [|done].
    destruct (mapM f l) as [k0|e] eqn:Hl; simpl; [|done].
    intros [= <-] [|i] y Hi; simpl in *.
    + injection Hi as <-. eauto.
    + by apply (IH k0).
Qed.

Lemma mapM_Ok_length {A B} (f : A -> Result B) l k :
  mapM f l = Ok k -> length k = length l.
Proof.
  revert k. induction l as [|x l IH]; intros k; simpl.
  - by intros [= <-].
  - destruct (f x) as [y0|e]; simpl; [|done].
    destruct (mapM f l) as [k0|e]; simpl; [|done].
    intros [= <-]. simpl. f_equal. by apply IH.
Qed.

Lemma mapM_Ok_total {A B} (f : A -> Result B) l :
  Forall (fun x => exists y, f x = Ok y) l -> exists k, mapM f l = Ok k.
Proof.
  induction 1 as [|x l [y Hy] _ [k Hk]]; simpl; [by eexists|].
  rewrite Hy. simpl. rewrite Hk. simpl. by eexists.
Qed.

Lemma normalizeText_string s : exists n, normalizeText (VString s) = Ok n.
Proof. unfold normalizeText. destruct (negb _); by eexists. Qed.

Lemma normalizeText_is_string v :
  is_string v = true -> exists n, normalizeText v = Ok n.
Proof. destruct v; try done. intros _. apply normalizeText_string. Qed.

Lemma scan_candidates_total idx best candidates :
  Forall (fun v => is_string v = true) candidates ->
  exists r, scan_candidates idx best candidates = Ok r.
Proof.
  intros H. revert best. induction H as [|v l Hv _ IH]; intros best; simpl.
  - by eexists.
  - destruct (normalizeText_is_string v Hv) as [n ->]. simpl.
    destruct (nonempty n && truthy (index_get idx n)); [by eexists|].
    destruct (negb (nonempty n)); apply IH.
Qed.

Lemma findDocPathForCandidates_total idx candidates :
  Forall (fun v => is_string v = true) candidates ->
  exists v, findDocPathForCandidates (Some idx) candidates = Ok v.
Proof.
  intros H. unfold findDocPathForCandidates.
  destruct (scan_candidates_total idx (VNull, 0%float) candidates H) as [r ->].
  simpl. destruct r; by eexists.
Qed.

Lemma set_add_strings v s :
  is_string v = true ->
  Forall (fun v => is_string v = true) s ->
  Forall (fun v => is_string v = true) (set_add v s).
Proof.
  intros Hv Hs. unfold set_add. case_bool_decide; [done|].
  apply Forall_app. split; [done|]. by constructor.
Qed.

Lemma filter_strings (f : JsValue -> bool) s :
  Forall (fun v => is_string v = true) s ->
  Forall (fun v => is_string v = true) (List.filter f s).
Proof.
  rewrite !Forall_forall. intros H v Hv%list_elem_of_In.
  apply filter_In in Hv as [Hv _]. by apply H, list_elem_of_In.
Qed.

Lemma textual_truthy v : textual v = true -> truthy v = true -> is_string v = true.
Proof. unfold textual. intros H Ht. rewrite Ht in H. by destruct (is_string v). Qed.

(** For a record of text the candidates are all strings. *)
Lemma buildReportDocCandidates_textual report slug :
  textual_record report = true ->
  exists candidates,
    buildReportDocCandidates report slug = Ok candidates
    /\ Forall (fun v => is_string v = true) candidates.
Proof.
  unfold textual_record. intros [[Ht Hg]%andb_prop Hu]%andb_prop.
  unfold buildReportDocCandidates. cbv zeta.
  set (c0 := if nonempty slug then set_add (VString slug) [] else []).
  assert (Forall (fun v => is_string v = true) c0) as H0.
  { subst c0. destruct (nonempty slug); [|done]. by apply set_add_strings. }
  set (c1 := if truthy (get report "title")
             then set_add (get report "title") c0 else c0).
  assert (Forall (fun v => is_string v = true) c1) as H1.
  { subst c1. destruct (truthy (get report "title")) eqn:E; [|done].
    apply set_add_strings; [|done]. by apply textual_truthy. }
  assert (exists c2,
            (if truthy (get report "github_repo") then
               add_repo_segment (get report "github_repo")
                 (set_add (get report "github_repo") c1)
             else Ok c1) = Ok c2
            /\ Forall (fun v => is_string v = true) c2) as (c2 & -> & H2).
  { destruct (truthy (get report "github_repo")) eqn:E; [|by eexists].
    pose proof (textual_truthy _ Hg E) as Hs.
    destruct (get report "github_repo") as [| | |r| |]; try done.
    simpl. destruct (0 <? _)%nat; eexists; (split; [done|]);
      repeat apply set_add_strings; done. }
  simpl. eexists. split; [done|]. apply filter_strings.
  destruct (truthy (get report "url")) eqn:E; [|done].
  pose proof (textual_truthy _ Hu E) as Hs.
  unfold add_url_variants.
  destruct (pathname_of _) as [pathname|]; [|by apply set_add_strings].
  destruct (nonempty pathname); [|by apply set_add_strings].
  destruct (nonempty (basename pathname)); repeat apply set_add_strings; done.
Qed.

Lemma textual_printable v : textual v = true -> printable v = true.
Proof. by destruct v. Qed.

Lemma falsy_printable v : truthy v = false -> printable v = true.
Proof. by destruct v. Qed.

Lemma slug_source_printable report :
  textual_record report = true ->
  printable (get report "slug") = true ->
  printable (slug_source report) = true.
Proof.
  unfold textual_record. intros [[Ht Hg]%andb_prop Hu]%andb_prop Hs.
  pose proof (slug_source_find report) as Hfind.
  destruct (List.find _ _) as [source|] eqn:Hf; [|by apply falsy_printable].
  destruct Hfind as [-> _]. apply find_some in Hf as [Hin _].
  simpl in Hin.
  destruct Hin as [<-|[<-|[<-|[<-|[]]]]]; auto using textual_printable.
Qed.

Lemma source_slug_printable v :
  printable v = true -> exists slug, source_slug v = Ok slug.
Proof.
  intros Hv. unfold source_slug. destruct (truthy v); [|by eexists].
  destruct v as [| |[]|s|t text|]; try done; by eexists.
Qed.

Lemma resolve_with_textual idx report :
  textual_record report = true ->
  printable (get report "slug") = true ->
  exists v, resolve_with idx report = Ok v.
Proof.
  intros H Hs. unfold resolve_with.
  destruct (source_slug_printable _ (slug_source_printable report H Hs))
    as [slug ->].
  simpl.
  destruct (buildReportDocCandidates_textual report slug H) as (c & -> & Hc).
  simpl. by apply findDocPathForCandidates_total.
Qed.

Lemma get_insert_ne (o : Obj) (k k' : string) v :
  js k <> js k' -> get (<[js k := v]> o) k' = get o k'.
Proof. intros H. unfold get. by rewrite lookup_insert_ne. Qed.

Lemma get_insert_eq (o : Obj) (k : string) v : get (<[js k := v]> o) k = v.
Proof. unfold get. by rewrite lookup_insert_eq. Qed.

Lemma textual_record_insert_slug o v :
  textual_record (<[js "slug" := v]> o) = textual_record o.
Proof. unfold textual_record. by rewrite !get_insert_ne. Qed.

Lemma enriched_slug_loadable item index :
  loadable item = true -> exists slug, enriched_slug item index = Ok slug.
Proof.
  intros H. unfold enriched_slug. cbv zeta.
  set (base := match item with ItemObject o => o | ItemOther => ∅ end).
  assert (printable (js_or (slug_source base) (VString (placeholder index)))
          = true) as Hp.
  { unfold js_or. destruct (truthy (slug_source base)); [|done].
    destruct item as [o|]; [|done]. simpl in H.
    apply andb_prop in H as [Ht Hs]. by apply slug_source_printable. }
  destruct (js_or _ _) as [| |[]|s|t text|]; try done; by eexists.
Qed.

Lemma enrich_with_textual idx item index :
  loadable item = true -> exists r, enrich_with idx item index = Ok r.
Proof.
  intros H. unfold enrich_with.
  destruct (enriched_slug_loadable item index H) as [slug ->]. simpl.
  set (base := match item with ItemObject o => o | ItemOther => ∅ end).
  assert (textual_record base = true) as Hb.
  { destruct item as [o|]; [|done]. simpl in H. by apply andb_prop in H as [? _]. }
  destruct (resolve_with_textual idx (<[js "slug" := VString slug]> base))
    as [v ->]; [by rewrite textual_record_insert_slug|by rewrite get_insert_eq|].
  simpl. by eexists.
Qed.

Lemma enrich_with_slug idx item index r :
  enrich_with idx item index = Ok r ->
  exists slug,
    enriched_slug item index = Ok slug /\ get r "slug" = VString slug.
Proof.
  unfold enrich_with. destruct (enriched_slug item index) as [slug|e]; [|done].
  simpl. destruct (resolve_with _ _) as [v|e]; simpl; [|done].
  intros [= <-]. exists slug. split; [done|].
  rewrite !get_insert_ne by done. apply get_insert_eq.
Qed.

End total_facts.

Section slug_claim.
Context {P : Platform} {W : World}.

(** C6. Every record [ensureReportsLoaded] stores has a non-empty slug. It
    is the slugified first truthy one of the raw record's [slug], [title],
    [github_repo] and [url]; a string of white space only is truthy and is
    taken. When none is truthy, or when the slugified result is empty, it
    is the placeholder [report-<1-based index>]: the units [report-]
    followed by the decimal digits of the position plus one. Every item
    whose title, repository and URL are strings or falsy and whose slug has
    a conversion to a string gives a record. Slugs are not made unique: the
    slugs of the sample world are [foo-bar], [foo-bar] and [report-3]. *)
Theorem enriched_slug_nonempty (st : State) (items : list JsonItem) :
  readReportsJson = Done (JsonArray items) ->
  reportsCache st = [] ->
  let cache := reportsCache (ensureReportsLoaded st).1 in
  (forall index r,
     cache !! index = Some r ->
     exists item slug,
       items !! index = Some item
       /\ get r "slug" = VString slug
       /\ slug <> []
       /\ truthy_slug item index slug)
  /\ (forallb loadable items = true -> length cache = length items)
  /\ (forall index, is_placeholder index (placeholder index))
  /\ (fun r => get r "slug")
       <$> reportsCache
             (@ensureReportsLoaded sample_platform sample_world initial_state).1
     = [VString (js "foo-bar"); VString (js "foo-bar"); VString (js "report-3")].
Proof.
  intros Hsrc Hc cache. subst cache.
  destruct (ensureReportsLoaded_empty st Hc) as (st' & -> & Hcache & _).
  simpl. rewrite Hcache. clear Hcache st'.
  unfold loaded_cache, reports_array. rewrite Hsrc.
  split; [|split; [|split]].
  - intros index r Hr.
    destruct (mapM _ _) as [cache|e] eqn:Hm; [|by rewrite lookup_nil in Hr].
    destruct (mapM_Ok_lookup _ _ _ Hm index r Hr) as ([index' item] & Hx & Hf).
    rewrite list_lookup_imap in Hx.
    destruct (items !! index) as [item'|] eqn:Hi; [|done].
    simpl in Hx. injection Hx as <- <-.
    destruct (enrich_with_slug _ _ _ _ Hf) as (slug & Hslug & Hget).
    destruct (enriched_slug_derived _ _ _ Hslug) as [Hne Hd].
    by exists item', slug.
  - intros Ht.
    destruct (mapM_Ok_total (fun '(index, item) => enrich_with (index_of st) item index)
                (imap pair items)) as [cache Hm].
    { apply Forall_forall. intros [index item] Hin.
      apply list_elem_of_lookup in Hin as [i Hi].
      rewrite list_lookup_imap in Hi.
      destruct (items !! i) as [item'|] eqn:Hi'; [|done].
      simpl in Hi. injection Hi as <- <-.
      apply enrich_with_textual.
      rewrite forallb_forall in Ht. apply Ht.
      apply list_elem_of_In, list_elem_of_lookup. eauto. }
    rewrite Hm. rewrite (mapM_Ok_length _ _ _ Hm). apply length_imap.
  - apply placeholder_is_placeholder.
  - vm_compute. reflexivity.
Qed.

End slug_claim.

(** C6 at the sample world: three raw records, three stored records, the
    third with the placeholder of its position. *)
Lemma enriched_slug_nonempty_witness :
  let cache :=
    reportsCache
      (@ensureReportsLoaded sample_platform sample_world initial_state).1 in
  length cache = 3
  /\ exists r slug,
       cache !! 2 = Some r
       /\ get r "slug" = VString slug
       /\ slug <> []
       /\ is_placeholder 2 slug.
Proof.
  intros cache.
  destruct (@enriched_slug_nonempty sample_platform sample_world initial_state
              [ItemObject (record [("slug", "foo-bar");
                                   ("title", "Reentrancy Attack in TokenVault")]);
               ItemObject (record [("title", "Foo Bar")]);
               ItemOther]%string eq_refl eq_refl)
    as (Hslug & Hlen & _).
  fold cache in Hslug, Hlen.
  assert (length cache = 3) as Hlen3 by (apply Hlen; vm_compute; reflexivity).
  split; [exact Hlen3|].
  clearbody cache.
  destruct (lookup_lt_is_Some_2 cache 2) as [r Hr]; [rewrite Hlen3; lia|].
  destruct (Hslug 2 r Hr) as (item & slug & Hitem & Hs & Hne & Hd).
  change (Some ItemOther = Some item) in Hitem. injection Hitem as <-.
  exists r, slug. split; [exact Hr|]. split; [exact Hs|]. split; [exact Hne|].
  exact Hd.
Defined.

(** The sentence of C6 as it is written does not hold of a record whose
    slug is three spaces and whose title is [Foo Bar]: the slug is present
    but blank, so that the sentence derives the slug from the title,
    [foo-bar]; the code takes the slug, which is truthy, slugifies it to
    the empty string and stores the placeholder [report-1]. *)
Lemma enriched_slug_takes_blank_slug :
  let item :=
    ItemObject (record [("slug", "   "); ("title", "Foo Bar")]%string) in
  (fun r => get r "slug")
    <$> reportsCache
          (@ensureReportsLoaded sample_platform blank_slug_world initial_state).1
  = [VString (js "report-1")]
  /\ blank (VString (js "   ")) = true
  /\ @createSlug sample_platform (js "   ") = []
  /\ @spec_slug sample_platform item 0 (js "foo-bar")
  /\ ~ @spec_slug sample_platform item 0 (js "report-1").
Proof.
  intros item.
  assert (List.find (fun v => negb (blank v))
            [get (record [("slug", "   "); ("title", "Foo Bar")]%string) "slug";
             get (record [("slug", "   "); ("title", "Foo Bar")]%string) "title";
             get (record [("slug", "   "); ("title", "Foo Bar")]%string)
               "github_repo";
             get (record [("slug", "   "); ("title", "Foo Bar")]%string) "url"]
          = Some (VString (js "Foo Bar"))) as Hfind by (vm_compute; reflexivity).
  split; [vm_compute; reflexivity|]. split; [vm_compute; reflexivity|].
  split; [vm_compute; reflexivity|].
  unfold spec_slug, derived_slug, item. cbv zeta. rewrite Hfind. split.
  - exists (js "Foo Bar"). split; [reflexivity|]. vm_compute. reflexivity.
  - intros (text & [= <-] & H). vm_compute in H. discriminate H.
Qed.

(** ** The query "reentrancy" *)

Section reentrancy.
Context {P : Platform}.

Lemma normalizeText_reentrancy :
  normalizeText (VString (js "reentrancy")) = Ok (js "reentrancy").
Proof. vm_compute. reflexivity. Qed.

Lemma normalizeText_title :
  normalizeText (VString (js "Reentrancy Attack in TokenVault"))
  = Ok (js "reentrancyattackintokenvault").
Proof. vm_compute. reflexivity. Qed.

(** C4, as amended. The query "reentrancy" and the title "Reentrancy Attack
    in TokenVault" fall under the substring rule, which scores the pair
    [len("reentrancy") / len(normalised title)], that is 10/28. This is
    below the cutoff 0.45: a cache that holds only a report with this title,
    and neither [github_repo] nor [url], yields none, and no cache yields a
    match with this score. *)
Theorem findBestReportMatch_reentrancy :
  let title := js "Reentrancy Attack in TokenVault" in
  let ratio := (of_nat 10 / of_nat 28)%float in
  (forall r : Obj,
     get r "title" = VString title ->
     truthy (get r "github_repo") = false ->
     truthy (get r "url") = false ->
     score_report (js "reentrancy") (None, neg_infinity) r = Ok (Some r, ratio)
     /\ findBestReportMatch [r] (js "reentrancy") = Ok None)
  /\ (ratio <? threshold_query)%float = true
  /\ (forall cache m,
        findBestReportMatch cache (js "reentrancy") = Ok (Some m) ->
        score m <> ratio).
Proof.
  intros title ratio. split; [|split].
  - intros r Ht Hg Hu.
    assert (score_report (js "reentrancy") (None, neg_infinity) r
            = Ok (Some r, ratio)) as Hs.
    { unfold score_report. simpl List.filter. rewrite Ht, Hg, Hu.
      change (truthy (VString title)) with true. cbv iota.
      cbn [mapM]. subst title. rewrite normalizeText_title. simpl mbind.
      cbn [foldl]. unfold score_candidate.
      change (negb (nonempty (js "reentrancyattackintokenvault"))) with false.
      cbv iota.
      change (includes (js "reentrancyattackintokenvault") (js "reentrancy"))
        with true.
      cbv iota. reflexivity. }
    split; [exact Hs|].
    unfold findBestReportMatch. rewrite normalizeText_reentrancy. simpl mbind.
    change (negb (nonempty (js "reentrancy"))) with false. cbv iota.
    unfold best_report. cbn [foldM]. rewrite Hs. reflexivity.
  - vm_compute. reflexivity.
  - intros cache m. unfold findBestReportMatch.
    rewrite normalizeText_reentrancy. simpl mbind.
    change (negb (nonempty (js "reentrancy"))) with false. cbv iota.
    destruct (best_report cache (js "reentrancy")) as [[bestMatch bestScore]|e];
      simpl; [|done].
    destruct (bestScore <? threshold_query)%float eqn:Hlt; [done|].
    intros [= <-]. simpl. intros ->. by vm_compute in Hlt.
Qed.

End reentrancy.

(** C4, as amended, at the record that has the title and nothing else. *)
Lemma findBestReportMatch_reentrancy_witness :
  let r := record [("title", "Reentrancy Attack in TokenVault")]%string in
  @findBestReportMatch sample_platform [r] (js "reentrancy") = Ok None.
Proof.
  intros r.
  destruct (@findBestReportMatch_reentrancy sample_platform) as (H & _ & _).
  apply (H r); vm_compute; reflexivity.
Defined.

(** C4, as stated, fails: the cache loaded in the sample world holds a
    report with this title, and the query gets no match. *)
Lemma findBestReportMatch_reentrancy_none :
  let cache :=
    reportsCache
      (@ensureReportsLoaded sample_platform sample_world initial_state).1 in
  (fun r => get r "title") <$> cache
    = [VString (js "Reentrancy Attack in TokenVault"); VString (js "Foo Bar");
       VUndefined]
  /\ @findBestReportMatch sample_platform cache (js "reentrancy") = Ok None
  /\ length (js "reentrancy") = 10
  /\ length (js "reentrancyattackintokenvault") = 28.
Proof. vm_compute. repeat split; reflexivity. Qed.

(** ** The candidate set *)

Section candidate_facts.
Context {P : Platform}.

Lemma elem_of_set_add (v w : JsValue) (s : list JsValue) :
  v ∈ set_add w s <-> v = w \/ v ∈ s.
Proof.
  unfold set_add. case_bool_decide as Hw.
  - split; [by right|]. by intros [->|].
  - rewrite elem_of_app, list_elem_of_singleton. tauto.
Qed.

Lemma elem_of_filter_truthy (v : JsValue) (s : list JsValue) :
  v ∈ List.filter truthy s <-> v ∈ s /\ truthy v = true.
Proof. rewrite !list_elem_of_In. apply filter_In. Qed.

(** What the [github_repo] step adds. *)
Lemma add_repo_segment_elem r (s : list JsValue) :
  exists s',
    add_repo_segment (VString r) s = Ok s'
    /\ forall v, v ∈ s' <->
         (exists seg, final_segment r = Some seg /\ v = VString seg) \/ v ∈ s.
Proof.
  unfold add_repo_segment, final_segment.
  destruct (0 <? _)%nat; eexists; (split; [done|]); intros v.
  - rewrite elem_of_set_add. split.
    + intros [->|?]; [left; eauto|by right].
    + intros [(seg & [= <-] & ->)|?]; [by left|by right].
  - split; [by right|]. by intros [(seg & [=] & _)|?].
Qed.

(** What the [url] step adds. *)
Lemma add_url_variants_elem url (s : list JsValue) v :
  v ∈ add_url_variants url s <->
    (exists pathname,
       pathname_of url = Some pathname
       /\ basename pathname <> []
       /\ (v = VString (basename pathname)
           \/ v = VString (strip_extension (basename pathname))))
    \/ v ∈ s.
Proof.
  unfold add_url_variants.
  destruct (pathname_of url) as [pathname|]; cycle 1.
  { split; [by right|]. by intros [(? & [=] & _)|?]. }
  destruct (nonempty pathname) eqn:Hp; cycle 1.
  { split; [by right|]. intros [(p & [= <-] & Hb & _)|?]; [|done].
    exfalso. apply Hb.
    assert (pathname = []) as ->; [|done].
    unfold nonempty in Hp. by case_bool_decide. }
  destruct (nonempty (basename pathname)) eqn:Hb.
  - apply nonempty_true in Hb. rewrite !elem_of_set_add. split.
    + intros [->|[->|?]]; [left|left|by right]; eexists; eauto.
    + intros [(p & [= <-] & _ & [->| ->])|?]; auto.
  - split; [by right|]. intros [(p & [= <-] & Hb' & _)|?]; [|done].
    exfalso. apply Hb'. unfold nonempty in Hb. by case_bool_decide.
Qed.

Lemma final_segment_nil : final_segment [] = None.
Proof. reflexivity. Qed.

(** The candidate set, member by member. *)
Lemma buildReportDocCandidates_elem report slug :
  textual (get report "github_repo") = true ->
  exists candidates,
    buildReportDocCandidates report slug = Ok candidates
    /\ forall v, v ∈ candidates <->
         truthy v = true
         /\ (v = VString slug
             \/ v = get report "title"
             \/ v = get report "github_repo"
             \/ (exists r seg,
                   get report "github_repo" = VString r
                   /\ final_segment r = Some seg /\ v = VString seg)
             \/ v = get report "url"
             \/ (truthy (get report "url") = true
                 /\ exists pathname,
                      pathname_of (get report "url") = Some pathname
                      /\ basename pathname <> []
                      /\ (v = VString (basename pathname)
                          \/ v = VString (strip_extension (basename pathname))))).
Proof.
  intros Hg. unfold buildReportDocCandidates. cbv zeta.
  set (c0 := if nonempty slug then set_add (VString slug) [] else []).
  assert (forall v, v ∈ c0 <-> nonempty slug = true /\ v = VString slug) as H0.
  { intros v. subst c0. destruct (nonempty slug).
    - rewrite elem_of_set_add, elem_of_nil. intuition (try congruence; eauto).
    - rewrite elem_of_nil. intuition (try congruence; eauto). }
  clearbody c0.
  set (c1 := if truthy (get report "title")
             then set_add (get report "title") c0 else c0).
  assert (forall v, v ∈ c1 <->
            (truthy (get report "title") = true /\ v = get report "title")
            \/ v ∈ c0) as H1.
  { intros v. subst c1. destruct (truthy (get report "title")).
    - rewrite elem_of_set_add. intuition (try congruence; eauto).
    - intuition (try congruence; eauto). }
  clearbody c1.
  assert (exists c2,
            (if truthy (get report "github_repo") then
               add_repo_segment (get report "github_repo")
                 (set_add (get report "github_repo") c1)
             else Ok c1) = Ok c2
            /\ forall v, v ∈ c2 <->
                 (truthy (get report "github_repo") = true
                  /\ (v = get report "github_repo"
                      \/ exists r seg,
                           get report "github_repo" = VString r
                           /\ final_segment r = Some seg /\ v = VString seg))
                 \/ v ∈ c1) as (c2 & -> & H2).
  { destruct (truthy (get report "github_repo")) eqn:E.
    - pose proof (textual_truthy _ Hg E) as Hs.
      destruct (get report "github_repo") as [| | |r| |]; try done.
      destruct (add_repo_segment_elem r (set_add (VString r) c1))
        as (c2 & -> & H2).
      exists c2. split; [done|]. intros v. rewrite H2, elem_of_set_add.
      split.
      + intros [(seg & Hseg & ->)|[->|Hv]]; [left|left|by right];
          (split; [done|]); [right; eauto|by left].
      + intros [[_ [->|(r0 & seg & [= <-] & Hseg & ->)]]|Hv];
          [right; by left|left; eauto|right; by right].
    - exists c1. split; [done|]. intuition (try congruence; eauto). }
  simpl. eexists. split; [done|]. intros v.
  rewrite elem_of_filter_truthy.
  assert (v ∈ (if truthy (get report "url") then
                 add_url_variants (get report "url")
                   (set_add (get report "url") c2)
               else c2) <->
          (truthy (get report "url") = true
           /\ (v = get report "url"
               \/ exists pathname,
                    pathname_of (get report "url") = Some pathname
                    /\ basename pathname <> []
                    /\ (v = VString (basename pathname)
                        \/ v = VString (strip_extension (basename pathname)))))
          \/ v ∈ c2) as ->.
  { destruct (truthy (get report "url")).
    - rewrite add_url_variants_elem, elem_of_set_add. intuition (try congruence; eauto).
    - intuition (try congruence; eauto). }
  rewrite H2, H1, H0. split.
  - intros [Hv Ht]. split; [done|].
    destruct Hv as [[Hu [->|Hp]]|[[Hg' [->|Hr]]|[[Htt ->]|[Hs ->]]]].
    + do 4 right. by left.
    + do 5 right. by split.
    + do 2 right. by left.
    + do 3 right. by left.
    + right. by left.
    + by left.
  - intros [Ht Hv]. split; [|done].
    destruct Hv as [->|[->|[->|[(r & seg & Hr & Hseg & ->)|[->|Hu]]]]].
    + right. right. right. split; [|done]. by rewrite <- truthy_VString.
    + right. right. left. by split.
    + right. left. split; [done|]. by left.
    + right. left. split; [|right; eauto].
      rewrite Hr. rewrite truthy_VString. apply nonempty_true.
      intros ->. by rewrite final_segment_nil in Hseg.
    + left. split; [done|]. by left.
    + left. destruct Hu as (Hu & p & Hp). split; [done|]. right. eauto.
Qed.

End candidate_facts.

Section candidate_claim.
Context {P : Platform}.

Lemma last_In {A} (l : list A) d : l <> [] -> In (List.last l d) l.
Proof.
  induction l as [|x [|y l] IH]; [done|by left|].
  intros _. right. by apply IH.
Qed.

Lemma get_delete_ne (o : Obj) (k k' : string) :
  js k <> js k' -> get (delete (js k) o) k' = get o k'.
Proof. intros H. unfold get. by rewrite lookup_delete_ne. Qed.

Lemma get_delete_eq (o : Obj) (k : string) : get (delete (js k) o) k = VUndefined.
Proof. unfold get. by rewrite lookup_delete_eq. Qed.

(** C5, as amended. For every report record whose [github_repo], when
    present, is a string, [buildReportDocCandidates] returns a candidate set
    such that:
    - when [github_repo] contains a slash the set contains it verbatim, and
      its final non-empty segment when it has one;
    - when [url] is a non-empty string that parses as a URL whose path has a
      non-empty final segment, the set contains that segment, and that
      segment without its trailing extension when what is left is not empty;
    - when [url] is a non-empty string that does not parse, the set is the
      one of the record without [url], plus the verbatim [url]. *)
Theorem buildReportDocCandidates_variants (report : Obj) (slug : jsstring) :
  textual (get report "github_repo") = true ->
  exists candidates,
    buildReportDocCandidates report slug = Ok candidates
    /\ (forall r,
          get report "github_repo" = VString r -> slash ∈ r ->
          VString r ∈ candidates
          /\ forall seg, final_segment r = Some seg -> VString seg ∈ candidates)
    /\ (forall u pathname,
          get report "url" = VString u -> u <> [] ->
          url_pathname u = Some pathname -> basename pathname <> [] ->
          VString (basename pathname) ∈ candidates
          /\ (strip_extension (basename pathname) <> [] ->
              VString (strip_extension (basename pathname)) ∈ candidates))
    /\ (forall u,
          get report "url" = VString u -> u <> [] ->
          url_pathname u = None ->
          exists others,
            buildReportDocCandidates (delete (js "url") report) slug = Ok others
            /\ forall v, v ∈ candidates <-> v = VString u \/ v ∈ others).
Proof.
  intros Hg.
  destruct (buildReportDocCandidates_elem report slug Hg) as (c & Hc & Hin).
  exists c. split; [done|]. split; [|split].
  - intros r Hr Hslash.
    assert (r <> []) as Hne by (intros ->; by apply elem_of_nil in Hslash).
    split.
    + apply Hin. rewrite truthy_VString, Hr. split; [by apply nonempty_true|].
      auto.
    + intros seg Hseg. apply Hin. split.
      * rewrite truthy_VString. apply nonempty_true. intros ->.
        unfold final_segment in Hseg.
        destruct (0 <? _)%nat eqn:Hlen; [|done]. injection Hseg as Hlast.
        set (segments := List.filter nonempty (split slash r)) in *.
        assert (In (List.last segments []) segments) as Hmem.
        { apply last_In. by destruct segments. }
        rewrite Hlast in Hmem. subst segments.
        by apply filter_In in Hmem as [_ Hmem].
      * right. right. right. left. eauto.
  - intros u pathname Hu Hne Hp Hb.
    assert (truthy (get report "url") = true) as Ht.
    { rewrite Hu, truthy_VString. by apply nonempty_true. }
    split.
    + apply Hin. rewrite truthy_VString. split; [by apply nonempty_true|].
      do 5 right. split; [done|]. exists pathname. rewrite Hu. simpl. auto.
    + intros Hs. apply Hin. rewrite truthy_VString.
      split; [by apply nonempty_true|].
      do 5 right. split; [done|]. exists pathname. rewrite Hu. simpl. auto.
  - intros u Hu Hne Hp.
    destruct (buildReportDocCandidates_elem (delete (js "url") report) slug)
      as (others & Ho & Hino).
    { by rewrite get_delete_ne. }
    exists others. split; [done|]. intros v.
    rewrite Hin, Hino. rewrite !get_delete_ne by done.
    rewrite get_delete_eq, Hu.
    change (pathname_of (VString u)) with (url_pathname u). rewrite Hp.
    split.
    + intros (Ht & [?|[?|[?|[?|[->|(_ & ? & [=] & _)]]]]]); auto 10.
    + intros [->|(Ht & [?|[?|[?|[?|[->|([=] & _)]]]]])]; auto 10;
        [|done].
      split; [|auto 10]. rewrite truthy_VString. by apply nonempty_true.
Qed.

End candidate_claim.

(** C5, as amended, at the record of the two examples: [org/proj] gives
    [org/proj] and [proj], and the URL gives [Report-Name.pdf] and
    [Report-Name]. *)
Lemma buildReportDocCandidates_variants_witness :
  let report :=
    record [("github_repo", "org/proj");
            ("url", "https://host/path/Report-Name.pdf")]%string in
  exists candidates,
    @buildReportDocCandidates sample_platform report [] = Ok candidates
    /\ VString (js "org/proj") ∈ candidates
    /\ VString (js "proj") ∈ candidates
    /\ VString (js "Report-Name.pdf") ∈ candidates
    /\ VString (js "Report-Name") ∈ candidates.
Proof.
  intros report.
  destruct (@buildReportDocCandidates_variants sample_platform report []
              eq_refl) as (c & Hc & Hrepo & Hurl & _).
  exists c. split; [exact Hc|].
  destruct (Hrepo (js "org/proj") eq_refl) as [H1 H2].
  { vm_compute. apply list_elem_of_In. simpl. auto 10. }
  specialize (H2 (js "proj") eq_refl).
  destruct (Hurl (js "https://host/path/Report-Name.pdf")
              (js "/path/Report-Name.pdf") eq_refl) as [H3 H4];
    [discriminate|reflexivity|discriminate|].
  repeat split; [exact H1|exact H2|exact H3|].
  apply H4. discriminate.
Defined.

(** C5, as stated, fails on a URL whose final segment is [.pdf]: removing the
    extension leaves the empty string, which the final filter drops; and on
    the repository path [/], which has a slash and no segment. *)
Lemma buildReportDocCandidates_drops_empty_variants :
  @url_pathname sample_platform (js "https://host/.pdf") = Some (js "/.pdf")
  /\ basename (js "/.pdf") = js ".pdf"
  /\ strip_extension (js ".pdf") = []
  /\ @buildReportDocCandidates sample_platform
       (record [("url", "https://host/.pdf")]%string) []
     = Ok [VString (js "https://host/.pdf"); VString (js ".pdf")]
  /\ (VString (strip_extension (js ".pdf"))
        ∉ [VString (js "https://host/.pdf"); VString (js ".pdf")])
  /\ @buildReportDocCandidates sample_platform
       (record [("github_repo", "/")]%string) []
     = Ok [VString (js "/")]
  /\ final_segment (js "/") = None.
Proof.
  repeat split; try (vm_compute; reflexivity).
  intros H. apply list_elem_of_In in H. vm_compute in H.
  destruct H as [H|[H|[]]]; discriminate.
Qed.

(** ** The two thresholds *)

Section threshold_claim.
Context {P : Platform}.



End threshold_claim.


(** ** Exact keys *)

Section exact_facts.
Context {P : Platform}.

Lemma normalizeText_alnum v n :
  normalizeText v = Ok n -> forallb lower_alnum n = true.
Proof.
  unfold normalizeText. destruct (negb (truthy v)); [by intros [= <-]|].
  destruct v; try done. intros [= <-].
  apply forallb_forall. intros c Hc. by apply filter_In in Hc as [_ Hc].
Qed.

Lemma alnum_neq n (name : string) :
  forallb lower_alnum n = true ->
  forallb lower_alnum (js name) = false ->
  n <> js name.
Proof. intros Hn Hname ->. congruence. Qed.

(** Of the names a plain object inherits only [constructor] is made of
    lower-case letters and digits. *)
Lemma object_prototype_alnum n :
  forallb lower_alnum n = true ->
  n <> js "constructor" ->
  object_prototype n = VUndefined.
Proof.
  intros Hn Hc. unfold object_prototype.
  rewrite bool_decide_eq_false_2 by done.
  rewrite bool_decide_eq_false_2.
  - rewrite bool_decide_eq_false_2; [done|]. by apply alnum_neq.
  - rewrite !fmap_cons, !elem_of_cons, fmap_nil, elem_of_nil.
    intros [?|[?|[?|[?|[?|[?|[?|[?|[?|[?|[]]]]]]]]]]];
      eapply alnum_neq; try eassumption; reflexivity.
Qed.

Lemma index_get_own idx n path :
  own idx n = Some path -> index_get idx n = VString path.
Proof. unfold index_get. by intros ->. Qed.

Lemma index_get_miss idx n :
  own idx n = None -> forallb lower_alnum n = true -> n <> js "constructor" ->
  index_get idx n = VUndefined.
Proof.
  intros Ho Hn Hc. unfold index_get. rewrite Ho.
  by apply object_prototype_alnum.
Qed.

(** The loop returns at the first candidate that normalises to a key, with
    the path stored under it, whatever the candidates that follow. *)
Lemma scan_candidates_first_exact idx best before c after n path :
  Forall (no_hit idx) before ->
  normalizeText c = Ok n -> n <> [] ->
  own idx n = Some path -> path <> [] ->
  scan_candidates idx best (before ++ c :: after) = Ok (inl (VString path)).
Proof.
  intros Hb Hc Hn Ho Hp. revert best.
  induction Hb as [|v before (m & Hv & Hm & Hcm) _ IH]; intros best; simpl.
  - rewrite Hc. simpl. rewrite (index_get_own idx n path Ho).
    apply nonempty_true in Hn, Hp. rewrite Hn, truthy_VString, Hp. done.
  - rewrite Hv. simpl.
    rewrite (index_get_miss idx m Hm (normalizeText_alnum v m Hv) Hcm).
    rewrite andb_false_r. destruct (negb (nonempty m)); apply IH.
Qed.

Lemma findDocPathForCandidates_first_exact idx before c after n path :
  Forall (no_hit idx) before ->
  normalizeText c = Ok n -> n <> [] ->
  own idx n = Some path -> path <> [] ->
  findDocPathForCandidates (Some idx) (before ++ c :: after)
  = Ok (VString path).
Proof.
  intros. unfold findDocPathForCandidates.
  by erewrite scan_candidates_first_exact.
Qed.

Lemma set_add_head v x s : exists s', set_add v (x :: s) = x :: s'.
Proof. unfold set_add. case_bool_decide; by eexists. Qed.

(** A non-empty slug is the first candidate. *)
Lemma buildReportDocCandidates_head report slug :
  textual (get report "github_repo") = true -> slug <> [] ->
  exists rest, buildReportDocCandidates report slug = Ok (VString slug :: rest).
Proof.
  intros Hg Hs. unfold buildReportDocCandidates. cbv zeta.
  apply nonempty_true in Hs. rewrite Hs.
  change (set_add (VString slug) []) with [VString slug].
  assert (exists c1,
            (if truthy (get report "title")
             then set_add (get report "title") [VString slug]
             else [VString slug]) = VString slug :: c1) as [c1 ->].
  { destruct (truthy (get report "title")); [apply set_add_head|by eexists]. }
  assert (exists c2,
            (if truthy (get report "github_repo") then
               add_repo_segment (get report "github_repo")
                 (set_add (get report "github_repo") (VString slug :: c1))
             else Ok (VString slug :: c1)) = Ok (VString slug :: c2))
    as [c2 ->].
  { destruct (truthy (get report "github_repo")) eqn:E; [|by eexists].
    pose proof (textual_truthy _ Hg E) as Hstr.
    destruct (get report "github_repo") as [| | |r| |]; try done.
    destruct (set_add_head (VString r) (VString slug) c1) as [c ->].
    unfold add_repo_segment. destruct (0 <? _)%nat; [|by eexists].
    destruct (set_add_head
                (VString (List.last (List.filter nonempty (split slash r)) []))
                (VString slug) c) as [c' ->].
    by eexists. }
  simpl.
  assert (exists c3,
            (if truthy (get report "url") then
               add_url_variants (get report "url")
                 (set_add (get report "url") (VString slug :: c2))
             else VString slug :: c2) = VString slug :: c3) as [c3 ->].
  { destruct (truthy (get report "url")); [|by eexists].
    destruct (set_add_head (get report "url") (VString slug) c2) as [c ->].
    unfold add_url_variants.
    destruct (pathname_of _) as [pathname|]; [|by eexists].
    destruct (nonempty pathname); [|by eexists].
    destruct (nonempty (basename pathname)); [|by eexists].
    destruct (set_add_head (VString (basename pathname)) (VString slug) c)
      as [c' ->].
    apply set_add_head. }
  cbn [List.filter]. rewrite truthy_VString, Hs. by eexists.
Qed.

(** The part of C3 that holds on every record: when the slug of the record
    slugifies and normalises to a key of the index, the path under this key
    is returned, whatever the other fields of the record are. For the
    document [foo-bar.md] and the slug [foo-bar] the key is [foobar]. *)
Lemma resolve_with_slug_exact idx report slug n path :
  textual (get report "github_repo") = true ->
  get report "slug" = VString slug -> slug <> [] -> createSlug slug <> [] ->
  normalizeText (VString (createSlug slug)) = Ok n -> n <> [] ->
  own idx n = Some path -> path <> [] ->
  resolve_with idx report = Ok (VString path).
Proof.
  intros Hg Hslug Hs Hcs Hn Hne Ho Hp. unfold resolve_with, slug_source.
  assert (truthy (get report "slug") = true) as Ht.
  { rewrite Hslug, truthy_VString. by apply nonempty_true. }
  rewrite !(js_or_truthy (get report "slug")) by done.
  unfold source_slug. rewrite Ht, Hslug. simpl mbind.
  destruct (buildReportDocCandidates_head report (createSlug slug) Hg Hcs)
    as [rest ->].
  simpl mbind.
  apply (findDocPathForCandidates_first_exact idx [] _ rest n path);
    [constructor|done..].
Qed.

End exact_facts.

(** C3 fails on the code. In [constructor_world] the document [foo-bar.md]
    is indexed under the key [foobar], and the record has the slug
    [constructor] and the title [Foo Bar]: the title is the first candidate
    that normalises to a key of the index. [resolveExplanationPath] returns
    at the slug, which is no key of the index, with the function that the
    index object inherits under the name [constructor]; and
    [ensureReportsLoaded] stores this function as the explanation path of
    the record. *)
Theorem resolveExplanationPath_constructor_slug :
  let report := record [("slug", "constructor"); ("title", "Foo Bar")]%string in
  let r := @resolveExplanationPath sample_platform constructor_world report
             initial_state in
  let cache :=
    reportsCache
      (@ensureReportsLoaded sample_platform constructor_world initial_state).1 in
  reportDocsIndex r.1 = Some [(js "foobar", js "/srv/data/reports/foo-bar.md")]
  /\ @buildReportDocCandidates sample_platform report (js "constructor")
     = Ok [VString (js "constructor"); VString (js "Foo Bar")]
  /\ @normalizeText sample_platform (VString (js "constructor"))
     = Ok (js "constructor")
  /\ @normalizeText sample_platform (VString (js "Foo Bar")) = Ok (js "foobar")
  /\ r.2 = Ok object_function
  /\ r.2 <> Ok (VString (js "/srv/data/reports/foo-bar.md"))
  /\ (fun o => (get o "explanationPath", get o "hasExplanation")) <$> cache
     = [(object_function, VBool true)].
Proof.
  intros report r cache.
  assert (r.2 = Ok object_function) as Hr by (vm_compute; reflexivity).
  repeat split; try (vm_compute; reflexivity).
  rewrite Hr. discriminate.
Qed.

(** ** Empty inputs *)

Section empty_facts.
Context {P : Platform} {W : World}.

Lemma best_report_nil normalizedQuery :
  best_report [] normalizedQuery = Ok (None, neg_infinity).
Proof. reflexivity. Qed.

(** Over an empty cache no query has a match, and nothing is thrown. *)
Lemma findBestReportMatch_nil query : findBestReportMatch [] query = Ok None.
Proof.
  unfold findBestReportMatch.
  destruct (normalizeText_string query) as [n ->]. simpl.
  by destruct (negb (nonempty n)).
Qed.

(** Over an empty index the loop finds no key and no pair. *)
Lemma scan_candidates_empty_index best candidates :
  Forall (no_hit []) candidates ->
  scan_candidates [] best candidates = Ok (inr best).
Proof.
  induction 1 as [|v l (n & Hv & Hn & Hc) _ IH]; simpl; [done|].
  rewrite Hv. simpl.
  rewrite (index_get_miss [] n Hn (normalizeText_alnum v n Hv) Hc).
  rewrite andb_false_r. by destruct (negb (nonempty n)).
Qed.

Lemma resolve_with_empty_index report slug candidates :
  source_slug (slug_source report) = Ok slug ->
  buildReportDocCandidates report slug = Ok candidates ->
  Forall (no_hit []) candidates ->
  resolve_with [] report = Ok VNull.
Proof.
  intros Hs Hc Hno. unfold resolve_with. rewrite Hs. simpl mbind.
  rewrite Hc. simpl mbind.
  unfold findDocPathForCandidates.
  by rewrite (scan_candidates_empty_index _ _ Hno).
Qed.

Lemma find_by_slug_nil normalizedSlug : find_by_slug normalizedSlug [] = Ok None.
Proof. reflexivity. Qed.

End empty_facts.

(** A call of [resolveExplanationPath] over the empty index with a record
    whose title is [Constructor] returns the function that the index object
    inherits under the name [constructor]. The function is called with the
    items of the records source and with the records of the cache only, so
    that no call has this record when the source holds none. *)
Lemma resolveExplanationPath_empty_index_constructor :
  let report := record [("title", "Constructor")]%string in
  let r := @resolveExplanationPath sample_platform empty_world report
             initial_state in
  @readdir empty_world = Failed true
  /\ reportDocsIndex r.1 = Some []
  /\ @normalizeText sample_platform (VString (js "Constructor"))
     = Ok (js "constructor")
  /\ index_get [] (js "constructor") = object_function
  /\ r.2 = Ok object_function
  /\ r.2 <> Ok VNull.
Proof.
  intros report r.
  assert (r.2 = Ok object_function) as Hr by (vm_compute; reflexivity).
  repeat split; try (vm_compute; reflexivity).
  rewrite Hr. discriminate.
Qed.

(** ** The arithmetic of the numbers *)

Section float_facts.
Local Open Scope Z_scope.

(** The number of binary digits of a positive number. *)
Lemma digits2_pos_bounds (p : positive) :
  2 ^ (Zpos (digits2_pos p) - 1) <= Zpos p < 2 ^ Zpos (digits2_pos p).
Proof.
  induction p as [p IH|p IH|]; cbn [digits2_pos].
  - rewrite Pos2Z.inj_succ.
    replace (Z.succ (Zpos (digits2_pos p)) - 1) with (Z.succ (Zpos (digits2_pos p) - 1)) by lia.
    rewrite !Z.pow_succ_r by lia. lia.
  - rewrite Pos2Z.inj_succ.
    replace (Z.succ (Zpos (digits2_pos p)) - 1) with (Z.succ (Zpos (digits2_pos p) - 1)) by lia.
    rewrite !Z.pow_succ_r by lia. lia.
  - simpl. lia.
Qed.

Lemma digits2_pos_53 (p : positive) :
  2 ^ 52 <= Zpos p < 2 ^ 53 -> digits2_pos p = 53%positive.
Proof.
  intros [Hl Hu]. pose proof (digits2_pos_bounds p) as [Hl' Hu'].
  destruct (Z.lt_trichotomy (Zpos (digits2_pos p)) 53) as [H|[H|H]].
  - assert (2 ^ Zpos (digits2_pos p) <= 2 ^ 52) by (apply Z.pow_le_mono_r; lia).
    lia.
  - congruence.
  - assert (2 ^ 53 <= 2 ^ (Zpos (digits2_pos p) - 1))
      by (apply Z.pow_le_mono_r; lia).
    lia.
Qed.

Lemma shr_1_m mrs :
  0 <= shr_m mrs ->
  shr_m (shr_1 mrs) = shr_m mrs / 2 /\ 0 <= shr_m (shr_1 mrs).
Proof.
  destruct mrs as [m r s]. simpl. intros Hm.
  destruct m as [|[p|p|]|p]; simpl; try lia.
  - done.
  - split; [|lia]. rewrite Pos2Z.inj_xI.
    apply Z.div_unique with 1; lia.
  - split; [|lia]. rewrite Pos2Z.inj_xO.
    apply Z.div_unique with 0; lia.
  - done.
Qed.

Lemma pow_xO p : 2 ^ Zpos p~0 = 2 ^ Zpos p * 2 ^ Zpos p.
Proof.
  replace (Zpos p~0) with (Zpos p + Zpos p) by lia.
  apply Z.pow_add_r; lia.
Qed.

Lemma pow_xI p : 2 ^ Zpos p~1 = 2 * (2 ^ Zpos p * 2 ^ Zpos p).
Proof.
  replace (Zpos p~1) with (Z.succ (Zpos p + Zpos p)) by lia.
  rewrite Z.pow_succ_r by lia. f_equal. apply Z.pow_add_r; lia.
Qed.

Lemma shr_m_iter p : forall mrs,
  0 <= shr_m mrs ->
  shr_m (SpecFloat.iter_pos shr_1 p mrs) = shr_m mrs / 2 ^ Zpos p
  /\ 0 <= shr_m (SpecFloat.iter_pos shr_1 p mrs).
Proof.
  assert (forall q, 0 < 2 ^ Zpos q) as Hpos
    by (intros q; apply Z.pow_pos_nonneg; lia).
  induction p as [p IH|p IH|]; intros mrs Hm; cbn [SpecFloat.iter_pos].
  - destruct (shr_1_m mrs Hm) as [E1 H1].
    destruct (IH _ H1) as [E2 H2]. destruct (IH _ H2) as [E3 H3].
    split; [|done]. rewrite E3, E2, E1, pow_xI.
    pose proof (Hpos p). rewrite !Z.div_div by lia. done.
  - destruct (IH _ Hm) as [E2 H2]. destruct (IH _ H2) as [E3 H3].
    split; [|done]. rewrite E3, E2, pow_xO.
    pose proof (Hpos p). by rewrite !Z.div_div by lia.
  - destruct (shr_1_m mrs Hm) as [E1 H1]. by rewrite Z.pow_1_r.
Qed.

Lemma shr_m_of_loc m l : shr_m (shr_record_of_loc m l) = m.
Proof. by destruct l as [|[]]. Qed.

Lemma loc_of_shr_record_of_loc m l :
  loc_of_shr_record (shr_record_of_loc m l) = l.
Proof. by destruct l as [|[]]. Qed.

Lemma fexp_normal e : -1021 <= e -> fexp prec emax e = e - 53.
Proof.
  intros He. unfold fexp. change (SpecFloat.emin prec emax) with (-1074).
  change prec with 53. lia.
Qed.

(** The first step of [binary_round_aux]: a mantissa of [d >= 53] digits
    loses its last [d - 53] digits. *)
Lemma shr_fexp_m (m : positive) e l :
  53 <= Zpos (digits2_pos m) -> -1074 <= e ->
  exists mrs,
    shr_fexp prec emax (Zpos m) e l = (mrs, e + (Zpos (digits2_pos m) - 53))
    /\ shr_m mrs = Zpos m / 2 ^ (Zpos (digits2_pos m) - 53)
    /\ (Zpos (digits2_pos m) = 53 -> mrs = shr_record_of_loc (Zpos m) l).
Proof.
  intros Hd He. unfold shr_fexp. cbn [Zdigits2].
  rewrite fexp_normal by lia.
  replace (Zpos (digits2_pos m) + e - 53 - e) with (Zpos (digits2_pos m) - 53)
    by lia.
  destruct (Zpos (digits2_pos m) - 53) as [|p|p] eqn:Hn; [| |lia].
  - exists (shr_record_of_loc (Zpos m) l). cbn [shr].
    split; [f_equal; lia|]. split; [|done].
    rewrite shr_m_of_loc. symmetry. apply Z.div_1_r.
  - eexists. cbn [shr]. split; [reflexivity|]. split; [|lia].
    destruct (shr_m_iter p (shr_record_of_loc (Zpos m) l)) as [E _].
    { rewrite shr_m_of_loc. lia. }
    by rewrite E, shr_m_of_loc.
Qed.

Lemma round_nearest_even_cases m l :
  round_nearest_even m l = m \/ round_nearest_even m l = m + 1.
Proof. destruct l as [|[]]; simpl; auto. destruct (Z.even m); auto. Qed.

Lemma div_pow_53 (m : positive) :
  53 <= Zpos (digits2_pos m) ->
  2 ^ 52 <= Zpos m / 2 ^ (Zpos (digits2_pos m) - 53) < 2 ^ 53.
Proof.
  intros Hd. pose proof (digits2_pos_bounds m) as [Hl Hu].
  set (d := Zpos (digits2_pos m)) in *.
  assert (0 < 2 ^ (d - 53)) as Hp by (apply Z.pow_pos_nonneg; lia).
  assert (2 ^ (d - 1) = 2 ^ 52 * 2 ^ (d - 53)) as E1.
  { rewrite <- Z.pow_add_r by lia. f_equal. lia. }
  assert (2 ^ d = 2 ^ 53 * 2 ^ (d - 53)) as E2.
  { rewrite <- Z.pow_add_r by lia. f_equal. lia. }
  split.
  - apply Z.div_le_lower_bound; lia.
  - apply Z.div_lt_upper_bound; lia.
Qed.

(** [binary_round_aux] on a positive mantissa of 53 digits or more, away
    from the ends of the exponent range: the result is finite, its mantissa
    has 53 digits and is the truncated mantissa or the next number. *)
Lemma binary_round_aux_finite (mx : positive) e l :
  53 <= Zpos (digits2_pos mx) -> -1074 <= e ->
  e + (Zpos (digits2_pos mx) - 53) + 1 <= 971 ->
  exists m'' e'',
    binary_round_aux prec emax false (Zpos mx) e l = S754_finite false m'' e''
    /\ 2 ^ 52 <= Zpos m'' < 2 ^ 53
    /\ ((e'' = e + (Zpos (digits2_pos mx) - 53)
         /\ (Zpos m'' = Zpos mx / 2 ^ (Zpos (digits2_pos mx) - 53)
             \/ Zpos m'' = Zpos mx / 2 ^ (Zpos (digits2_pos mx) - 53) + 1))
        \/ (e'' = e + (Zpos (digits2_pos mx) - 53) + 1
            /\ Zpos m'' = 2 ^ 52
            /\ Zpos mx / 2 ^ (Zpos (digits2_pos mx) - 53) + 1 = 2 ^ 53)).
Proof.
  intros Hd He Hmax. unfold binary_round_aux.
  destruct (shr_fexp_m mx e l Hd He) as (mrs & -> & Hm & _).
  pose proof (div_pow_53 mx Hd) as Hm1. rewrite <- Hm in *.
  set (e1 := e + (Zpos (digits2_pos mx) - 53)) in *.
  set (m2 := round_nearest_even (shr_m mrs) (loc_of_shr_record mrs)).
  assert (m2 = shr_m mrs \/ m2 = shr_m mrs + 1) as Hm2
    by apply round_nearest_even_cases.
  destruct (Z.lt_ge_cases m2 (2 ^ 53)) as [Hlt|Hge].
  - destruct m2 as [|p2|p2] eqn:Ep2; [lia| |lia].
    assert (digits2_pos p2 = 53%positive) as Hd2
      by (apply digits2_pos_53; lia).
    destruct (shr_fexp_m p2 e1 loc_Exact) as (mrs2 & -> & Hm2' & Hrec);
      [rewrite Hd2; lia|lia|].
    rewrite Hd2 in *. rewrite (Hrec eq_refl). cbn [shr_m shr_record_of_loc].
    replace (e1 + (53 - 53)) with e1 by lia.
    assert ((e1 <=? emax - prec) = true) as ->.
    { apply Z.leb_le. change (emax - prec) with 971. lia. }
    exists p2, e1. split; [done|]. split; [lia|]. left. split; [done|lia].
  - assert (m2 = 2 ^ 53) as -> by lia.
    change (2 ^ 53) with (Zpos (2 ^ 53)%positive) at 1.
    destruct (shr_fexp_m (2 ^ 53)%positive e1 loc_Exact) as (mrs2 & -> & Hm2' & _);
      [by vm_compute|lia|].
    change (Zpos (digits2_pos (2 ^ 53)) - 53) with 1 in *.
    rewrite Hm2'. change (Zpos (2 ^ 53) / 2 ^ 1) with (Zpos (2 ^ 52)%positive).
    assert ((e1 + 1 <=? emax - prec) = true) as ->.
    { apply Z.leb_le. change (emax - prec) with 971. lia. }
    exists (2 ^ 52)%positive, (e1 + 1). split; [done|].
    split; [by vm_compute|]. right. split; [done|]. split; [done|lia].
Qed.

Lemma binary_round_aux_exact (m : positive) e :
  2 ^ 52 <= Zpos m < 2 ^ 53 -> -1074 <= e <= 971 ->
  binary_round_aux prec emax false (Zpos m) e loc_Exact = S754_finite false m e.
Proof.
  intros Hm He. unfold binary_round_aux.
  pose proof (digits2_pos_53 m Hm) as Hd.
  destruct (shr_fexp_m m e loc_Exact) as (mrs & -> & _ & Hrec);
    [rewrite Hd; lia|lia|].
  rewrite Hd in *. rewrite (Hrec eq_refl).
  cbn [shr_m shr_record_of_loc loc_of_shr_record round_nearest_even].
  destruct (shr_fexp_m m (e + (53 - 53)) loc_Exact) as (mrs2 & -> & _ & Hrec2);
    [rewrite Hd; lia|lia|].
  rewrite Hd in *. rewrite (Hrec2 eq_refl). cbn [shr_m shr_record_of_loc].
  replace (e + (53 - 53) + (53 - 53)) with e by lia.
  assert ((e <=? emax - prec) = true) as ->; [|done].
  apply Z.leb_le. change (emax - prec) with 971. lia.
Qed.

Lemma iter_xO_value p k : Zpos (Pos.iter xO p k) = Zpos p * 2 ^ Zpos k.
Proof.
  induction k as [|k IH] using Pos.peano_ind.
  - simpl. lia.
  - rewrite Pos.iter_succ, Pos2Z.inj_xO, IH, Pos2Z.inj_succ.
    rewrite Z.pow_succ_r by lia. lia.
Qed.

(** [binary_round] on a positive mantissa of at most 53 digits: the
    mantissa is shifted to 53 digits, and nothing is rounded. *)
Lemma binary_round_small (p : positive) e :
  Zpos (digits2_pos p) <= 53 -> -1000 <= e <= 900 ->
  exists m',
    binary_round prec emax false p e
    = S754_finite false m' (e + Zpos (digits2_pos p) - 53)
    /\ Zpos m' = Zpos p * 2 ^ (53 - Zpos (digits2_pos p))
    /\ 2 ^ 52 <= Zpos m' < 2 ^ 53.
Proof.
  intros Hd He. unfold binary_round, shl_align.
  pose proof (digits2_pos_bounds p) as [Hl Hu].
  set (d := Zpos (digits2_pos p)) in *.
  rewrite fexp_normal by lia.
  assert (0 < 2 ^ (53 - d)) as Hp by (apply Z.pow_pos_nonneg; lia).
  assert (2 ^ (d - 1) * 2 ^ (53 - d) = 2 ^ 52) as E1.
  { rewrite <- Z.pow_add_r by lia. f_equal. lia. }
  assert (2 ^ d * 2 ^ (53 - d) = 2 ^ 53) as E2.
  { rewrite <- Z.pow_add_r by lia. f_equal. lia. }
  destruct (d + e - 53 - e) as [|k|k] eqn:Hk; [| lia |].
  - assert (d = 53) as Hd53 by lia. rewrite Hd53 in *.
    exists p. rewrite binary_round_aux_exact by lia.
    split; [f_equal; lia|]. change (2 ^ (53 - 53)) with 1. lia.
  - assert (53 - d = Zpos k) as Hk' by lia. rewrite Hk' in *.
    pose proof (iter_xO_value p k) as Hv.
    exists (Pos.iter xO p k). rewrite binary_round_aux_exact by nia.
    split; [f_equal; lia|]. split; [done|nia].
Qed.

(** A positive integer below [2^53] is a number whose mantissa holds it
    exactly. *)
Lemma of_Z_finite n :
  1 <= n < 2 ^ 53 ->
  exists m e,
    Prim2SF (of_Z n) = S754_finite false m e
    /\ 2 ^ 52 <= Zpos m < 2 ^ 53
    /\ -52 <= e <= 0
    /\ Zpos m = n * 2 ^ (- e).
Proof.
  intros Hn. unfold of_Z. rewrite of_uint63_spec, Uint63.of_Z_spec.
  rewrite Z.mod_small by (change wB with (2 ^ 63); lia).
  destruct n as [|p|p]; [lia| |lia]. cbn [binary_normalize].
  pose proof (digits2_pos_bounds p) as [Hl Hu].
  assert (Zpos (digits2_pos p) <= 53) as Hd.
  { destruct (Z.le_gt_cases (Zpos (digits2_pos p)) 53) as [H|H]; [done|].
    assert (2 ^ 53 <= 2 ^ (Zpos (digits2_pos p) - 1))
      by (apply Z.pow_le_mono_r; lia).
    lia. }
  destruct (binary_round_small p 0 Hd) as (m' & -> & Hv & Hm); [lia|].
  exists m', (0 + Zpos (digits2_pos p) - 53).
  split; [done|]. split; [done|]. split; [lia|].
  rewrite Hv. f_equal. f_equal. lia.
Qed.

Lemma digits2_pos_unique (p : positive) k :
  2 ^ (k - 1) <= Zpos p < 2 ^ k -> Zpos (digits2_pos p) = k.
Proof.
  intros [Hl Hu]. pose proof (digits2_pos_bounds p) as [Hl' Hu'].
  assert (0 < k) as Hk.
  { destruct (Z.lt_ge_cases 0 k) as [H|H]; [done|].
    destruct k as [|k|k]; [simpl in Hu; lia|lia|].
    rewrite Z.pow_neg_r in Hu by lia. lia. }
  destruct (Z.lt_trichotomy (Zpos (digits2_pos p)) k) as [H|[H|H]]; [|done|].
  - assert (2 ^ Zpos (digits2_pos p) <= 2 ^ (k - 1))
      by (apply Z.pow_le_mono_r; lia).
    lia.
  - assert (2 ^ k <= 2 ^ (Zpos (digits2_pos p) - 1))
      by (apply Z.pow_le_mono_r; lia).
    lia.
Qed.

(** The quotient of two numbers with mantissas of 53 digits, before it is
    rounded. *)
Lemma SFdiv_canonical (mx my : positive) ex ey :
  2 ^ 52 <= Zpos mx < 2 ^ 53 -> 2 ^ 52 <= Zpos my < 2 ^ 53 ->
  -500 <= ex <= 500 -> -500 <= ey <= 500 ->
  SFdiv prec emax (S754_finite false mx ex) (S754_finite false my ey)
  = binary_round_aux prec emax false (Zpos mx * 2 ^ 53 / Zpos my)
      (ex - ey - 53)
      (new_location (Zpos my) ((Zpos mx * 2 ^ 53) mod Zpos my)).
Proof.
  intros Hx Hy Hex Hey. unfold SFdiv, SFdiv_core_binary. cbn [Zdigits2 xorb].
  rewrite (digits2_pos_53 mx Hx), (digits2_pos_53 my Hy).
  rewrite fexp_normal by lia.
  replace (Z.min (53 + ex - (53 + ey) - 53) (ex - ey)) with (ex - ey - 53)
    by lia.
  replace (ex - ey - (ex - ey - 53)) with 53 by lia.
  rewrite Z.shiftl_mul_pow2 by lia.
  unfold Z.div, Z.modulo.
  by destruct (Z.div_eucl (Zpos mx * 2 ^ 53) (Zpos my)) as [q r].
Qed.

Lemma new_location_zero n : new_location n 0 = loc_Exact.
Proof.
  unfold new_location, new_location_even, new_location_odd.
  by destruct (Z.even n).
Qed.

Lemma new_location_inexact n r :
  r <> 0 -> exists c, new_location n r = loc_Inexact c.
Proof.
  intros Hr. unfold new_location, new_location_even, new_location_odd.
  apply Z.eqb_neq in Hr. destruct (Z.even n); rewrite Hr; by eexists.
Qed.

Lemma SFltb_one (m : positive) e :
  -52 < e \/ (e = -52 /\ 2 ^ 52 < Zpos m) ->
  SFltb (S754_finite false (2 ^ 52) (-52)) (S754_finite false m e) = true.
Proof.
  unfold SFltb, SFcompare. intros [He|[-> Hm]].
  - by rewrite (proj2 (Z.compare_lt_iff _ _) He).
  - rewrite Z.compare_refl.
    change (Pos.compare_cont Eq (2 ^ 52) m) with (Pos.compare (2 ^ 52) m).
    by rewrite (proj2 (Pos.compare_lt_iff _ _)) by lia.
Qed.

Lemma SFleb_one (m : positive) e :
  e < -52 \/ (e = -52 /\ Zpos m = 2 ^ 52) ->
  SFleb (S754_finite false m e) (S754_finite false (2 ^ 52) (-52)) = true.
Proof.
  unfold SFleb, SFcompare. intros [He|[-> Hm]].
  - by rewrite (proj2 (Z.compare_lt_iff _ _) He).
  - rewrite Z.compare_refl.
    assert (m = 2 ^ 52)%positive as -> by lia.
    change (Pos.compare_cont Eq (2 ^ 52) (2 ^ 52)) with Eq. done.
Qed.

Lemma quotient_bounds (mx my : positive) :
  2 ^ 52 <= Zpos mx < 2 ^ 53 -> 2 ^ 52 <= Zpos my < 2 ^ 53 ->
  2 ^ 52 <= Zpos mx * 2 ^ 53 / Zpos my < 2 ^ 54.
Proof.
  intros Hx Hy. split.
  - apply Z.div_le_lower_bound; lia.
  - apply Z.div_lt_upper_bound; lia.
Qed.

(** The rounded quotient of two numbers with mantissas of 53 digits. *)
Lemma SFdiv_finite (mx my : positive) ex ey :
  2 ^ 52 <= Zpos mx < 2 ^ 53 -> 2 ^ 52 <= Zpos my < 2 ^ 53 ->
  -500 <= ex <= 500 -> -500 <= ey <= 500 ->
  let q := Zpos mx * 2 ^ 53 / Zpos my in
  let d := if q <? 2 ^ 53 then 0 else 1 in
  exists m'' e'',
    SFdiv prec emax (S754_finite false mx ex) (S754_finite false my ey)
    = S754_finite false m'' e''
    /\ 2 ^ 52 <= Zpos m'' < 2 ^ 53
    /\ ((e'' = ex - ey - 53 + d
         /\ (Zpos m'' = q / 2 ^ d \/ Zpos m'' = q / 2 ^ d + 1))
        \/ (e'' = ex - ey - 53 + d + 1 /\ Zpos m'' = 2 ^ 52)).
Proof.
  intros Hx Hy Hex Hey q d. rewrite SFdiv_canonical by done.
  pose proof (quotient_bounds mx my Hx Hy) as Hq. fold q in Hq |- *.
  destruct q as [|qp|qp] eqn:Eq; [lia| |lia].
  assert (Zpos (digits2_pos qp) = 53 + d) as Hd.
  { apply digits2_pos_unique. unfold d.
    destruct (Z.ltb_spec (Zpos qp) (2 ^ 53)); simpl; lia. }
  assert (0 <= d <= 1) by (unfold d; destruct (_ <? _); lia).
  destruct (binary_round_aux_finite qp (ex - ey - 53)
              (new_location (Zpos my) ((Zpos mx * 2 ^ 53) mod Zpos my)))
    as (m'' & e'' & -> & Hm & Hc); [lia|lia|lia|].
  exists m'', e''. split; [done|]. split; [done|].
  replace (Zpos (digits2_pos qp) - 53) with d in Hc by lia.
  destruct Hc as [[-> Hc]|(-> & Hc & _)]; [left|right]; done.
Qed.

Lemma Prim2SF_one : Prim2SF 1 = S754_finite false (2 ^ 52) (-52).
Proof. reflexivity. Qed.

Lemma Prim2SF_zero : Prim2SF 0 = S754_zero false.
Proof. reflexivity. Qed.

(** A quotient of two integers below [2 ^ 53], the larger one on top, is
    above one once it is rounded. *)
Lemma of_Z_div_gt_one q c :
  1 <= c -> c < q -> q < 2 ^ 53 -> (1 <? of_Z q / of_Z c)%float = true.
Proof.
  intros Hc Hcq Hq.
  destruct (of_Z_finite q) as (mx & ex & Hx & Hmx & Hex & Vx); [lia|].
  destruct (of_Z_finite c) as (my & ey & Hy & Hmy & Hey & Vy); [lia|].
  rewrite ltb_spec, div_spec, Hx, Hy, Prim2SF_one. unfold SF64div.
  pose proof (quotient_bounds mx my Hmx Hmy) as HQ.
  assert (0 < 2 ^ (- ex)) as Ha by (apply Z.pow_pos_nonneg; lia).
  assert (0 < 2 ^ (- ey)) as Hb by (apply Z.pow_pos_nonneg; lia).
  destruct (Z.lt_trichotomy ex ey) as [Hlt|[Heq|Hgt]].
  - exfalso.
    assert (2 ^ (- ex) = 2 ^ (- ey) * 2 ^ (ey - ex)) as Hab.
    { rewrite <- Z.pow_add_r by lia. f_equal. lia. }
    assert (2 ^ 1 <= 2 ^ (ey - ex)) as Ht by (apply Z.pow_le_mono_r; lia).
    change (2 ^ 1) with 2 in Ht.
    assert (2 * 2 ^ (- ey) <= 2 ^ (- ex)) by (rewrite Hab; nia).
    assert (2 * (c * 2 ^ (- ey)) < q * 2 ^ (- ex)) by nia.
    lia.
  - subst ey.
    assert (Zpos my + 1 <= Zpos mx) by nia.
    assert (2 ^ 53 + 1 <= Zpos mx * 2 ^ 53 / Zpos my) as HQ'
      by (apply Z.div_le_lower_bound; lia).
    destruct (Z.eq_dec (Zpos mx * 2 ^ 53 / Zpos my) (2 ^ 53 + 1)) as [HQe|HQn].
    + rewrite SFdiv_canonical, HQe by (done || lia).
      destruct (new_location_inexact (Zpos my)
                  ((Zpos mx * 2 ^ 53) mod Zpos my)) as [cmp ->].
      { intros Hr.
        pose proof (Z.div_mod (Zpos mx * 2 ^ 53) (Zpos my)) as Hdm.
        rewrite HQe, Hr in Hdm. lia. }
      replace (ex - ex - 53) with (-53) by lia.
      by destruct cmp.
    + destruct (SFdiv_finite mx my ex ex) as (m'' & e'' & -> & Hm & Hcases);
        [done|done|lia|lia|].
      apply SFltb_one.
      destruct (Z.ltb_spec (Zpos mx * 2 ^ 53 / Zpos my) (2 ^ 53)); [lia|].
      assert (2 ^ 52 + 1 <= Zpos mx * 2 ^ 53 / Zpos my / 2 ^ 1).
      { apply Z.div_le_lower_bound; [done|]. change (2 ^ 1) with 2. lia. }
      destruct Hcases as [[-> Hv]|[-> Hv]]; [right|left]; lia.
  - destruct (SFdiv_finite mx my ex ey) as (m'' & e'' & -> & Hm & Hcases);
      [done|done|lia|lia|].
    apply SFltb_one.
    destruct (Z.eq_dec ex (ey + 1)) as [->|Hne].
    + assert (2 ^ (- ey) = 2 * 2 ^ (- (ey + 1))) as Hab.
      { rewrite <- Z.pow_succ_r by lia. f_equal. lia. }
      assert (2 <= 2 * Zpos mx - Zpos my) by nia.
      assert (2 ^ 52 + 1 <= Zpos mx * 2 ^ 53 / Zpos my) as HQ'
        by (apply Z.div_le_lower_bound; lia).
      destruct (Z.ltb_spec (Zpos mx * 2 ^ 53 / Zpos my) (2 ^ 53)).
      * change (2 ^ 0) with 1 in Hcases. rewrite Z.div_1_r in Hcases.
        destruct Hcases as [[-> Hv]|[-> Hv]]; [right|left]; lia.
      * destruct Hcases as [[-> Hv]|[-> Hv]]; left; lia.
    + assert (0 <= (if Zpos mx * 2 ^ 53 / Zpos my <? 2 ^ 53 then 0 else 1))
        by (destruct (_ <? _); lia).
      destruct Hcases as [[-> Hv]|[-> Hv]]; left; lia.
Qed.

(** [binary_round] on any positive mantissa. *)
Lemma binary_round_finite (p : positive) e :
  -1000 <= e <= 800 -> Zpos (digits2_pos p) <= 150 ->
  exists m'' e'',
    binary_round prec emax false p e = S754_finite false m'' e''
    /\ 2 ^ 52 <= Zpos m'' < 2 ^ 53
    /\ (e'' = e + Zpos (digits2_pos p) - 53
        \/ (e'' = e + Zpos (digits2_pos p) - 53 + 1 /\ Zpos m'' = 2 ^ 52)).
Proof.
  intros He Hd.
  destruct (Z.le_gt_cases (Zpos (digits2_pos p)) 53) as [Hs|Hl].
  - destruct (binary_round_small p e Hs) as (m' & -> & _ & Hm); [lia|].
    exists m', (e + Zpos (digits2_pos p) - 53). auto.
  - unfold binary_round, shl_align. rewrite fexp_normal by lia.
    destruct (Zpos (digits2_pos p) + e - 53 - e) as [|k|k] eqn:Hk; [lia| |lia].
    destruct (binary_round_aux_finite p e loc_Exact)
      as (m'' & e'' & -> & Hm & Hc); [lia|lia|lia|].
    exists m'', e''. split; [done|]. split; [done|].
    destruct Hc as [[-> _]|(-> & Hv & _)]; [left|right]; lia.
Qed.

(** One minus a number that is not above one lies between zero and one. *)
Lemma SFsub_one (mz : positive) ez :
  2 ^ 52 <= Zpos mz < 2 ^ 53 -> -120 <= ez ->
  ez < -52 \/ (ez = -52 /\ Zpos mz = 2 ^ 52) ->
  let s := SFsub prec emax (S754_finite false (2 ^ 52) (-52))
             (S754_finite false mz ez) in
  SFleb (S754_zero false) s = true
  /\ SFleb s (S754_finite false (2 ^ 52) (-52)) = true.
Proof.
  intros Hm Hlow Hz. unfold SFsub. cbn [cond_Zopp].
  rewrite Z.min_r by lia. unfold shl_align. rewrite Z.sub_diag. cbn [fst].
  destruct (ez - -52) as [|k|k] eqn:Hk.
  - cbn [fst]. replace (Zpos (2 ^ 52) - Zpos mz) with 0 by lia. done.
  - lia.
  - cbn [fst]. rewrite iter_xO_value.
    assert (2 ^ 1 <= 2 ^ Zpos k) as Hk2 by (apply Z.pow_le_mono_r; lia).
    change (2 ^ 1) with 2 in Hk2.
    destruct (Zpos (2 ^ 52) * 2 ^ Zpos k - Zpos mz) as [|dp|dp] eqn:Hd;
      [lia| |lia].
    cbn [binary_normalize].
    pose proof (digits2_pos_bounds dp) as [Hdl Hdu].
    assert (Zpos (digits2_pos dp) <= 52 + Zpos k) as Hdig.
    { destruct (Z.le_gt_cases (Zpos (digits2_pos dp)) (52 + Zpos k)) as [H|H];
        [done|].
      assert (2 ^ (52 + Zpos k) <= 2 ^ (Zpos (digits2_pos dp) - 1))
        by (apply Z.pow_le_mono_r; lia).
      rewrite Z.pow_add_r in * by lia. lia. }
    destruct (binary_round_finite dp ez) as (m'' & e'' & -> & Hm'' & Hc);
      [lia|lia|].
    split; [done|]. apply SFleb_one. lia.
Qed.

(** [1 - d / m] as the engine computes it lies between 0 and 1, for
    integers [0 <= d <= m] below [2 ^ 53]. *)
Lemma of_Z_similarity d m :
  0 <= d <= m -> 1 <= m -> m < 2 ^ 53 ->
  (0 <=? 1 - of_Z d / of_Z m)%float = true
  /\ (1 - of_Z d / of_Z m <=? 1)%float = true.
Proof.
  intros Hd Hm1 Hm.
  destruct (of_Z_finite m) as (my & ey & Hy & Hmy & Hey & Vy); [lia|].
  rewrite !leb_spec, sub_spec, div_spec, Hy, Prim2SF_one, Prim2SF_zero.
  unfold SF64sub, SF64div.
  destruct (Z.eq_dec d 0) as [->|Hd0]; [done|].
  destruct (of_Z_finite d) as (mx & ex & Hx & Hmx & Hex & Vx); [lia|].
  rewrite Hx.
  assert (0 < 2 ^ (- ex)) as Ha by (apply Z.pow_pos_nonneg; lia).
  assert (0 < 2 ^ (- ey)) as Hb by (apply Z.pow_pos_nonneg; lia).
  assert (exists mz ez,
    SFdiv prec emax (S754_finite false mx ex) (S754_finite false my ey)
    = S754_finite false mz ez
    /\ 2 ^ 52 <= Zpos mz < 2 ^ 53 /\ -120 <= ez
    /\ (ez < -52 \/ (ez = -52 /\ Zpos mz = 2 ^ 52))) as (mz & ez & -> & H).
  { destruct (Z.lt_trichotomy ex ey) as [Hlt|[Heq|Hgt]].
    - destruct (SFdiv_finite mx my ex ey) as (m'' & e'' & -> & Hm'' & Hc);
        [done|done|lia|lia|].
      exists m'', e''. split; [done|]. split; [done|].
      assert (0 <= (if Zpos mx * 2 ^ 53 / Zpos my <? 2 ^ 53 then 0 else 1) <= 1)
        by (destruct (_ <? _); lia).
      lia.
    - subst ey. assert (Zpos mx <= Zpos my) as Hle by nia.
      destruct (Z.eq_dec (Zpos mx) (Zpos my)) as [Hxy|Hxy].
      + assert (mx = my) as -> by lia.
        exists (2 ^ 52)%positive, (-52).
        split; [|lia].
        rewrite SFdiv_canonical by (done || lia).
        rewrite (Z.mul_comm (Zpos my)), Z.div_mul, Z.mod_mul, new_location_zero
          by lia.
        by replace (ex - ex - 53) with (-53) by lia.
      + destruct (SFdiv_finite mx my ex ex) as (m'' & e'' & -> & Hm'' & Hc);
          [done|done|lia|lia|].
        exists m'', e''. split; [done|]. split; [done|].
        assert (Zpos mx * 2 ^ 53 / Zpos my < 2 ^ 53) as Hq
          by (apply Z.div_lt_upper_bound; lia).
        apply Z.ltb_lt in Hq. rewrite Hq in Hc. lia.
    - exfalso.
      assert (2 ^ (- ey) = 2 ^ (- ex) * 2 ^ (ex - ey)) as Hab.
      { rewrite <- Z.pow_add_r by lia. f_equal. lia. }
      assert (2 ^ 1 <= 2 ^ (ex - ey)) as Ht by (apply Z.pow_le_mono_r; lia).
      change (2 ^ 1) with 2 in Ht.
      assert (2 * 2 ^ (- ex) <= 2 ^ (- ey)) by (rewrite Hab; nia).
      assert (2 * (d * 2 ^ (- ex)) <= m * 2 ^ (- ey)) by nia.
      lia. }
  destruct H as (Hmz & Hez & Hcase).
  exact (SFsub_one mz ez Hmz Hez Hcase).
Qed.

(** *** The order of the numbers *)

Ltac compare_cases :=
  repeat match goal with
  | |- context [Pos.compare_cont Eq ?a ?b] =>
      change (Pos.compare_cont Eq a b) with (Pos.compare a b)
  | |- context [Z.compare ?a ?b] => destruct (Z.compare_spec a b)
  | |- context [Pos.compare ?a ?b] => destruct (Pos.compare_spec a b)
  end;
  cbn [CompOpp]; intros; try done; try lia.

Lemma SFltb_trans x y z :
  SFltb x y = true -> SFltb y z = true -> SFltb x z = true.
Proof.
  unfold SFltb, SFcompare.
  destruct x as [[]|[]| |[] mx ex], y as [[]|[]| |[] my ey],
    z as [[]|[]| |[] mz ez]; try done; compare_cases.
Qed.

Lemma SFltb_irrefl x : SFltb x x = false.
Proof.
  unfold SFltb, SFcompare. destruct x as [[]|[]| |[] mx ex]; try done;
    rewrite Z.compare_refl;
    change (Pos.compare_cont Eq mx mx) with (Pos.compare mx mx);
    by rewrite Pos.compare_refl.
Qed.

Lemma SFltb_leb_trans x y z :
  SFltb x y = true -> SFleb y z = true -> SFltb x z = true.
Proof.
  unfold SFltb, SFleb, SFcompare.
  destruct x as [[]|[]| |[] mx ex], y as [[]|[]| |[] my ey],
    z as [[]|[]| |[] mz ez]; try done; compare_cases.
Qed.

Lemma SFleb_ltb_trans x y z :
  SFleb x y = true -> SFltb y z = true -> SFltb x z = true.
Proof.
  unfold SFltb, SFleb, SFcompare.
  destruct x as [[]|[]| |[] mx ex], y as [[]|[]| |[] my ey],
    z as [[]|[]| |[] mz ez]; try done; compare_cases.
Qed.

Lemma SFleb_total x y :
  SFleb x x = true -> SFleb y y = true -> SFltb x y = false ->
  SFleb y x = true.
Proof.
  unfold SFltb, SFleb, SFcompare.
  destruct x as [[]|[]| |[] mx ex], y as [[]|[]| |[] my ey];
    try done; compare_cases.
Qed.

Lemma SFltb_ordered x y :
  SFltb x y = true -> SFleb x x = true /\ SFleb y y = true.
Proof.
  unfold SFltb, SFleb, SFcompare.
  destruct x as [[]|[]| |[] mx ex], y as [[]|[]| |[] my ey];
    try done; rewrite ?Z.compare_refl;
    repeat match goal with
    | |- context [Pos.compare_cont Eq ?a ?a] =>
        change (Pos.compare_cont Eq a a) with (Pos.compare a a);
        rewrite Pos.compare_refl
    end; done.
Qed.

Lemma ltb_trans (a b c : float) :
  (a <? b)%float = true -> (b <? c)%float = true -> (a <? c)%float = true.
Proof. rewrite !ltb_spec. apply SFltb_trans. Qed.

Lemma ltb_irrefl (a : float) : (a <? a)%float = false.
Proof. rewrite ltb_spec. apply SFltb_irrefl. Qed.

Lemma ltb_leb_trans (a b c : float) :
  (a <? b)%float = true -> (b <=? c)%float = true -> (a <? c)%float = true.
Proof. rewrite !ltb_spec, leb_spec. apply SFltb_leb_trans. Qed.

Lemma leb_ltb_trans (a b c : float) :
  (a <=? b)%float = true -> (b <? c)%float = true -> (a <? c)%float = true.
Proof. rewrite !ltb_spec, leb_spec. apply SFleb_ltb_trans. Qed.

(** Two numbers, neither of them NaN, compare one way or the other. *)
Lemma leb_total (a b : float) :
  (a <=? a)%float = true -> (b <=? b)%float = true ->
  (a <? b)%float = false -> (b <=? a)%float = true.
Proof. rewrite !leb_spec, ltb_spec. apply SFleb_total. Qed.

Lemma ltb_ordered (a b : float) :
  (a <? b)%float = true ->
  (a <=? a)%float = true /\ (b <=? b)%float = true.
Proof. rewrite !leb_spec, ltb_spec. apply SFltb_ordered. Qed.

End float_facts.

(** ** Scores above 1 *)

Section score_facts.
Context {P : Platform}.

Lemma is_prefix_length p s : is_prefix p s = true -> length p <= length s.
Proof.
  revert s. induction p as [|x p IH]; intros [|y s]; simpl;
    [lia|lia|done|].
  intros [_ H]%andb_prop. apply IH in H. lia.
Qed.

Lemma is_prefix_same_length p s :
  is_prefix p s = true -> length p = length s -> p = s.
Proof.
  revert s. induction p as [|x p IH]; intros [|y s]; simpl; try done.
  intros [Hx H]%andb_prop Hl. apply bool_decide_eq_true in Hx as ->.
  f_equal. apply IH; [done|lia].
Qed.

Lemma includes_length s t : includes s t = true -> length t <= length s.
Proof.
  induction s as [|x s IH]; simpl.
  - rewrite orb_false_r. apply is_prefix_length.
  - intros [H|H]%orb_prop; [by apply is_prefix_length in H|].
    apply IH in H. lia.
Qed.

Lemma includes_same_length s t :
  includes s t = true -> length t = length s -> t = s.
Proof.
  destruct s as [|x s]; simpl.
  - rewrite orb_false_r. apply is_prefix_same_length.
  - intros [H|H]%orb_prop Hl; [by apply is_prefix_same_length|].
    apply includes_length in H. lia.
Qed.

(** A string that another contains, and that is not the whole of it, is
    shorter. *)
Lemma includes_proper s t :
  includes s t = true -> t <> s -> length t < length s.
Proof.
  intros H Hne. pose proof (includes_length s t H) as Hle.
  destruct (decide (length t = length s)) as [Heq|]; [|lia].
  by apply includes_same_length in H.
Qed.

Lemma levenshteinDistance_le_max a b :
  levenshteinDistance a b <= (length a `max` length b) `max` 1.
Proof.
  rewrite levenshteinDistance_lev. pose proof (lev_le_length_l a b). lia.
Qed.

Lemma score_candidate_empty normalizedQuery r best :
  score_candidate normalizedQuery r best [] = best.
Proof. by destruct best. Qed.

Lemma score_candidate_pair normalizedQuery r best candidate :
  candidate <> [] ->
  score_candidate normalizedQuery r best candidate
  = if (best.2 <? pair_score normalizedQuery candidate)%float
    then (Some r, pair_score normalizedQuery candidate) else best.
Proof.
  intros Hc. apply nonempty_true in Hc. destruct best as [bm bs].
  unfold score_candidate, pair_score. rewrite Hc. cbn [negb snd].
  by destruct (includes candidate normalizedQuery
               || includes normalizedQuery candidate).
Qed.

Lemma leads_initial normalizedQuery : leads normalizedQuery [] (None, neg_infinity).
Proof.
  split; [reflexivity|]. split; [reflexivity|].
  intros r c H. by apply elem_of_nil in H.
Qed.

(** One turn of the inner loop. *)
Lemma leads_step normalizedQuery seen best r candidate :
  leads normalizedQuery seen best ->
  leads normalizedQuery (seen ++ [(r, candidate)])
    (score_candidate normalizedQuery r best candidate).
Proof.
  intros (Hord & Hbest & Hmax).
  destruct (decide (candidate = [])) as [->|Hc].
  - rewrite score_candidate_empty. split; [done|]. split.
    + destruct best.1 as [r0|]; [|done].
      destruct Hbest as (c0 & Hin & Hc0 & Hs). exists c0.
      split; [|done]. apply elem_of_app. by left.
    + intros r' c' [Hin|Hin]%elem_of_app Hc'; [by apply (Hmax r')|].
      apply list_elem_of_singleton in Hin. congruence.
  - rewrite score_candidate_pair by done.
    destruct (best.2 <? pair_score normalizedQuery candidate)%float eqn:Hlt.
    + cbn [fst snd]. split; [by apply ltb_ordered in Hlt as [_ ?]|]. split.
      * exists candidate. split; [|done].
        apply elem_of_app. right. apply list_elem_of_singleton. done.
      * intros r' c' [Hin|Hin]%elem_of_app Hc'.
        -- destruct (pair_score normalizedQuery candidate
                     <? pair_score normalizedQuery c')%float eqn:Hlt'; [|done].
           pose proof (ltb_trans _ _ _ Hlt Hlt') as Hcontra.
           by rewrite (Hmax r' c' Hin Hc') in Hcontra.
        -- apply list_elem_of_singleton in Hin. injection Hin as -> ->.
           apply ltb_irrefl.
    + split; [done|]. split.
      * destruct best.1 as [r0|]; [|done].
        destruct Hbest as (c0 & Hin & Hc0 & Hs). exists c0.
        split; [|done]. apply elem_of_app. by left.
      * intros r' c' [Hin|Hin]%elem_of_app Hc'; [by apply (Hmax r')|].
        apply list_elem_of_singleton in Hin. by injection Hin as -> ->.
Qed.

(** The inner loop. *)
Lemma leads_candidates normalizedQuery r candidates : forall seen best,
  leads normalizedQuery seen best ->
  leads normalizedQuery (seen ++ (pair r <$> candidates))
    (foldl (score_candidate normalizedQuery r) best candidates).
Proof.
  induction candidates as [|c candidates IH]; intros seen best H; csimpl.
  - by rewrite app_nil_r.
  - rewrite (cons_middle (r, c)), app_assoc. apply IH. by apply leads_step.
Qed.

(** The outer loop. *)
Lemma leads_reports normalizedQuery reports : forall seen best best',
  foldM (score_report normalizedQuery) best reports = Ok best' ->
  leads normalizedQuery seen best ->
  leads normalizedQuery (seen ++ scored_pairs reports) best'.
Proof.
  induction reports as [|r reports IH]; intros seen best best' Hf H.
  - injection Hf as <-. unfold scored_pairs. simpl. by rewrite app_nil_r.
  - cbn [foldM] in Hf. unfold scored_pairs. cbn [flat_map].
    fold (scored_pairs reports).
    change (score_report normalizedQuery best r)
      with (candidates ← comparison_strings r;
            Ok (foldl (score_candidate normalizedQuery r) best candidates))
      in Hf.
    destruct (comparison_strings r) as [candidates|e]; [|done].
    simpl in Hf. rewrite app_assoc. apply (IH _ _ _ Hf).
    by apply leads_candidates.
Qed.

Lemma elem_of_scored_pairs cache r candidate :
  (r, candidate) ∈ scored_pairs cache
  <-> r ∈ cache
      /\ exists candidates,
           comparison_strings r = Ok candidates /\ candidate ∈ candidates.
Proof.
  induction cache as [|r0 cache IH].
  - split; [intros H|intros [H _]]; by apply elem_of_nil in H.
  - unfold scored_pairs. cbn [flat_map]. fold (scored_pairs cache).
    rewrite elem_of_app, IH, elem_of_cons. split.
    + intros [H|[H1 H2]]; [|by auto].
      destruct (comparison_strings r0) as [candidates|e] eqn:Hc;
        [|by apply elem_of_nil in H].
      apply list_elem_of_fmap in H as (c & Heq & Hin). injection Heq as -> ->.
      split; [by left|]. exists candidates. by rewrite Hc.
    + intros [[->|H1] (candidates & Hc & Hin)].
      * left. rewrite Hc. apply list_elem_of_fmap. by exists candidate.
      * right. split; [done|]. by exists candidates.
Qed.

Lemma best_report_leads cache normalizedQuery best :
  best_report cache normalizedQuery = Ok best ->
  leads normalizedQuery (scored_pairs cache) best.
Proof.
  intros H. apply (leads_reports _ _ [] _ _ H), leads_initial.
Qed.

(** The match returned is that of a winning pairing. *)
Lemma findBestReportMatch_winning cache query normalizedQuery m :
  normalizeText (VString query) = Ok normalizedQuery ->
  findBestReportMatch cache query = Ok (Some m) ->
  exists r candidate, winning cache normalizedQuery r candidate m.
Proof.
  intros Hq H. unfold findBestReportMatch in H. rewrite Hq in H.
  simpl in H. destruct (nonempty normalizedQuery); [|done]. cbn [negb] in H.
  destruct (best_report cache normalizedQuery) as [[bm bs]|e] eqn:Hb; [|done].
  simpl in H. destruct (bs <? threshold_query)%float eqn:Hthr; [done|].
  injection H as <-.
  apply best_report_leads in Hb as (_ & Hbest & Hmax). cbn [fst snd] in *.
  destruct bm as [r|]; [|by subst bs].
  destruct Hbest as (c & Hin & Hc & Hs). exists r, c.
  apply elem_of_scored_pairs in Hin as [Hr Hcs].
  split; [done|]. split; [done|]. split; [done|].
  intros r' c' (Hr' & Hc' & Hcs'). apply (Hmax r'); [|done].
  by apply elem_of_scored_pairs.
Qed.

(** The score of a comparison string that the query contains without being
    equal to it. *)
Lemma pair_score_proper normalizedQuery candidate :
  candidate <> [] ->
  includes normalizedQuery candidate = true ->
  candidate <> normalizedQuery ->
  (Z.of_nat (length normalizedQuery) < 2 ^ 53)%Z ->
  length candidate < length normalizedQuery
  /\ pair_score normalizedQuery candidate
     = (of_nat (length normalizedQuery) / of_nat (length candidate))%float
  /\ (1 <? pair_score normalizedQuery candidate)%float = true.
Proof.
  intros Hc Hin Hne Hlen.
  pose proof (includes_proper _ _ Hin Hne) as Hlt.
  assert (1 <= length candidate) by (destruct candidate; [done|simpl; lia]).
  assert (pair_score normalizedQuery candidate
          = (of_nat (length normalizedQuery) / of_nat (length candidate))%float)
    as ->.
  { unfold pair_score. rewrite Hin, orb_true_r.
    by replace (length candidate `max` 1) with (length candidate) by lia. }
  split; [done|]. split; [done|].
  apply (of_Z_div_gt_one (Z.of_nat (length normalizedQuery))
           (Z.of_nat (length candidate))); lia.
Qed.

Lemma best_report_returns normalizedQuery cache : forall best,
  (forall r, r ∈ cache -> exists candidates, comparison_strings r = Ok candidates) ->
  exists best', foldM (score_report normalizedQuery) best cache = Ok best'.
Proof.
  induction cache as [|r cache IH]; intros best H; [by eexists|].
  cbn [foldM].
  change (score_report normalizedQuery best r)
    with (candidates ← comparison_strings r;
          Ok (foldl (score_candidate normalizedQuery r) best candidates)).
  destruct (H r) as [candidates ->]; [by left|]. simpl.
  apply IH. intros r' Hr'. apply H. by right.
Qed.

(** A cache with a comparison string that the query contains without being
    equal to it: a match is returned, and its score is above 1. *)
Lemma findBestReportMatch_above_one cache query normalizedQuery r candidate :
  normalizeText (VString query) = Ok normalizedQuery ->
  (forall r', r' ∈ cache ->
     exists candidates, comparison_strings r' = Ok candidates) ->
  pairing cache r candidate ->
  includes normalizedQuery candidate = true ->
  candidate <> normalizedQuery ->
  (Z.of_nat (length normalizedQuery) < 2 ^ 53)%Z ->
  exists m,
    findBestReportMatch cache query = Ok (Some m)
    /\ (1 <? score m)%float = true.
Proof.
  intros Hq Hcache (Hr & Hc & Hcs) Hin Hne Hlen.
  destruct (pair_score_proper _ _ Hc Hin Hne Hlen) as (Hlt & _ & Hone).
  assert (normalizedQuery <> []) as Hnq by (intros ->; simpl in Hlt; lia).
  apply nonempty_true in Hnq.
  destruct (best_report_returns normalizedQuery cache (None, neg_infinity)
              Hcache) as [[bm bs] Hb].
  fold (best_report cache normalizedQuery) in Hb.
  pose proof (best_report_leads _ _ _ Hb) as (Hord & _ & Hmax).
  cbn [fst snd] in *.
  assert ((r, candidate) ∈ scored_pairs cache) as Hpair
    by by apply elem_of_scored_pairs.
  pose proof (Hmax r candidate Hpair Hc) as Hge.
  apply leb_total in Hge; [|done|by apply ltb_ordered in Hone as [_ ?]].
  pose proof (ltb_leb_trans _ _ _ Hone Hge) as Hbs.
  exists {| report := bm; score := bs |}. split; [|done].
  unfold findBestReportMatch. rewrite Hq. simpl. rewrite Hnq. cbn [negb].
  rewrite Hb. simpl.
  destruct (bs <? threshold_query)%float eqn:Hthr; [|done].
  assert ((threshold_query <? 1)%float = true) as Hthr1 by reflexivity.
  pose proof (ltb_trans bs threshold_query 1 Hthr Hthr1) as Hbelow.
  pose proof (ltb_trans bs 1 bs Hbelow Hbs) as Hcontra.
  by rewrite ltb_irrefl in Hcontra.
Qed.

(** The similarity measure lies between 0 and 1. *)
Lemma similarity_of_bounds a b :
  (Z.of_nat (length a) < 2 ^ 53)%Z -> (Z.of_nat (length b) < 2 ^ 53)%Z ->
  let maxLength := (length a `max` length b) `max` 1 in
  let similarity := similarity_of (levenshteinDistance a b) maxLength in
  (0 <=? similarity)%float = true /\ (similarity <=? 1)%float = true.
Proof.
  intros Ha Hb maxLength similarity.
  pose proof (levenshteinDistance_le_max a b) as Hle. fold maxLength in Hle.
  apply (of_Z_similarity (Z.of_nat (levenshteinDistance a b))
           (Z.of_nat maxLength)); subst maxLength; lia.
Qed.

(** C10. The score [findBestReportMatch] returns is not bounded by 1.
    Strings have fewer than [2 ^ 53] units, so that a length is a number
    that the engine holds exactly.
    - For the cache that holds a report titled [abc], the query [abcdef]
      gets this report with the score 2.
    - A match that is returned is that of a winning pairing: a report of the
      cache and one of its comparison strings, a non-empty one, whose score
      the match holds and which no pairing of the cache exceeds.
    - When the normalised query contains the comparison string of the
      winning pairing without being equal to it, the score returned is
      [len(normalizedQuery) / len(candidate)], the first length being the
      greater, and the quotient, as the engine computes it, is above 1.
    - When the normalised query contains a comparison string of some report
      of the cache without being equal to it, and the comparison fields of
      the cache can be normalised, a match is returned and its score is
      above 1, whichever pairing wins.
    - The similarity is different: the distance is at most the greater of
      the two lengths, and [1 - distance / maxLength], as the engine
      computes it, lies between 0 and 1. *)
Theorem score_not_bounded_by_one :
  (let r := record [("title", "abc")]%string in
   findBestReportMatch [r] (js "abcdef")
     = Ok (Some {| report := Some r; score := 2%float |})
   /\ (1 <? 2)%float = true)
  /\ (forall cache query normalizedQuery m,
        normalizeText (VString query) = Ok normalizedQuery ->
        findBestReportMatch cache query = Ok (Some m) ->
        exists r candidate, winning cache normalizedQuery r candidate m)
  /\ (forall cache query normalizedQuery m r candidate,
        normalizeText (VString query) = Ok normalizedQuery ->
        findBestReportMatch cache query = Ok (Some m) ->
        winning cache normalizedQuery r candidate m ->
        includes normalizedQuery candidate = true ->
        candidate <> normalizedQuery ->
        (Z.of_nat (length normalizedQuery) < 2 ^ 53)%Z ->
        length candidate < length normalizedQuery
        /\ score m
           = (of_nat (length normalizedQuery) / of_nat (length candidate))%float
        /\ (1 <? score m)%float = true)
  /\ (forall cache query normalizedQuery r candidate,
        normalizeText (VString query) = Ok normalizedQuery ->
        (forall r', r' ∈ cache ->
           exists candidates, comparison_strings r' = Ok candidates) ->
        pairing cache r candidate ->
        includes normalizedQuery candidate = true ->
        candidate <> normalizedQuery ->
        (Z.of_nat (length normalizedQuery) < 2 ^ 53)%Z ->
        exists m,
          findBestReportMatch cache query = Ok (Some m)
          /\ (1 <? score m)%float = true)
  /\ (forall a b,
        (Z.of_nat (length a) < 2 ^ 53)%Z -> (Z.of_nat (length b) < 2 ^ 53)%Z ->
        let maxLength := (length a `max` length b) `max` 1 in
        let similarity := similarity_of (levenshteinDistance a b) maxLength in
        levenshteinDistance a b <= maxLength
        /\ (0 <=? similarity)%float = true /\ (similarity <=? 1)%float = true).
Proof.
  split; [|split; [|split; [|split]]].
  - split; vm_compute; reflexivity.
  - apply findBestReportMatch_winning.
  - intros cache query nq m r c _ _ ((_ & Hc & _) & _ & Hs & _) Hin Hne Hlen.
    rewrite Hs. by apply pair_score_proper.
  - apply findBestReportMatch_above_one.
  - intros a b Ha Hb maxLength similarity.
    split; [apply levenshteinDistance_le_max|].
    by apply similarity_of_bounds.
Qed.

End score_facts.

(** C10 at a cache of two reports, [Reentrancy Guard] and [Reentrancy], and
    a query that contains the normalised title of the second twice: the
    second report is returned, with the score 20/10. *)
Lemma score_not_bounded_by_one_witness :
  let r1 := record [("title", "Reentrancy Guard")]%string in
  let r2 := record [("title", "Reentrancy")]%string in
  let m := {| report := Some r2; score := (of_nat 20 / of_nat 10)%float |} in
  @findBestReportMatch sample_platform [r1; r2] (js "reentrancy reentrancy")
  = Ok (Some m)
  /\ (exists r candidate,
        @winning sample_platform [r1; r2] (js "reentrancyreentrancy")
          r candidate m)
  /\ (1 <? score m)%float = true.
Proof.
  intros r1 r2 m.
  assert (@findBestReportMatch sample_platform [r1; r2]
            (js "reentrancy reentrancy") = Ok (Some m)) as Hfind
    by (vm_compute; reflexivity).
  destruct (@score_not_bounded_by_one sample_platform) as (_ & Hwin & _ & H & _).
  split; [exact Hfind|]. split.
  - apply (Hwin [r1; r2] (js "reentrancy reentrancy")); [|exact Hfind].
    vm_compute; reflexivity.
  - destruct (H [r1; r2] (js "reentrancy reentrancy")
                (js "reentrancyreentrancy") r2 (js "reentrancy"))
      as (m' & Hm' & Hgt).
    + vm_compute; reflexivity.
    + intros r' Hr'. apply list_elem_of_In in Hr'.
      destruct Hr' as [<-|[<-|[]]]; eexists; vm_compute; reflexivity.
    + split; [right; left|]. split; [discriminate|].
      exists [js "reentrancy"]. split; [vm_compute; reflexivity|left].
    + vm_compute; reflexivity.
    + discriminate.
    + vm_compute. reflexivity.
    + rewrite Hfind in Hm'. injection Hm' as <-. exact Hgt.
Defined.

(** * Further properties of the code *)

(** ** The text normaliser *)

Section text_facts.
Context {P : Platform}.

Lemma lower_alnum_range c :
  lower_alnum c = true <-> (97 <= c <= 122 \/ 48 <= c <= 57)%N.
Proof.
  unfold lower_alnum.
  rewrite orb_true_iff, !andb_true_iff, !N.leb_le. tauto.
Qed.

Lemma slug_unit_ascii c : slug_unit c = true -> is_ascii c = true.
Proof.
  unfold slug_unit, is_ascii. intros [H|H]%orb_prop.
  - apply lower_alnum_range in H. apply N.ltb_lt. lia.
  - apply bool_decide_eq_true in H as ->. reflexivity.
Qed.

Lemma slug_unit_lower c : slug_unit c = true -> ascii_lower c = c.
Proof.
  unfold slug_unit, ascii_lower. intros [H|H]%orb_prop.
  - apply lower_alnum_range in H.
    destruct (65 <=? c)%N eqn:H1; [|done].
    destruct (c <=? 90)%N eqn:H2; [|done].
    apply N.leb_le in H1, H2. lia.
  - apply bool_decide_eq_true in H as ->. reflexivity.
Qed.

Lemma slug_units_ascii s :
  forallb slug_unit s = true -> forallb is_ascii s = true.
Proof.
  rewrite !forallb_forall. intros H c Hc. by apply slug_unit_ascii, H.
Qed.

Lemma slug_units_lower s :
  forallb slug_unit s = true -> map ascii_lower s = s.
Proof.
  induction s as [|c s IH]; simpl; [done|].
  intros [Hc Hs]%andb_prop. by rewrite (slug_unit_lower c Hc), IH.
Qed.

(** Lowercasing and NFKD leave a string of slug units as it is. *)
Lemma fold_slug_units s :
  forallb slug_unit s = true -> normalizeNFKD (toLowerCase s) = s.
Proof.
  intros H. unfold normalizeNFKD, toLowerCase.
  rewrite (slug_units_ascii s H), (slug_units_lower s H).
  by rewrite (slug_units_ascii s H).
Qed.

Lemma alnum_slug_units s :
  forallb lower_alnum s = true -> forallb slug_unit s = true.
Proof.
  rewrite !forallb_forall. intros H c Hc. unfold slug_unit.
  by rewrite (H c Hc).
Qed.

Lemma filter_alnum_id s :
  forallb lower_alnum s = true -> List.filter lower_alnum s = s.
Proof.
  induction s as [|c s IH]; simpl; [done|].
  intros [Hc Hs]%andb_prop. by rewrite Hc, IH.
Qed.

Lemma normalizeText_filter s :
  normalizeText (VString s)
  = Ok (List.filter lower_alnum (normalizeNFKD (toLowerCase s))).
Proof.
  unfold normalizeText. rewrite truthy_VString.
  destruct (nonempty s) eqn:Hs; [done|].
  assert (s = []) as -> by (unfold nonempty in Hs; by case_bool_decide).
  reflexivity.
Qed.

(** X1. Whatever [normalizeText] returns is made of the units [a-z] and
    [0-9] only, and is its own normal form: normalising a key again gives
    the same key. *)
Theorem normalizeText_key (v : JsValue) (n : jsstring) :
  normalizeText v = Ok n ->
  Forall (fun c => (97 <= c <= 122 \/ 48 <= c <= 57)%N) n
  /\ normalizeText (VString n) = Ok n.
Proof.
  intros H. pose proof (normalizeText_alnum v n H) as Hal. split.
  - apply Forall_forall. intros c Hc%list_elem_of_In.
    rewrite forallb_forall in Hal. by apply lower_alnum_range, Hal.
  - rewrite normalizeText_filter.
    rewrite (fold_slug_units n (alnum_slug_units n Hal)).
    by rewrite filter_alnum_id.
Qed.

End text_facts.

(** X1 at the title [Foo-Bar 2]. *)
Lemma normalizeText_key_witness :
  @normalizeText sample_platform (VString (js "Foo-Bar 2")) = Ok (js "foobar2")
  /\ @normalizeText sample_platform (VString (js "foobar2")) = Ok (js "foobar2").
Proof.
  assert (@normalizeText sample_platform (VString (js "Foo-Bar 2"))
          = Ok (js "foobar2")) as H by (vm_compute; reflexivity).
  split; [exact H|].
  exact (proj2 (@normalizeText_key sample_platform _ _ H)).
Defined.

(** ** Slugs *)

Section slug_shape_facts.
Context {P : Platform}.

Lemma hyphen_not_alnum : lower_alnum hyphen = false.
Proof. reflexivity. Qed.

Lemma alnum_not_hyphen c : lower_alnum c = true -> c <> hyphen.
Proof. intros H ->. by rewrite hyphen_not_alnum in H. Qed.

Lemma hyphenate_units b s : forallb slug_unit (hyphenate b s) = true.
Proof.
  revert b. induction s as [|c s IH]; intros b; simpl; [done|].
  destruct (lower_alnum c) eqn:Hc.
  - simpl. unfold slug_unit at 1. by rewrite Hc, IH.
  - destruct b; [apply IH|]. simpl. by rewrite IH.
Qed.

(** No run of units outside [a-z0-9] leaves more than one hyphen. *)
Lemma hyphenate_no_double s :
  forall b,
    (forall l1 l2, hyphenate b s <> l1 ++ hyphen :: hyphen :: l2)
    /\ (b = true -> forall l, hyphenate b s <> hyphen :: l).
Proof.
  induction s as [|c s IH]; intros b; simpl.
  - split; [intros [|??] ?; discriminate|discriminate].
  - destruct (lower_alnum c) eqn:Hc.
    + split.
      * intros [|x l1] l2 Heq; simpl in Heq; injection Heq as Hx Hrest.
        -- subst c. discriminate Hc.
        -- by apply (proj1 (IH false) l1 l2).
      * intros _ l Heq. injection Heq as Hx Hrest. subst c. discriminate Hc.
    + destruct b; [apply IH|].
      split; [|discriminate].
      intros [|x l1] l2 Heq; simpl in Heq.
      * injection Heq as Hrest. by apply (proj2 (IH true) eq_refl l2).
      * injection Heq as Hx Hrest. by apply (proj1 (IH true) l1 l2).
Qed.

Lemma drop_hyphens_split s :
  exists pre,
    s = pre ++ drop_hyphens s /\ forall l, drop_hyphens s <> hyphen :: l.
Proof.
  induction s as [|c s (pre & Hpre & Hno)]; simpl.
  - exists []. split; [done|discriminate].
  - case_bool_decide as Hc.
    + exists (c :: pre). split; [|done]. simpl. by rewrite <- Hpre.
    + exists []. split; [done|]. intros l [= -> _]. done.
Qed.

(** [trim_hyphens] cuts a piece out of the middle of its argument, one with
    no hyphen at either end. *)
Lemma trim_hyphens_infix s :
  exists pre post,
    s = pre ++ trim_hyphens s ++ post
    /\ (forall l, trim_hyphens s <> hyphen :: l)
    /\ (forall l, trim_hyphens s <> l ++ [hyphen]).
Proof.
  unfold trim_hyphens.
  destruct (drop_hyphens_split s) as (pre & Hs & Hstart).
  destruct (drop_hyphens_split (rev (drop_hyphens s))) as (pre' & Hr & Hend).
  set (u := drop_hyphens s) in *. set (w := drop_hyphens (rev u)) in *.
  assert (u = rev w ++ rev pre') as Hu.
  { rewrite <- (rev_involutive u), Hr. apply rev_app_distr. }
  exists pre, (rev pre'). split; [by rewrite <- Hu|]. split.
  - intros l Hl. apply (Hstart (l ++ rev pre')). by rewrite Hu, Hl.
  - intros l Hl. apply (Hend (rev l)).
    rewrite <- (rev_involutive w), Hl, rev_app_distr. done.
Qed.

Lemma createSlug_slug_shaped (value : jsstring) :
  slug_shaped (createSlug value).
Proof.
  unfold createSlug.
  set (x := hyphenate false (normalizeNFKD (toLowerCase value))).
  destruct (trim_hyphens_infix x) as (pre & post & Hx & Hstart & Hend).
  pose proof (hyphenate_units false (normalizeNFKD (toLowerCase value))) as Hu.
  pose proof (proj1 (hyphenate_no_double (normalizeNFKD (toLowerCase value))
                       false)) as Hd.
  fold x in Hu, Hd. split; [|split; [done|split; [done|]]].
  - rewrite Hx, !forallb_app in Hu.
    by apply andb_prop in Hu as [_ [Hu _]%andb_prop].
  - intros l1 l2 Heq. apply (Hd (pre ++ l1) (l2 ++ post)).
    rewrite Hx at 1. rewrite Heq. by rewrite <- !app_assoc.
Qed.

(** X2. A slug is made of the units [a-z], [0-9] and the hyphen, has no
    hyphen at either end, and has no two hyphens in a row. *)
Theorem createSlug_shape (value : jsstring) :
  let slug := createSlug value in
  Forall (fun c => (97 <= c <= 122 \/ 48 <= c <= 57 \/ c = 45)%N) slug
  /\ head slug <> Some hyphen
  /\ last slug <> Some hyphen
  /\ forall i, slug !! i = Some hyphen -> slug !! S i <> Some hyphen.
Proof.
  intros slug.
  destruct (createSlug_slug_shaped value) as (Hu & Hs & He & Hd).
  fold slug in Hu, Hs, He, Hd. split; [|split; [|split]].
  - apply Forall_forall. intros c Hc%list_elem_of_In.
    rewrite forallb_forall in Hu. specialize (Hu c Hc).
    unfold slug_unit in Hu. apply orb_prop in Hu as [Hu|Hu].
    + apply lower_alnum_range in Hu. tauto.
    + apply bool_decide_eq_true in Hu. auto.
  - destruct slug as [|c l]; [done|]. intros [= ->]. by apply (Hs l).
  - intros [l Hl]%last_Some. by apply (He l).
  - intros i Hi Hi'.
    apply (Hd (take i slug) (drop (S (S i)) slug)).
    rewrite <- (take_drop_middle slug i hyphen Hi) at 1.
    by rewrite (drop_S slug hyphen (S i) Hi').
Qed.

Lemma hyphenate_shaped t :
  forall b,
    forallb slug_unit t = true ->
    (forall l1 l2, t <> l1 ++ hyphen :: hyphen :: l2) ->
    (b = true -> forall l, t <> hyphen :: l) ->
    hyphenate b t = t.
Proof.
  induction t as [|c t IH]; intros b Hu Hd Hb; simpl; [done|].
  simpl in Hu. apply andb_prop in Hu as [Hc Hu].
  destruct (lower_alnum c) eqn:Hal.
  - f_equal. apply IH; [done| |discriminate].
    intros l1 l2 ->. by apply (Hd (c :: l1) l2).
  - unfold slug_unit in Hc. rewrite Hal in Hc. simpl in Hc.
    apply bool_decide_eq_true in Hc as ->.
    destruct b; [by exfalso; apply (Hb eq_refl t)|].
    f_equal. apply IH; [done| |].
    + intros l1 l2 ->. by apply (Hd (hyphen :: l1) l2).
    + intros _ l ->. by apply (Hd [] l).
Qed.

Lemma drop_hyphens_id t : (forall l, t <> hyphen :: l) -> drop_hyphens t = t.
Proof.
  destruct t as [|c t]; simpl; [done|]. intros H.
  case_bool_decide as Hc; [|done]. subst c. by exfalso; apply (H t).
Qed.

Lemma trim_hyphens_id t :
  (forall l, t <> hyphen :: l) -> (forall l, t <> l ++ [hyphen]) ->
  trim_hyphens t = t.
Proof.
  intros Hs He. unfold trim_hyphens. rewrite (drop_hyphens_id t Hs).
  rewrite drop_hyphens_id; [apply rev_involutive|].
  intros l Hl. apply (He (rev l)).
  rewrite <- (rev_involutive t), Hl. done.
Qed.

Lemma createSlug_shaped t : slug_shaped t -> createSlug t = t.
Proof.
  intros (Hu & Hs & He & Hd). unfold createSlug.
  rewrite (fold_slug_units t Hu), (hyphenate_shaped t false Hu Hd) by done.
  by apply trim_hyphens_id.
Qed.

(** X3. A slug is its own slug: [createSlug(createSlug(s))] is
    [createSlug(s)]. *)
Theorem createSlug_idempotent (value : jsstring) :
  createSlug (createSlug value) = createSlug value.
Proof. apply createSlug_shaped, createSlug_slug_shaped. Qed.

Lemma filter_alnum_hyphenate b x :
  List.filter lower_alnum (hyphenate b x) = List.filter lower_alnum x.
Proof.
  revert b. induction x as [|c x IH]; intros b; simpl; [done|].
  destruct (lower_alnum c) eqn:Hc; simpl.
  - by rewrite Hc, IH.
  - destruct b; [apply IH|]. simpl. apply IH.
Qed.

Lemma filter_alnum_drop_hyphens s :
  List.filter lower_alnum (drop_hyphens s) = List.filter lower_alnum s.
Proof.
  induction s as [|c s IH]; simpl; [done|].
  case_bool_decide as Hc; [|done]. subst c. by rewrite hyphen_not_alnum.
Qed.

Lemma filter_alnum_rev s :
  List.filter lower_alnum (rev s) = rev (List.filter lower_alnum s).
Proof.
  apply List.filter_rev.
Qed.

Lemma filter_alnum_trim_hyphens s :
  List.filter lower_alnum (trim_hyphens s) = List.filter lower_alnum s.
Proof.
  unfold trim_hyphens.
  rewrite filter_alnum_rev, filter_alnum_drop_hyphens, filter_alnum_rev.
  by rewrite rev_involutive, filter_alnum_drop_hyphens.
Qed.

(** X4. A string and its slug have the same key: [normalizeText] of
    [createSlug(s)] is [normalizeText] of [s]. So the explain endpoint, which
    compares keys, finds a report under the string its slug was made from. *)
Theorem normalizeText_createSlug (value : jsstring) :
  normalizeText (VString (createSlug value)) = normalizeText (VString value).
Proof.
  rewrite !normalizeText_filter.
  rewrite (fold_slug_units _ (proj1 (createSlug_slug_shaped value))).
  unfold createSlug.
  by rewrite filter_alnum_trim_hyphens, filter_alnum_hyphenate.
Qed.

End slug_shape_facts.

(** ** The edit distance as a metric *)

Section lev_metric.
Import Lev.

Lemma lev_length_diff a : forall b, length a - length b <= lev a b.
Proof.
  induction a as [|x a IHa]; intros b; [simpl; lia|].
  induction b as [|y b IHb]; [simpl; lia|].
  rewrite lev_cons. unfold min3.
  pose proof (IHa (y :: b)). pose proof (IHa b). simpl in *.
  repeat apply Nat.min_glb; lia.
Qed.

Lemma lev_zero a : forall b, lev a b = 0 -> a = b.
Proof.
  induction a as [|x a IHa]; intros b H.
  - rewrite lev_nil_l in H. by destruct b.
  - destruct b as [|y b]; [done|].
    rewrite lev_cons in H. unfold min3, cost in H.
    case_bool_decide as Hxy.
    + assert (lev a b = 0) as H0 by lia. by rewrite (IHa b H0), Hxy.
    + lia.
Qed.

Lemma cost_triangle x y z : cost x z <= cost x y + cost y z.
Proof. unfold cost. repeat case_bool_decide; try lia; congruence. Qed.

Lemma lev_step_l x a b : lev (x :: a) b <= lev a b + 1.
Proof.
  revert a x. induction b as [|y b IHb]; intros a x.
  - rewrite !lev_nil_r. simpl. lia.
  - rewrite lev_cons. unfold min3. lia.
Qed.

Lemma lev_step_r a y b : lev a (y :: b) <= lev a b + 1.
Proof. rewrite (lev_sym a (y :: b)), (lev_sym a b). apply lev_step_l. Qed.

Lemma lev_triangle_fuel n : forall a b c,
  length a + length b + length c <= n -> lev a c <= lev a b + lev b c.
Proof.
  induction n as [|n IH]; intros a b c Hn.
  - destruct a, b, c; simpl in *; lia.
  - destruct a as [|x a].
    { rewrite !lev_nil_l. pose proof (lev_length_diff c b).
      rewrite (lev_sym b c). lia. }
    destruct c as [|z c].
    { rewrite !lev_nil_r. pose proof (lev_length_diff (x :: a) b). lia. }
    destruct b as [|y b].
    { rewrite lev_nil_l, lev_nil_r.
      pose proof (lev_le_length_l (x :: a) (z :: c)). lia. }
    simpl in Hn.
    pose proof (IH a (y :: b) (z :: c) ltac:(simpl; lia)) as H1.
    pose proof (IH (x :: a) b (z :: c) ltac:(simpl; lia)) as H2.
    pose proof (IH (x :: a) (y :: b) c ltac:(simpl; lia)) as H3.
    pose proof (IH (x :: a) b c ltac:(simpl; lia)) as H4.
    pose proof (IH a b (z :: c) ltac:(simpl; lia)) as H5.
    pose proof (IH a b c ltac:(simpl; lia)) as H6.
    pose proof (lev_step_l x a (z :: c)) as S1.
    pose proof (lev_step_r (x :: a) z c) as S2.
    pose proof (cost_triangle x y z) as Hc.
    assert (lev (x :: a) (z :: c) <= lev a c + cost x z) as S3.
    { rewrite lev_cons. unfold min3. lia. }
    pose proof (lev_cons x a y b) as Eab. pose proof (lev_cons y b z c) as Ebc.
    unfold min3 in Eab, Ebc. lia.
Qed.

(** X5. The distance of two strings is 0 exactly when they are the same
    string. *)
Theorem levenshteinDistance_zero (a b : jsstring) :
  levenshteinDistance a b = 0 <-> a = b.
Proof.
  rewrite levenshteinDistance_lev. split.
  - apply lev_zero.
  - intros ->. apply lev_refl.
Qed.

(** X6. The triangle inequality: going through a third string never gives
    less than the distance itself. *)
Theorem levenshteinDistance_triangle (a b c : jsstring) :
  levenshteinDistance a c <= levenshteinDistance a b + levenshteinDistance b c.
Proof.
  rewrite !levenshteinDistance_lev.
  by apply (lev_triangle_fuel (length a + length b + length c)).
Qed.

(** X7. The distance is at least the difference of the two lengths, in
    either direction. *)
Theorem levenshteinDistance_length_diff (a b : jsstring) :
  length a - length b <= levenshteinDistance a b
  /\ length b - length a <= levenshteinDistance a b.
Proof.
  rewrite levenshteinDistance_lev. split; [apply lev_length_diff|].
  rewrite lev_sym. apply lev_length_diff.
Qed.

End lev_metric.

(** ** The document index *)

Section index_facts.
Context {P : Platform} {W : World}.

(** Case analysis on every comparison of keys in the goal. *)
Ltac decide_keys :=
  repeat match goal with
         | |- context [bool_decide (?a = ?b)] =>
             destruct (decide (a = b));
             [rewrite (bool_decide_eq_true_2 (a = b)) by done
             |rewrite (bool_decide_eq_false_2 (a = b)) by done]
         end;
  try congruence.

Lemma own_app (idx1 idx2 : Index) k :
  own (idx1 ++ idx2) k
  = match own idx1 k with Some v => Some v | None => own idx2 k end.
Proof.
  induction idx1 as [|[k0 v0] idx1 IH]; simpl; [done|].
  by case_bool_decide.
Qed.

Lemma own_replace_own k v (idx : Index) k' :
  own idx k <> None ->
  own (replace_own k v idx) k'
  = if bool_decide (k = k') then Some v else own idx k'.
Proof.
  induction idx as [|[k0 v0] idx IH]; simpl; intros H; [done|].
  destruct (decide (k0 = k)) as [->|Hne].
  - rewrite !bool_decide_eq_true_2 by done. simpl.
    by destruct (bool_decide (k = k')).
  - rewrite (bool_decide_eq_false_2 (k0 = k)) in * by done. simpl.
    rewrite (IH H). decide_keys.
Qed.

Lemma own_insert_array_index n k v (idx : Index) k' :
  own idx k = None ->
  own (insert_array_index n k v idx) k'
  = if bool_decide (k = k') then Some v else own idx k'.
Proof.
  induction idx as [|[k0 v0] idx IH]; simpl; intros H; [done|].
  case_bool_decide as Hk0; [done|].
  destruct (array_index k0) as [n'|]; [destruct (n' <? n)%N|]; simpl;
    rewrite ?(IH H); decide_keys.
Qed.

Lemma own_set_property k v (idx : Index) k' :
  own (set_property k v idx) k'
  = if bool_decide (k = k') then Some v else own idx k'.
Proof.
  unfold set_property. destruct (own idx k) as [v0|] eqn:Hown.
  - apply own_replace_own. congruence.
  - destruct (array_index k) as [n|].
    + by apply own_insert_array_index.
    + rewrite own_app. simpl.
      destruct (decide (k = k')) as [<-|Hne].
      * by rewrite Hown, !bool_decide_eq_true_2.
      * rewrite !(bool_decide_eq_false_2 (k = k')) by done.
        by destruct (own idx k').
Qed.

Lemma own_None (idx : Index) k : own idx k = None <-> k ∉ idx.*1.
Proof.
  induction idx as [|[k0 v0] idx IH]; csimpl.
  - split; [intros _; apply not_elem_of_nil|done].
  - rewrite not_elem_of_cons. case_bool_decide as Hk.
    + split; [done|]. intros [Hk' _]. by destruct Hk'.
    + rewrite IH. split; [by intros H; split; [congruence|]|by intros [_ H]].
Qed.

Lemma own_Some_elem (idx : Index) k v : own idx k = Some v -> (k, v) ∈ idx.
Proof.
  induction idx as [|[k0 v0] idx IH]; simpl; [done|].
  case_bool_decide as Hk.
  - intros [= <-]. subst. apply list_elem_of_here.
  - intros H. apply list_elem_of_further. by apply IH.
Qed.

Lemma elem_own (idx : Index) k v :
  NoDup idx.*1 -> (k, v) ∈ idx -> own idx k = Some v.
Proof.
  induction idx as [|[k0 v0] idx IH]; simpl; intros Hnd Hin.
  - by apply elem_of_nil in Hin.
  - apply NoDup_cons in Hnd as [Hk0 Hnd].
    apply elem_of_cons in Hin as [[= -> ->]|Hin].
    + by rewrite bool_decide_eq_true_2.
    + case_bool_decide as Hk; [|by apply IH].
      subst k0. exfalso. apply Hk0.
      apply list_elem_of_fmap. by exists (k, v).
Qed.

Lemma replace_own_keys k v (idx : Index) : (replace_own k v idx).*1 = idx.*1.
Proof.
  induction idx as [|[k0 v0] idx IH]; csimpl; [done|].
  case_bool_decide as Hk; csimpl; [by subst|by rewrite IH].
Qed.

Lemma insert_array_index_keys n k v (idx : Index) :
  (insert_array_index n k v idx).*1 ≡ₚ k :: idx.*1.
Proof.
  induction idx as [|[k0 v0] idx IH]; csimpl; [done|].
  destruct (array_index k0) as [n'|]; [destruct (n' <? n)%N|]; csimpl;
    try done.
  rewrite IH. apply Permutation_swap.
Qed.

Lemma set_property_NoDup k v (idx : Index) :
  NoDup idx.*1 -> NoDup (set_property k v idx).*1.
Proof.
  intros Hnd. unfold set_property. destruct (own idx k) as [v0|] eqn:Hown.
  - by rewrite replace_own_keys.
  - apply own_None in Hown. destruct (array_index k) as [n|].
    + rewrite insert_array_index_keys. by apply NoDup_cons.
    + rewrite fmap_app. simpl. apply NoDup_app. split; [done|].
      split; [|apply NoDup_singleton].
      intros x Hx Hx'. apply list_elem_of_singleton in Hx'. by subst.
Qed.

Lemma index_entry_file idx entry :
  index_entry idx entry = Ok (file_entry idx entry).
Proof.
  unfold index_entry, file_entry, entry_key.
  destruct (endsWith _ _); [|done].
  destruct (normalizeText_string (take (length entry - 3) entry)) as [n ->].
  simpl. by destruct (nonempty n).
Qed.

Lemma foldM_index_entry entries : forall idx,
  foldM index_entry idx entries = Ok (foldl file_entry idx entries).
Proof.
  induction entries as [|e entries IH]; intros idx; simpl; [done|].
  rewrite index_entry_file. simpl. apply IH.
Qed.

Lemma directory_index_fold :
  directory_index
  = match readdir with
    | Done entries => foldl file_entry [] entries
    | Failed _ => []
    end.
Proof.
  unfold directory_index. destruct readdir as [entries|]; [|done].
  by rewrite foldM_index_entry.
Qed.

Lemma own_file_entry idx e k :
  own (file_entry idx e) k
  = if bool_decide (entry_key e = Some k)
    then Some (path_join reportsDir e) else own idx k.
Proof.
  unfold file_entry. destruct (entry_key e) as [n|].
  - rewrite own_set_property. decide_keys.
  - by rewrite bool_decide_eq_false_2.
Qed.

Lemma own_foldl_file_entry entries : forall idx k p,
  own (foldl file_entry idx entries) k = Some p
  <-> (exists e, wins entries k e /\ p = path_join reportsDir e)
      \/ (own idx k = Some p
          /\ Forall (fun e' => entry_key e' <> Some k) entries).
Proof.
  induction entries as [|e entries IH]; intros idx k p; simpl.
  - split.
    + intros H. right. by split.
    + intros [(e & (before & after & Heq & _) & _)|[H _]]; [|done].
      by destruct before.
  - rewrite IH, own_file_entry. split.
    + intros [(e' & (before & after & -> & Hk & Hafter) & ->)|[Hown Hall]].
      * left. exists e'. split; [|done].
        by exists (e :: before), after.
      * case_bool_decide as Hk.
        -- injection Hown as <-. left. exists e. split; [|done].
           by exists [], entries.
        -- right. split; [done|]. by apply Forall_cons.
    + intros [(e' & (before & after & Heq & Hk & Hafter) & ->)|[Hown Hall]].
      * destruct before as [|e0 before]; simpl in Heq;
          injection Heq as -> ->.
        -- right. by rewrite bool_decide_eq_true_2.
        -- left. exists e'. split; [|done]. by exists before, after.
      * apply Forall_cons in Hall as [Hk Hall]. right.
        by rewrite bool_decide_eq_false_2.
Qed.

Lemma foldl_file_entry_NoDup entries : forall idx,
  NoDup idx.*1 -> NoDup (foldl file_entry idx entries).*1.
Proof.
  induction entries as [|e entries IH]; intros idx Hnd; simpl; [done|].
  apply IH. unfold file_entry. destruct (entry_key e); [|done].
  by apply set_property_NoDup.
Qed.

Lemma directory_index_NoDup : NoDup directory_index.*1.
Proof.
  rewrite directory_index_fold. destruct readdir as [entries|].
  - apply foldl_file_entry_NoDup. constructor.
  - constructor.
Qed.

Lemma entry_key_alnum e k :
  entry_key e = Some k -> k <> [] /\ forallb lower_alnum k = true.
Proof.
  unfold entry_key. destruct (endsWith _ _); [|done].
  destruct (normalizeText _) as [n|] eqn:Hn; [|done].
  destruct (nonempty n) eqn:Hne; [|done]. intros [= <-].
  split; [by apply nonempty_true|by eapply normalizeText_alnum].
Qed.

(** X8. The index after [ensureReportDocsIndex] holds, under each key, the
    path of the last entry of the listing that has this key: of two
    documents whose names normalise to the same key, the one listed later
    is the one that is found. *)
Theorem ensureReportDocsIndex_last_wins (st : State) (entries : list jsstring) :
  readdir = Done entries ->
  reportDocsIndex st = None ->
  exists idx,
    reportDocsIndex (ensureReportDocsIndex st).1 = Some idx
    /\ forall k p,
         own idx k = Some p
         <-> exists e, wins entries k e /\ p = path_join reportsDir e.
Proof.
  intros Hdir Hst. rewrite (ensureReportDocsIndex_fresh st Hst). simpl.
  exists directory_index. split; [done|]. intros k p.
  rewrite directory_index_fold, Hdir, own_foldl_file_entry.
  split; [|by left]. by intros [H|[H _]].
Qed.

(** X9. The keys of the index [ensureReportDocsIndex] builds are pairwise
    distinct, non-empty and made of the units [a-z] and [0-9]; each path is
    the directory joined with an entry of the listing that has this key, so
    no path is the empty string. *)
Theorem directory_index_keys :
  NoDup directory_index.*1
  /\ Forall (fun kp =>
       kp.1 <> []
       /\ Forall (fun c => (97 <= c <= 122 \/ 48 <= c <= 57)%N) kp.1
       /\ kp.2 <> []
       /\ exists entries e,
            readdir = Done entries /\ e ∈ entries
            /\ entry_key e = Some kp.1
            /\ kp.2 = path_join reportsDir e) directory_index.
Proof.
  split; [apply directory_index_NoDup|].
  apply Forall_forall. intros [k p] Hin. simpl.
  apply (elem_own _ _ _ directory_index_NoDup) in Hin.
  rewrite directory_index_fold in Hin.
  destruct readdir as [entries|] eqn:Hdir; [|done].
  apply own_foldl_file_entry in Hin as [(e & Hwins & ->)|[Hin _]]; [|done].
  destruct Hwins as (before & after & -> & Hk & _).
  destruct (entry_key_alnum e k Hk) as [Hne Hal].
  split; [done|]. split.
  { apply Forall_forall. intros c Hc%list_elem_of_In.
    rewrite forallb_forall in Hal. by apply lower_alnum_range, Hal. }
  split; [unfold path_join; by destruct reportsDir|].
  exists (before ++ e :: after), e. split; [done|]. split; [|done].
  apply elem_of_app. right. apply list_elem_of_here.
Qed.

(** X10. [ensureReportDocsIndex] reads the directory once at most: it never
    throws, it leaves the index built, a second call changes nothing, and
    neither call touches the report cache or reads the records source. *)
Theorem ensureReportDocsIndex_once (st : State) :
  let r1 := ensureReportDocsIndex st in
  let r2 := ensureReportDocsIndex r1.1 in
  r1.2 = Ok tt
  /\ reportDocsIndex r1.1 = Some (index_of st)
  /\ r2 = (r1.1, Ok tt)
  /\ reportsCache r1.1 = reportsCache st
  /\ sourceReads r1.1 = sourceReads st
  /\ directoryReads r1.1
     = match reportDocsIndex st with
       | Some _ => directoryReads st
       | None => S (directoryReads st)
       end.
Proof.
  intros r1 r2. subst r2 r1. unfold index_of.
  destruct (reportDocsIndex st) as [idx|] eqn:Hst.
  - rewrite (ensureReportDocsIndex_built st idx Hst). simpl.
    rewrite (ensureReportDocsIndex_built st idx Hst). by rewrite Hst.
  - rewrite (ensureReportDocsIndex_fresh st Hst). simpl.
    by erewrite ensureReportDocsIndex_built.
Qed.

End index_facts.

(** X8 on a listing in which [Foo-Bar.md] and [foobar.MD] have the same
    key. *)
Lemma ensureReportDocsIndex_last_wins_witness :
  exists idx,
    reportDocsIndex
      (@ensureReportDocsIndex sample_platform colliding_world initial_state).1
    = Some idx
    /\ own idx (js "foobar") = Some (js "/srv/data/reports/foobar.MD")
    /\ own idx (js "notes") = None.
Proof.
  destruct (@ensureReportDocsIndex_last_wins sample_platform colliding_world
              initial_state _ eq_refl eq_refl) as (idx & Hidx & Hown).
  exists idx. split; [exact Hidx|]. split.
  - apply Hown. exists (js "foobar.MD"). split; [|reflexivity].
    exists [js "Foo-Bar.md"; js "notes.txt"; js "2024.md"], [].
    split; [reflexivity|]. split; [vm_compute; reflexivity|constructor].
  - destruct (own idx (js "notes")) as [p|] eqn:Hp; [|reflexivity].
    apply Hown in Hp as (e & (before & after & Heq & Hk & _) & _).
    exfalso. revert Hk.
    assert (e ∈ [js "Foo-Bar.md"; js "notes.txt"; js "2024.md"; js "foobar.MD"])
      as He.
    { simpl in Heq. rewrite Heq. apply elem_of_app. right.
      apply list_elem_of_here. }
    repeat (apply elem_of_cons in He as [->|He]; [vm_compute; discriminate|]).
    by apply elem_of_nil in He.
Defined.

(** ** The candidate list *)

Section candidate_list_facts.
Context {P : Platform} {W : World}.

Lemma set_add_NoDup v (s : list JsValue) : NoDup s -> NoDup (set_add v s).
Proof.
  intros H. unfold set_add. case_bool_decide as Hv; [done|].
  apply NoDup_app. split; [done|]. split; [|apply NoDup_singleton].
  intros x Hx Hx'. apply list_elem_of_singleton in Hx'. by subst.
Qed.

Lemma set_add_length v (s : list JsValue) : length (set_add v s) <= S (length s).
Proof.
  unfold set_add. case_bool_decide; [lia|]. rewrite length_app. simpl. lia.
Qed.

Lemma add_repo_segment_NoDup repo (s s' : list JsValue) :
  add_repo_segment repo s = Ok s' ->
  NoDup s -> NoDup s' /\ length s' <= S (length s).
Proof.
  destruct repo as [| | |r| |]; try done. simpl.
  destruct (0 <? _)%nat; intros [= <-] H.
  - split; [by apply set_add_NoDup|apply set_add_length].
  - split; [done|lia].
Qed.

Lemma add_url_variants_NoDup url (s : list JsValue) :
  NoDup s ->
  NoDup (add_url_variants url s) /\ length (add_url_variants url s) <= 2 + length s.
Proof.
  intros H. unfold add_url_variants.
  destruct (pathname_of _) as [pathname|]; [|split; [done|lia]].
  destruct (nonempty pathname); [|split; [done|lia]].
  destruct (nonempty (basename pathname)); [|split; [done|lia]].
  split; [by repeat apply set_add_NoDup|].
  pose proof (set_add_length (VString (strip_extension (basename pathname)))
                (set_add (VString (basename pathname)) s)).
  pose proof (set_add_length (VString (basename pathname)) s). lia.
Qed.

Lemma filter_length_le {A} (f : A -> bool) (l : list A) :
  length (List.filter f l) <= length l.
Proof. induction l as [|x l IH]; simpl; [lia|]. destruct (f x); simpl; lia. Qed.

Lemma filter_NoDup (f : JsValue -> bool) (l : list JsValue) :
  NoDup l -> NoDup (List.filter f l).
Proof.
  induction l as [|x l IH]; simpl; [done|].
  intros [Hx Hl]%NoDup_cons. destruct (f x); [|by apply IH].
  apply NoDup_cons. split; [|by apply IH].
  intros Hin%list_elem_of_In%filter_In. apply Hx, list_elem_of_In, Hin.
Qed.

Lemma buildReportDocCandidates_NoDup report slug candidates :
  buildReportDocCandidates report slug = Ok candidates ->
  NoDup candidates /\ length candidates <= 7
  /\ Forall (fun v => truthy v = true) candidates.
Proof.
  unfold buildReportDocCandidates. cbv zeta.
  set (c0 := if nonempty slug then set_add (VString slug) [] else []).
  assert (NoDup c0 /\ length c0 <= 1) as [N0 L0].
  { subst c0. destruct (nonempty slug).
    - split; [apply set_add_NoDup; constructor|apply set_add_length].
    - split; [constructor|simpl; lia]. }
  set (c1 := if truthy (get report "title")
             then set_add (get report "title") c0 else c0).
  assert (NoDup c1 /\ length c1 <= 2) as [N1 L1].
  { subst c1. destruct (truthy (get report "title")).
    - split; [by apply set_add_NoDup|].
      pose proof (set_add_length (get report "title") c0). lia.
    - split; [done|lia]. }
  destruct (if truthy (get report "github_repo") then _ else _)
    as [c2|e] eqn:E2; [|done].
  assert (NoDup c2 /\ length c2 <= 4) as [N2 L2].
  { destruct (truthy (get report "github_repo")).
    - apply add_repo_segment_NoDup in E2 as [? ?]; [|by apply set_add_NoDup].
      split; [done|].
      pose proof (set_add_length (get report "github_repo") c1). lia.
    - injection E2 as <-. split; [done|lia]. }
  simpl. intros [= <-].
  set (c3 := if truthy (get report "url") then _ else c2).
  assert (NoDup c3 /\ length c3 <= 7) as [N3 L3].
  { subst c3. destruct (truthy (get report "url")).
    - destruct (add_url_variants_NoDup (get report "url")
                  (set_add (get report "url") c2)) as [? ?];
        [by apply set_add_NoDup|].
      split; [done|].
      pose proof (set_add_length (get report "url") c2). lia.
    - split; [done|lia]. }
  split; [by apply filter_NoDup|]. split.
  - pose proof (filter_length_le truthy c3). lia.
  - apply Forall_forall. intros v Hv. by apply elem_of_filter_truthy in Hv as [_ ?].
Qed.

(** X11. For a record whose title, repository and URL are strings or
    absent, [buildReportDocCandidates] returns a list of at most seven
    non-empty strings, no two of which are equal. *)
Theorem buildReportDocCandidates_distinct (report : Obj) (slug : jsstring) :
  textual_record report = true ->
  exists candidates,
    buildReportDocCandidates report slug = Ok candidates
    /\ NoDup candidates
    /\ length candidates <= 7
    /\ Forall (fun v => exists s, v = VString s /\ s <> []) candidates.
Proof.
  intros H.
  destruct (buildReportDocCandidates_textual report slug H) as (c & Hc & Hs).
  destruct (buildReportDocCandidates_NoDup report slug c Hc) as (Hn & Hl & Ht).
  exists c. split; [done|]. split; [done|]. split; [done|].
  apply Forall_forall. intros v Hv.
  rewrite Forall_forall in Hs, Ht. specialize (Hs v Hv). specialize (Ht v Hv).
  destruct v as [| | |s| |]; try done. exists s. split; [done|].
  rewrite truthy_VString in Ht. by apply nonempty_true.
Qed.

Lemma buildReportDocCandidates_throws report slug :
  truthy (get report "github_repo") = true ->
  is_string (get report "github_repo") = false ->
  buildReportDocCandidates report slug = Throw TypeError.
Proof.
  intros Ht Hs. unfold buildReportDocCandidates. cbv zeta. rewrite Ht.
  by destruct (get report "github_repo").
Qed.

(** X12. [buildReportDocCandidates] throws exactly when the repository
    field of the record is truthy and not a string, which has no [split];
    what it throws is a [TypeError]. *)
Theorem buildReportDocCandidates_throws_iff (report : Obj) (slug : jsstring) :
  (exists e, buildReportDocCandidates report slug = Throw e)
  <-> truthy (get report "github_repo") = true
      /\ is_string (get report "github_repo") = false.
Proof.
  split.
  - intros [e He].
    destruct (truthy (get report "github_repo")) eqn:Ht;
      destruct (is_string (get report "github_repo")) eqn:Hs; try done;
      exfalso;
      (destruct (buildReportDocCandidates_elem report slug) as (c & Hc & _);
       [unfold textual; by rewrite ?Hs, ?Ht|congruence]).
  - intros [Ht Hs]. exists TypeError.
    by apply buildReportDocCandidates_throws.
Qed.

Lemma ToString_throws v e : ToString v = Throw e -> e = TypeError.
Proof. destruct v as [| |[]|s|t text|]; simpl; congruence. Qed.

Lemma enrich_with_throws idx o index :
  truthy (get o "github_repo") = true ->
  is_string (get o "github_repo") = false ->
  enrich_with idx (ItemObject o) index = Throw TypeError.
Proof.
  intros Ht Hs. unfold enrich_with, enriched_slug, resolve_with, source_slug.
  cbv zeta.
  destruct (ToString (js_or _ _)) as [text|e] eqn:Htext; simpl;
    [|by rewrite (ToString_throws _ _ Htext)].
  destruct (truthy (slug_source _)); simpl.
  - destruct (ToString (slug_source _)) as [text'|e] eqn:Htext'; simpl;
      [|by rewrite (ToString_throws _ _ Htext')].
    rewrite buildReportDocCandidates_throws; [done| |];
      by rewrite get_insert_ne.
  - rewrite buildReportDocCandidates_throws; [done| |];
      by rewrite get_insert_ne.
Qed.

Lemma mapM_Throw {A B} (f : A -> Result B) (l : list A) i x e :
  l !! i = Some x -> f x = Throw e -> exists e', mapM f l = Throw e'.
Proof.
  revert i. induction l as [|y l IH]; intros i Hi Hx; [done|].
  destruct i as [|i]; simpl in Hi.
  - injection Hi as ->. exists e. simpl. by rewrite Hx.
  - destruct (IH i Hi Hx) as [e' He']. simpl.
    destruct (f y); [|by eexists]. simpl. rewrite He'. by eexists.
Qed.

(** X13. Loading is all or nothing: the cache [ensureReportsLoaded] leaves
    is empty or has one record for each item of the array; and one item
    whose repository field is truthy and not a string leaves the cache
    empty, whatever the other items are, without an exception reaching
    the caller. *)
Theorem ensureReportsLoaded_all_or_nothing (st : State) (items : list JsonItem) :
  readReportsJson = Done (JsonArray items) ->
  reportsCache st = [] ->
  let r := ensureReportsLoaded st in
  r.2 = Ok tt
  /\ (reportsCache r.1 = [] \/ length (reportsCache r.1) = length items)
  /\ (forall i o,
        items !! i = Some (ItemObject o) ->
        truthy (get o "github_repo") = true ->
        is_string (get o "github_repo") = false ->
        reportsCache r.1 = []).
Proof.
  intros Hsrc Hst r. subst r.
  destruct (ensureReportsLoaded_empty st Hst) as (st' & -> & Hc & _).
  simpl. rewrite Hc. unfold loaded_cache, reports_array. rewrite Hsrc.
  split; [done|]. split.
  - destruct (mapM _ _) as [cache|e] eqn:Hm; [|by left]. right.
    apply mapM_Ok_length in Hm. by rewrite Hm, length_imap.
  - intros i o Hi Ht Hs.
    destruct (mapM_Throw (fun '(index, item) => enrich_with (index_of st) item index)
                (imap pair items) i (i, ItemObject o) TypeError) as [e' ->];
      [|by apply enrich_with_throws|done].
    by rewrite list_lookup_imap, Hi.
Qed.

End candidate_list_facts.

(** X11 on a record whose title and URL give the same file name. *)
Lemma buildReportDocCandidates_distinct_witness :
  exists candidates,
    @buildReportDocCandidates sample_platform
      (record [("title", "report"); ("url", "https://host/a/report")]%string) []
    = Ok candidates
    /\ NoDup candidates /\ length candidates <= 7.
Proof.
  destruct (@buildReportDocCandidates_distinct sample_platform
              (record [("title", "report"); ("url", "https://host/a/report")]%string)
              []) as (c & Hc & Hn & Hl & _); [vm_compute; reflexivity|].
  exists c. split; [exact Hc|]. split; [exact Hn|exact Hl].
Defined.

(** X13 on two records, the second of which has the number 42 as its
    repository. *)
Lemma ensureReportsLoaded_all_or_nothing_witness :
  (@ensureReportsLoaded sample_platform poisoned_world initial_state).2 = Ok tt
  /\ reportsCache
       (@ensureReportsLoaded sample_platform poisoned_world initial_state).1 = [].
Proof.
  destruct (@ensureReportsLoaded_all_or_nothing sample_platform poisoned_world
              initial_state _ eq_refl eq_refl) as (Hr & _ & Hp).
  split; [exact Hr|].
  apply (Hp 1 (<[js "github_repo" := VOther true (js "42")]> ∅)).
  - reflexivity.
  - vm_compute; reflexivity.
  - vm_compute; reflexivity.
Defined.

(** ** What the two matchers can return *)

Section matcher_facts.
Context {P : Platform}.

Lemma score_entry_stored idx normalized best entry :
  entry ∈ idx ->
  best.1 = VNull \/ stored idx best.1 ->
  (score_entry normalized best entry).1 = VNull
  \/ stored idx (score_entry normalized best entry).1.
Proof.
  intros Hin Hbest. destruct best as [bestPath bestSimilarity].
  destruct entry as [key value]. unfold score_entry.
  destruct (_ <? _)%float; [|done].
  right. by exists key, value.
Qed.

Lemma foldl_score_entry_stored idx normalized entries : forall best,
  (forall e, e ∈ entries -> e ∈ idx) ->
  best.1 = VNull \/ stored idx best.1 ->
  (foldl (score_entry normalized) best entries).1 = VNull
  \/ stored idx (foldl (score_entry normalized) best entries).1.
Proof.
  induction entries as [|e entries IH]; intros best Hsub Hbest; simpl; [done|].
  apply IH.
  - intros e' He'. apply Hsub. by apply list_elem_of_further.
  - apply score_entry_stored; [|done]. apply Hsub, list_elem_of_here.
Qed.

Lemma scan_candidates_sound idx candidates : forall best r,
  best.1 = VNull \/ stored idx best.1 ->
  scan_candidates idx best candidates = Ok r ->
  match r with
  | inl found =>
      truthy found = true
      /\ exists c n,
           c ∈ candidates /\ normalizeText c = Ok n /\ n <> []
           /\ found = index_get idx n
  | inr b => b.1 = VNull \/ stored idx b.1
  end.
Proof.
  induction candidates as [|c candidates IH]; intros best r Hbest; simpl.
  - by intros [= <-].
  - destruct (normalizeText c) as [n|e] eqn:Hn; [|done]. simpl.
    destruct (nonempty n) eqn:Hne; simpl.
    + destruct (truthy (index_get idx n)) eqn:Ht.
      * intros [= <-]. split; [done|]. exists c, n.
        split; [apply list_elem_of_here|]. split; [done|].
        split; [by apply nonempty_true|done].
      * intros H. apply IH in H; [|by apply foldl_score_entry_stored].
        destruct r as [found|b]; [|done].
        destruct H as (Hf & c' & n' & Hc' & H').
        split; [done|]. exists c', n'. split; [|done].
        by apply list_elem_of_further.
    + intros H. apply IH in H; [|done].
      destruct r as [found|b]; [|done].
      destruct H as (Hf & c' & n' & Hc' & H').
      split; [done|]. exists c', n'. split; [|done].
      by apply list_elem_of_further.
Qed.

(** X14. What [findDocPathForCandidates] returns over a built index is
    [null], or a non-empty path stored in the index, or, when a candidate
    normalises to [constructor] and the index has no such key, the function
    [Object] that the index object inherits; nothing else. *)
Theorem findDocPathForCandidates_sound (idx : Index)
    (candidates : list JsValue) (v : JsValue) :
  findDocPathForCandidates (Some idx) candidates = Ok v ->
  v = VNull
  \/ (exists k p, (k, p) ∈ idx /\ p <> [] /\ v = VString p)
  \/ (v = object_function
      /\ own idx (js "constructor") = None
      /\ exists c, c ∈ candidates /\ normalizeText c = Ok (js "constructor")).
Proof.
  unfold findDocPathForCandidates.
  destruct (scan_candidates idx (VNull, 0%float) candidates) as [r|e] eqn:Hs;
    [|done].
  apply scan_candidates_sound in Hs; [|by left]. simpl.
  destruct r as [found|[bestPath bestSimilarity]]; intros [= <-].
  - destruct Hs as (Ht & c & n & Hc & Hn & Hne & ->).
    unfold index_get in *. destruct (own idx n) as [p|] eqn:Hown.
    + right. left. exists n, p. split; [by apply own_Some_elem|].
      split; [|done]. rewrite truthy_VString in Ht. by apply nonempty_true.
    + right. right.
      destruct (decide (n = js "constructor")) as [->|Hcon].
      * split; [done|]. split; [done|]. by exists c.
      * rewrite object_prototype_alnum in Ht; [done| |done].
        by eapply normalizeText_alnum.
  - unfold accept_path. simpl in Hs.
    destruct (truthy bestPath) eqn:Ht; simpl; [|by left].
    destruct (_ <=? _)%float; [|by left].
    destruct Hs as [->|(k & p & Hin & ->)]; [done|].
    right. left. exists k, p. split; [done|]. split; [|done].
    rewrite truthy_VString in Ht. by apply nonempty_true.
Qed.

Lemma score_candidate_cases normalizedQuery report best candidate :
  score_candidate normalizedQuery report best candidate = best
  \/ (score_candidate normalizedQuery report best candidate).1 = Some report.
Proof.
  destruct best as [bestMatch bestScore]. unfold score_candidate.
  destruct (negb (nonempty candidate)); [by left|].
  destruct (_ || _); destruct (_ <? _)%float; auto.
Qed.

Lemma foldl_score_candidate_cases normalizedQuery report candidates :
  forall best,
    foldl (score_candidate normalizedQuery report) best candidates = best
    \/ (candidates <> []
        /\ (foldl (score_candidate normalizedQuery report) best candidates).1
           = Some report).
Proof.
  induction candidates as [|c candidates IH]; intros best; simpl; [by left|].
  destruct (IH (score_candidate normalizedQuery report best c)) as [->|[_ H]].
  - destruct (score_candidate_cases normalizedQuery report best c) as [->|H];
      [by left|by right].
  - by right.
Qed.

Lemma mapM_nil_inv {A B} (f : A -> Result B) (l : list A) :
  mapM f l = Ok [] -> l = [].
Proof.
  destruct l as [|x l]; [done|]. simpl. destruct (f x); [|done]. simpl.
  by destruct (mapM f l).
Qed.

Lemma score_report_best_of cache normalizedQuery best report best' :
  report ∈ cache ->
  best_of cache best ->
  score_report normalizedQuery best report = Ok best' ->
  best_of cache best'.
Proof.
  intros Hin Hbest. unfold score_report.
  destruct (mapM normalizeText _) as [candidates|e] eqn:Hm; [|done].
  simpl. intros [= <-].
  destruct (foldl_score_candidate_cases normalizedQuery report candidates best)
    as [->|[Hne H]]; [done|].
  unfold best_of. rewrite H. split; [done|].
  destruct (truthy (get report "title")) eqn:Ht; [done|].
  destruct (truthy (get report "github_repo")) eqn:Hg; [done|].
  destruct (truthy (get report "url")) eqn:Hu; [done|].
  simpl in Hm. rewrite Ht, Hg, Hu in Hm. simpl in Hm. by injection Hm as <-.
Qed.

Lemma best_report_best_of cache normalizedQuery reports : forall best best',
  (forall r, r ∈ reports -> r ∈ cache) ->
  best_of cache best ->
  foldM (score_report normalizedQuery) best reports = Ok best' ->
  best_of cache best'.
Proof.
  induction reports as [|r reports IH]; intros best best' Hsub Hbest; simpl.
  - by intros [= <-].
  - destruct (score_report normalizedQuery best r) as [b|e] eqn:Hr; [|done].
    simpl. apply IH.
    + intros r' Hr'. by apply Hsub, list_elem_of_further.
    + eapply score_report_best_of; [|done..]. apply Hsub, list_elem_of_here.
Qed.

(** X15. A match [findBestReportMatch] returns is a record of the cache,
    never [null]; one of its title, repository and URL is truthy; its score
    is not below the cutoff; and the query did not normalise to the empty
    string. *)
Theorem findBestReportMatch_sound (cache : list Obj) (query : jsstring)
    (m : Match) :
  findBestReportMatch cache query = Ok (Some m) ->
  (exists r,
     report m = Some r /\ r ∈ cache
     /\ (truthy (get r "title") || truthy (get r "github_repo")
         || truthy (get r "url")) = true)
  /\ (score m <? threshold_query)%float = false
  /\ exists n, normalizeText (VString query) = Ok n /\ n <> [].
Proof.
  unfold findBestReportMatch.
  destruct (normalizeText (VString query)) as [n|e] eqn:Hn; [|done]. simpl.
  destruct (nonempty n) eqn:Hne; [|done]. simpl.
  destruct (best_report cache n) as [[bestMatch bestScore]|e] eqn:Hb; [|done].
  simpl. destruct (bestScore <? threshold_query)%float eqn:Hlt; [done|].
  intros [= <-]. simpl.
  apply best_report_best_of with (cache := cache) in Hb; [|done|done].
  unfold best_of in Hb. simpl in Hb.
  destruct bestMatch as [r|].
  - split; [by exists r|]. split; [done|]. exists n.
    split; [done|by apply nonempty_true].
  - subst bestScore. by vm_compute in Hlt.
Qed.

Lemma mapM_normalizeText_throws (l : list JsValue) :
  Forall (fun v => truthy v = true) l ->
  Exists (fun v => is_string v = false) l ->
  mapM normalizeText l = Throw TypeError.
Proof.
  induction l as [|v l IH]; intros Ht Hx; [by apply Exists_nil in Hx|].
  apply Forall_cons in Ht as [Hv Ht]. simpl.
  destruct (is_string v) eqn:Hs.
  - destruct (normalizeText_is_string v Hs) as [n ->]. simpl.
    apply Exists_cons in Hx as [Hx|Hx]; [congruence|].
    by rewrite (IH Ht Hx).
  - unfold normalizeText. rewrite Hv. by destruct v.
Qed.

Lemma score_report_textual normalizedQuery best r :
  textual_record r = true ->
  exists best', score_report normalizedQuery best r = Ok best'.
Proof.
  unfold textual_record. intros [[Ht Hg]%andb_prop Hu]%andb_prop.
  unfold score_report.
  destruct (mapM_Ok_total normalizeText
              (List.filter truthy
                 [get r "title"; get r "github_repo"; get r "url"]))
    as [k ->]; [|by eexists].
  apply Forall_forall. intros v Hv. apply normalizeText_is_string.
  apply elem_of_filter_truthy in Hv as [Hv Htr].
  apply textual_truthy; [|done].
  repeat (apply elem_of_cons in Hv as [->|Hv]; [done|]).
  by apply elem_of_nil in Hv.
Qed.

Lemma textual_false v :
  textual v = false -> is_string v = false /\ truthy v = true.
Proof. unfold textual. by destruct (is_string v), (truthy v). Qed.

Lemma textual_record_false r :
  textual_record r = false ->
  exists v,
    v ∈ [get r "title"; get r "github_repo"; get r "url"]
    /\ textual v = false.
Proof.
  unfold textual_record.
  destruct (textual (get r "title")) eqn:Ht;
    [destruct (textual (get r "github_repo")) eqn:Hg;
       [destruct (textual (get r "url")) eqn:Hu; [done|]|]|];
    intros _; eexists; (split; [|done]); rewrite !elem_of_cons; auto.
Qed.

Lemma score_report_throws normalizedQuery best r :
  textual_record r = false ->
  score_report normalizedQuery best r = Throw TypeError.
Proof.
  intros (v & Hv & [Hs Ht]%textual_false)%textual_record_false.
  unfold score_report. rewrite mapM_normalizeText_throws; [done| |].
  - apply Forall_forall. intros w Hw.
    by apply elem_of_filter_truthy in Hw as [_ ?].
  - apply Exists_exists. exists v. split; [|done].
    by apply elem_of_filter_truthy.
Qed.

Lemma best_report_textual normalizedQuery cache : forall best,
  Forall (fun r => textual_record r = true) cache ->
  exists best', foldM (score_report normalizedQuery) best cache = Ok best'.
Proof.
  induction cache as [|r cache IH]; intros best H; simpl; [by eexists|].
  apply Forall_cons in H as [Hr H].
  destruct (score_report_textual normalizedQuery best r Hr) as [b ->].
  simpl. by apply IH.
Qed.

Lemma best_report_throws normalizedQuery cache : forall best,
  Exists (fun r => textual_record r = false) cache ->
  foldM (score_report normalizedQuery) best cache = Throw TypeError.
Proof.
  induction cache as [|r cache IH]; intros best H; simpl;
    [by apply Exists_nil in H|].
  destruct (textual_record r) eqn:Hr.
  - destruct (score_report_textual normalizedQuery best r Hr) as [b ->].
    simpl. apply IH. apply Exists_cons in H as [H|H]; [congruence|done].
  - by rewrite score_report_throws.
Qed.

(** X16. For a query that does not normalise to the empty string,
    [findBestReportMatch] throws exactly when the cache holds a record one
    of whose title, repository and URL is truthy and not a string; what it
    throws is a [TypeError]. Over a cache without such a record it returns
    for every query. *)
Theorem findBestReportMatch_throws_iff (cache : list Obj) (query n : jsstring) :
  normalizeText (VString query) = Ok n ->
  n <> [] ->
  (findBestReportMatch cache query = Throw TypeError
   <-> Exists (fun r => textual_record r = false) cache)
  /\ ((exists found, findBestReportMatch cache query = Ok found)
      <-> Forall (fun r => textual_record r = true) cache).
Proof.
  intros Hn Hne%nonempty_true. unfold findBestReportMatch, best_report.
  rewrite Hn. simpl. rewrite Hne. simpl.
  destruct (decide (Forall (fun r => textual_record r = true) cache))
    as [Hall|Hnot].
  - destruct (best_report_textual n cache (None, neg_infinity) Hall)
      as [[bestMatch bestScore] ->]. simpl.
    split.
    + split; [by destruct (_ <? _)%float|].
      intros Hex. exfalso. apply Exists_exists in Hex as (r & Hr & Hf).
      rewrite Forall_forall in Hall. specialize (Hall r Hr). congruence.
    + split; [done|]. intros _. destruct (_ <? _)%float; by eexists.
  - assert (Exists (fun r => textual_record r = false) cache) as Hex.
    { apply not_Forall_Exists in Hnot; [|intros r; apply _].
      eapply Exists_impl; [exact Hnot|]. intros r Hr. simpl in Hr.
      by destruct (textual_record r). }
    rewrite (best_report_throws n cache _ Hex). simpl.
    split; [by split|]. split; [by intros [found ?]|done].
Qed.

End matcher_facts.

(** X14 on the index of one document and the candidate [Foo Bar]. *)
Lemma findDocPathForCandidates_sound_witness :
  let idx := [(js "foobar", js "/srv/data/reports/foo-bar.md")] in
  let v := VString (js "/srv/data/reports/foo-bar.md") in
  @findDocPathForCandidates sample_platform (Some idx) [VString (js "Foo Bar")]
    = Ok v
  /\ (v = VNull
      \/ (exists k p, (k, p) ∈ idx /\ p <> [] /\ v = VString p)
      \/ (v = object_function
          /\ own idx (js "constructor") = None
          /\ exists c,
               c ∈ [VString (js "Foo Bar")]
               /\ @normalizeText sample_platform c = Ok (js "constructor"))).
Proof.
  intros idx v.
  assert (@findDocPathForCandidates sample_platform (Some idx)
            [VString (js "Foo Bar")] = Ok v) as H by (vm_compute; reflexivity).
  split; [exact H|].
  exact (@findDocPathForCandidates_sound sample_platform idx _ v H).
Defined.

(** X15 on a cache of one record and a query that matches it at the
    cutoff. *)
Lemma findBestReportMatch_sound_witness :
  let r := record [("title", "abcdefghijklmnopqrst")]%string in
  exists r',
    Some r = Some r' /\ r' ∈ [r]
    /\ (truthy (get r' "title") || truthy (get r' "github_repo")
        || truthy (get r' "url")) = true.
Proof.
  intros r.
  exact (proj1 (@findBestReportMatch_sound sample_platform [r] (js "abcdefghi")
                  {| report := Some r; score := threshold_query |}
                  ltac:(vm_compute; reflexivity))).
Defined.

(** X16 on a cache whose only record has the number 42 as its title. *)
Lemma findBestReportMatch_throws_iff_witness :
  @findBestReportMatch sample_platform
    [<[js "title" := VOther true (js "42")]> ∅] (js "abc")
  = Throw TypeError.
Proof.
  apply (proj1 (@findBestReportMatch_throws_iff sample_platform
                  [<[js "title" := VOther true (js "42")]> ∅] (js "abc")
                  (js "abc") ltac:(vm_compute; reflexivity)
                  ltac:(discriminate))).
  apply Exists_cons_hd. vm_compute. reflexivity.
Defined.

(** ** The records of the loaded cache *)

Section load_facts.
Context {P : Platform} {W : World}.

Lemma loaded_cache_lookup idx index r :
  loaded_cache idx !! index = Some r ->
  exists item,
    reports_array !! index = Some item /\ enrich_with idx item index = Ok r.
Proof.
  unfold loaded_cache. destruct readReportsJson as [parsed|];
    [|by rewrite lookup_nil].
  destruct (mapM _ _) as [cache|e] eqn:Hm; [|by rewrite lookup_nil].
  intros Hr.
  destruct (mapM_Ok_lookup _ _ _ Hm index r Hr) as ([index' item] & Hx & Hf).
  rewrite list_lookup_imap in Hx.
  destruct (reports_array !! index) as [item'|] eqn:Hi; [|done].
  simpl in Hx. injection Hx as <- <-. by exists item'.
Qed.

Lemma truthy_js_or_null v : truthy (js_or v VNull) = truthy v.
Proof. unfold js_or. by destruct (truthy v) eqn:E. Qed.

Lemma enrich_with_frame idx item index r :
  enrich_with idx item index = Ok r ->
  let base := match item with ItemObject o => o | ItemOther => ∅ end in
  (forall k,
     k <> js "slug" -> k <> js "explanationPath" -> k <> js "hasExplanation" ->
     r !! k = base !! k)
  /\ exists slug path,
       enriched_slug item index = Ok slug
       /\ get r "slug" = VString slug
       /\ resolve_with idx (<[js "slug" := VString slug]> base) = Ok path
       /\ get r "explanationPath" = js_or path VNull
       /\ get r "hasExplanation" = VBool (truthy path).
Proof.
  intros H base. unfold enrich_with in H. fold base in H.
  destruct (enriched_slug item index) as [slug|e]; [|done]. simpl in H.
  destruct (resolve_with idx _) as [path|e] eqn:Hp; [|done].
  simpl in H. injection H as <-. split.
  - intros k Hs He Hh. by rewrite !lookup_insert_ne.
  - exists slug, path. split; [done|]. split.
    { rewrite !get_insert_ne by done. apply get_insert_eq. }
    split; [done|]. split.
    + by rewrite get_insert_ne, get_insert_eq.
    + by rewrite get_insert_eq.
Qed.

Lemma get_frame (r base : Obj) (k : string) :
  r !! js k = base !! js k -> get r k = get base k.
Proof. unfold get. by intros ->. Qed.

Lemma textual_record_fields (r base : Obj) :
  get r "title" = get base "title" ->
  get r "github_repo" = get base "github_repo" ->
  get r "url" = get base "url" ->
  textual_record r = textual_record base.
Proof. unfold textual_record. by intros -> -> ->. Qed.

Lemma buildReportDocCandidates_fields (r base : Obj) slug :
  get r "title" = get base "title" ->
  get r "github_repo" = get base "github_repo" ->
  get r "url" = get base "url" ->
  buildReportDocCandidates r slug = buildReportDocCandidates base slug.
Proof. unfold buildReportDocCandidates. by intros -> -> ->. Qed.

Lemma resolve_with_fields (idx : Index) (r base : Obj) :
  get r "slug" = get base "slug" ->
  get r "title" = get base "title" ->
  get r "github_repo" = get base "github_repo" ->
  get r "url" = get base "url" ->
  resolve_with idx r = resolve_with idx base.
Proof.
  intros Hs Ht Hg Hu. unfold resolve_with, slug_source.
  rewrite Hs, Ht, Hg, Hu.
  destruct (source_slug _) as [slug|e]; [|done]. simpl.
  by rewrite (buildReportDocCandidates_fields r base _ Ht Hg Hu).
Qed.

Lemma enrich_with_fields idx item index r :
  enrich_with idx item index = Ok r ->
  let base := match item with ItemObject o => o | ItemOther => ∅ end in
  get r "title" = get base "title"
  /\ get r "github_repo" = get base "github_repo"
  /\ get r "url" = get base "url".
Proof.
  intros H base. destruct (enrich_with_frame idx item index r H) as [Hf _].
  fold base in Hf. repeat split; apply get_frame, Hf; done.
Qed.

Lemma loaded_cache_textual idx :
  forallb textual_item reports_array = true ->
  Forall (fun r => textual_record r = true) (loaded_cache idx).
Proof.
  intros Ht. apply Forall_forall. intros r Hr.
  apply list_elem_of_lookup in Hr as [i Hi].
  apply loaded_cache_lookup in Hi as (item & Hitem & He).
  destruct (enrich_with_fields idx item i r He) as (H1 & H2 & H3).
  rewrite (textual_record_fields r _ H1 H2 H3).
  rewrite forallb_forall in Ht.
  assert (textual_item item = true) as Hitem'.
  { apply Ht, list_elem_of_In, list_elem_of_lookup. eauto. }
  by destruct item.
Qed.

(** X17. A record of the cache that [ensureReportsLoaded] fills keeps every
    field of its item other than [slug], [explanationPath] and
    [hasExplanation]; its [explanationPath] is [null] or truthy, never
    [undefined]; and [hasExplanation] is the truthiness of
    [explanationPath]. *)
Theorem ensureReportsLoaded_frame (st : State) (index : nat) (r : Obj) :
  reportsCache st = [] ->
  reportsCache (ensureReportsLoaded st).1 !! index = Some r ->
  exists item,
    reports_array !! index = Some item
    /\ (forall k,
          k <> js "slug" -> k <> js "explanationPath" ->
          k <> js "hasExplanation" ->
          r !! k = match item with ItemObject o => o | ItemOther => ∅ end !! k)
    /\ (get r "explanationPath" = VNull
        \/ truthy (get r "explanationPath") = true)
    /\ get r "hasExplanation" = VBool (truthy (get r "explanationPath")).
Proof.
  intros Hst.
  destruct (ensureReportsLoaded_empty st Hst) as (st' & -> & Hc & _).
  simpl. rewrite Hc. intros Hr.
  apply loaded_cache_lookup in Hr as (item & Hitem & He).
  exists item. split; [done|].
  destruct (enrich_with_frame _ _ _ _ He)
    as (Hf & slug & path & _ & _ & _ & Hp & Hh).
  split; [exact Hf|]. rewrite Hp, Hh, truthy_js_or_null. split; [|done].
  unfold js_or. destruct (truthy path) eqn:Ht; [by right|by left].
Qed.

(** X18. Resolving a record of the loaded cache again gives what was
    resolved when it was loaded: the state is not changed, and the result
    is the cached [explanationPath], [null] standing for any falsy result.
    So the second resolution of the explain endpoint never finds a
    document for a record that was cached without one. *)
Theorem resolveExplanationPath_again (st : State) (index : nat) (r : Obj) :
  reportsCache st = [] ->
  let st' := (ensureReportsLoaded st).1 in
  reportsCache st' !! index = Some r ->
  exists path,
    resolveExplanationPath r st' = (st', Ok path)
    /\ get r "explanationPath" = js_or path VNull.
Proof.
  intros Hst st'. subst st'.
  destruct (ensureReportsLoaded_empty st Hst) as (st' & -> & Hc & _ & _ & Hidx).
  simpl. rewrite Hc. intros Hr.
  assert (reportDocsIndex st' = Some (index_of st)) as Hbuilt.
  { destruct Hidx as [Hf|[Hf|Hidx]]; [| |done];
      unfold loaded_cache in Hr; rewrite Hf in Hr; by rewrite lookup_nil in Hr. }
  apply loaded_cache_lookup in Hr as (item & Hitem & He).
  destruct (enrich_with_frame _ _ _ _ He)
    as (Hf & slug & path & _ & Hget & Hpath & Hp & _).
  destruct (enrich_with_fields _ _ _ _ He) as (H1 & H2 & H3).
  exists path. split; [|done].
  rewrite (resolveExplanationPath_built st' _ r Hbuilt). f_equal.
  rewrite <- Hpath. apply resolve_with_fields.
  - by rewrite get_insert_eq.
  - by rewrite get_insert_ne.
  - by rewrite get_insert_ne.
  - by rewrite get_insert_ne.
Qed.

End load_facts.

(** X17 on the second record of the sample source. *)
Lemma ensureReportsLoaded_frame_witness :
  let cache :=
    reportsCache
      (@ensureReportsLoaded sample_platform sample_world initial_state).1 in
  exists r,
    cache !! 1 = Some r
    /\ r !! js "title" = Some (VString (js "Foo Bar"))
    /\ get r "hasExplanation" = VBool (truthy (get r "explanationPath")).
Proof.
  intros cache.
  assert (length cache = 3) as Hlen by (vm_compute; reflexivity).
  destruct (lookup_lt_is_Some_2 cache 1) as [r Hr]; [rewrite Hlen; lia|].
  destruct (@ensureReportsLoaded_frame sample_platform sample_world
              initial_state 1 r eq_refl Hr) as (item & Hitem & Hf & _ & Hh).
  change (Some (ItemObject (record [("title", "Foo Bar")]%string)) = Some item)
    in Hitem.
  injection Hitem as <-.
  exists r. split; [exact Hr|]. split; [|exact Hh].
  rewrite Hf; [vm_compute; reflexivity|discriminate..].
Defined.

(** X18 on the second record of the sample source. *)
Lemma resolveExplanationPath_again_witness :
  let st' := (@ensureReportsLoaded sample_platform sample_world initial_state).1 in
  exists r path,
    reportsCache st' !! 1 = Some r
    /\ @resolveExplanationPath sample_platform sample_world r st' = (st', Ok path)
    /\ get r "explanationPath" = js_or path VNull.
Proof.
  intros st'.
  assert (length (reportsCache st') = 3) as Hlen by (vm_compute; reflexivity).
  destruct (lookup_lt_is_Some_2 (reportsCache st') 1) as [r Hr];
    [rewrite Hlen; lia|].
  destruct (@resolveExplanationPath_again sample_platform sample_world
              initial_state 1 r eq_refl Hr) as (path & Hres & Hp).
  exists r, path. split; [exact Hr|]. split; [exact Hres|exact Hp].
Defined.

(** ** The two endpoints *)

Section endpoint_facts.
Context {P : Platform} {W : World}.

Lemma ensureReportsLoaded_ok st :
  ensureReportsLoaded st = ((ensureReportsLoaded st).1, Ok tt).
Proof.
  destruct (reportsCache st) as [|r cache] eqn:Hc.
  - by destruct (ensureReportsLoaded_empty st Hc) as (st' & -> & _).
  - rewrite ensureReportsLoaded_loaded; [done|]. by rewrite Hc.
Qed.

Lemma search_handler_unfold q st :
  search_handler q st =
  match js_trim (js_or q (VString [])) with
  | Throw _ => (st, Ok (ErrorStatus 500))
  | Ok query =>
      if negb (nonempty query) then (st, Ok (ErrorStatus 400))
      else
        let st' := (ensureReportsLoaded st).1 in
        (st',
         Ok match findBestReportMatch (reportsCache st') query with
            | Throw _ => ErrorStatus 500
            | Ok None => NoMatch
            | Ok (Some m) => SearchMatch (sanitizeReport (report m)) (score m)
            end)
  end.
Proof.
  unfold search_handler, try_catch. rewrite bind_unfold. unfold lift at 1.
  destruct (js_trim _) as [query|e]; simpl; [|done].
  destruct (nonempty query); simpl; [|done].
  rewrite bind_unfold, ensureReportsLoaded_ok. simpl.
  rewrite bind_unfold. simpl. rewrite bind_unfold. unfold lift.
  by destruct (findBestReportMatch _ _) as [[m|]|e].
Qed.

Lemma explain_handler_unfold slug st :
  explain_handler slug st =
  let st1 := (ensureReportsLoaded st).1 in
  match normalizeText (VString slug) with
  | Throw _ => (st1, Ok (ErrorStatus 500))
  | Ok normalizedSlug =>
      match find_by_slug normalizedSlug (reportsCache st1) with
      | Throw _ => (st1, Ok (ErrorStatus 500))
      | Ok None => (st1, Ok (ErrorStatus 404))
      | Ok (Some r) =>
          let resolved :=
            if truthy (get r "explanationPath")
            then (st1, Ok (get r "explanationPath"))
            else resolveExplanationPath r st1 in
          match resolved.2 with
          | Throw _ => (resolved.1, Ok (ErrorStatus 500))
          | Ok path =>
              if negb (truthy path) then (resolved.1, Ok NoExplanation)
              else match readFile path with
                   | Done markdown =>
                       (resolved.1,
                        Ok (Explanation (sanitizeReport (Some r)) markdown))
                   | Failed _ => (resolved.1, Ok (ErrorStatus 500))
                   end
          end
      end
  end.
Proof.
  unfold explain_handler, try_catch.
  rewrite bind_unfold, ensureReportsLoaded_ok. simpl.
  rewrite bind_unfold. unfold lift at 1.
  destruct (normalizeText _) as [normalizedSlug|e]; simpl; [|done].
  rewrite bind_unfold. simpl. rewrite bind_unfold. unfold lift at 1.
  destruct (find_by_slug _ _) as [[r|]|e]; simpl; [|done|done].
  rewrite bind_unfold.
  destruct (truthy (get r "explanationPath")) eqn:Ht; simpl.
  - rewrite Ht. simpl. rewrite bind_unfold. unfold lift, read_markdown.
    by destruct (readFile _).
  - destruct (resolveExplanationPath r _) as [st2 [v|e]]; simpl; [|done].
    destruct (truthy v); simpl; [|done].
    rewrite bind_unfold. unfold lift, read_markdown.
    by destruct (readFile _).
Qed.

Lemma drop_spaces_nil s : drop_spaces s = [] <-> forallb is_space s = true.
Proof.
  induction s as [|c s IH]; simpl; [done|].
  destruct (is_space c); simpl; [done|]. split; discriminate.
Qed.

Lemma drop_spaces_head s c s' : drop_spaces s = c :: s' -> is_space c = false.
Proof.
  induction s as [|x s IH]; simpl; [done|].
  destruct (is_space x) eqn:Hx; [done|]. by intros [= <- _].
Qed.

Lemma drop_spaces_snoc l c :
  is_space c = false -> drop_spaces (l ++ [c]) <> [].
Proof.
  intros Hc. induction l as [|x l IH]; simpl.
  - by rewrite Hc.
  - by destruct (is_space x).
Qed.

Lemma js_trim_blank s :
  js_trim (VString s) = Ok [] <-> forallb is_space s = true.
Proof.
  simpl. rewrite <- drop_spaces_nil. split.
  - intros [= H]. destruct (drop_spaces s) as [|c s'] eqn:Hs; [done|].
    exfalso. apply drop_spaces_head in Hs. simpl in H.
    apply (f_equal (@rev N)) in H. rewrite rev_involutive in H. simpl in H.
    by apply (drop_spaces_snoc (rev s') c).
  - by intros ->.
Qed.

(** X19. The search endpoint answers 400 exactly when [q] is falsy or a
    string of white space only, and 500 when [q] is truthy and not a string;
    in both cases nothing is loaded and the state is not changed. *)
Theorem search_handler_rejects (q : JsValue) (st : State) :
  ((search_handler q st).2 = Ok (ErrorStatus 400)
   <-> truthy q = false
       \/ exists s, q = VString s /\ forallb is_space s = true)
  /\ ((search_handler q st).2 = Ok (ErrorStatus 400) ->
      (search_handler q st).1 = st)
  /\ (truthy q = true -> is_string q = false ->
      search_handler q st = (st, Ok (ErrorStatus 500))).
Proof.
  rewrite search_handler_unfold.
  assert (forall query, nonempty query = true ->
            (let st' := (ensureReportsLoaded st).1 in
             (st',
              Ok match findBestReportMatch (reportsCache st') query with
                 | Throw _ => ErrorStatus 500
                 | Ok None => NoMatch
                 | Ok (Some m) =>
                     SearchMatch (sanitizeReport (report m)) (score m)
                 end)).2 <> Ok (ErrorStatus 400)) as Hother.
  { intros query _. simpl. by destruct (findBestReportMatch _ _) as [[m|]|e]. }
  destruct (truthy q) eqn:Ht.
  - rewrite (js_or_truthy q _ Ht). destruct q as [| |b|s|t text|]; try done.
    + simpl js_trim. split; [|by split]. split; [done|].
      intros [?|(s & ? & _)]; done.
    + pose proof (js_trim_blank s) as Hb.
      destruct (js_trim (VString s)) as [query|e] eqn:Hq; [|done].
      destruct (nonempty query) eqn:Hne; simpl negb; cbv iota.
      * split; [|split; [|done]].
        -- split; [by intros H%Hother|].
           intros [?|(s' & [= <-] & Hs)]; [done|].
           apply Hb in Hs. injection Hs as ->. done.
        -- by intros H%Hother.
      * assert (query = []) as -> by (by destruct query).
        split; [|by split]. split; [|done]. intros _. right. exists s.
        split; [done|]. by apply Hb.
    + simpl js_trim. split; [|by split]. split; [done|].
      intros [?|(s & ? & _)]; done.
    + simpl js_trim. split; [|by split]. split; [done|].
      intros [?|(s & ? & _)]; done.
  - rewrite (js_or_falsy q _ Ht). simpl. split; [|by split].
    split; [by left|done].
Qed.

End endpoint_facts.

Section endpoint_composition.
Context {P : Platform} {W : World}.

Lemma js_trim_string s : exists query, js_trim (VString s) = Ok query.
Proof. by eexists. Qed.

Lemma findBestReportMatch_textual cache query :
  Forall (fun r => textual_record r = true) cache ->
  exists found, findBestReportMatch cache query = Ok found.
Proof.
  intros H. unfold findBestReportMatch, best_report.
  destruct (normalizeText_string query) as [n ->]. simpl.
  destruct (nonempty n); simpl; [|by eexists].
  destruct (best_report_textual n cache (None, neg_infinity) H)
    as [[bestMatch bestScore] ->]. simpl.
  destruct (_ <? _)%float; by eexists.
Qed.

(** X20. When every item of the records source has strings (or nothing)
    as title, repository and URL, the search endpoint, started with an
    empty cache, never answers 500 to a query that is a string. *)
Theorem search_handler_textual (st : State) (s : jsstring) :
  reportsCache st = [] ->
  forallb textual_item reports_array = true ->
  (search_handler (VString s) st).2 <> Ok (ErrorStatus 500).
Proof.
  intros Hst Ht. rewrite search_handler_unfold.
  assert (js_or (VString s) (VString []) = VString s
          \/ js_or (VString s) (VString []) = VString []) as [->| ->].
  { unfold js_or. destruct (truthy (VString s)); auto. }
  - destruct (js_trim_string s) as [query ->].
    destruct (nonempty query); simpl; [|done].
    destruct (ensureReportsLoaded_empty st Hst) as (st' & -> & Hc & _).
    simpl. rewrite Hc.
    destruct (findBestReportMatch_textual (loaded_cache (index_of st)) query)
      as [[m|] ->]; [by apply loaded_cache_textual|done|done].
  - done.
Qed.

(** X21. Once the cache is loaded the two endpoints only read: the search
    endpoint leaves the state as it is, and so does the explain endpoint
    when the index is built. *)
Theorem endpoints_read_only (st : State) (q : JsValue) (slug : jsstring) :
  reportsCache st <> [] ->
  (search_handler q st).1 = st
  /\ (reportDocsIndex st <> None -> (explain_handler slug st).1 = st).
Proof.
  intros Hc. pose proof (ensureReportsLoaded_loaded st Hc) as Hl. split.
  - rewrite search_handler_unfold.
    destruct (js_trim _) as [query|e]; [|done].
    destruct (nonempty query); simpl; [|done]. by rewrite Hl.
  - intros Hidx. destruct (reportDocsIndex st) as [idx|] eqn:Hi; [|done].
    rewrite explain_handler_unfold. rewrite Hl. cbv zeta. simpl fst.
    destruct (normalizeText _) as [n|e]; [|done].
    destruct (find_by_slug _ _) as [[r|]|e]; [|done|done].
    assert ((if truthy (get r "explanationPath")
             then (st, Ok (get r "explanationPath"))
             else resolveExplanationPath r st).1 = st) as Hst.
    { destruct (truthy _); [done|].
      by rewrite (resolveExplanationPath_built st idx r Hi). }
    destruct (if truthy (get r "explanationPath") then _ else _)
      as [st2 [path|e]]; simpl in *; [|done].
    destruct (truthy path); simpl; [|done]. by destruct (readFile path).
Qed.

(** X22. The explain endpoint looks at the requested slug through its
    normalised key only: asking for [createSlug(s)] gives the same answer,
    and the same state, as asking for [s]. *)
Theorem explain_handler_createSlug (s : jsstring) (st : State) :
  explain_handler (createSlug s) st = explain_handler s st.
Proof.
  rewrite !explain_handler_unfold.
  assert (normalizeText (VString (createSlug s)) = normalizeText (VString s))
    as ->; [|done].
  rewrite !normalizeText_filter.
  rewrite (fold_slug_units _ (proj1 (createSlug_slug_shaped s))).
  unfold createSlug.
  by rewrite filter_alnum_trim_hyphens, filter_alnum_hyphenate.
Qed.

Lemma find_by_slug_None n cache :
  Forall (fun r => is_string (get r "slug") = true) cache ->
  find_by_slug n cache = Ok None
  <-> Forall (fun r => normalizeText (get r "slug") <> Ok n) cache.
Proof.
  induction cache as [|r cache IH]; intros Hs; simpl; [done|].
  apply Forall_cons in Hs as [Hr Hs].
  destruct (normalizeText_is_string _ Hr) as [k Hk]. rewrite Hk. simpl.
  rewrite Forall_cons, Hk. case_bool_decide as Hkn.
  - subst k. split; [done|]. by intros [? _].
  - rewrite (IH Hs). split; [|by intros [_ ?]].
    intros H. split; [congruence|done].
Qed.

Lemma find_by_slug_Some n cache r :
  find_by_slug n cache = Ok (Some r) ->
  r ∈ cache /\ normalizeText (get r "slug") = Ok n.
Proof.
  induction cache as [|x cache IH]; simpl; [done|].
  destruct (normalizeText (get x "slug")) as [k|e] eqn:Hk; [|done]. simpl.
  case_bool_decide as Hkn.
  - intros [= <-]. subst k. split; [apply list_elem_of_here|done].
  - intros H. destruct (IH H) as [Hin Hn].
    split; [by apply list_elem_of_further|done].
Qed.

(** X23. Over a loaded cache whose records have strings as slugs, the
    explain endpoint answers 404 exactly when no record of the cache has a
    slug with the normalised key of the requested one. *)
Theorem explain_handler_not_found (st : State) (slug : jsstring) :
  reportsCache st <> [] ->
  Forall (fun r => is_string (get r "slug") = true) (reportsCache st) ->
  (explain_handler slug st).2 = Ok (ErrorStatus 404)
  <-> Forall (fun r => normalizeText (get r "slug")
                       <> normalizeText (VString slug)) (reportsCache st).
Proof.
  intros Hc Hs. rewrite explain_handler_unfold.
  rewrite (ensureReportsLoaded_loaded st Hc). cbv zeta. simpl fst.
  destruct (normalizeText_string slug) as [n ->].
  rewrite <- (find_by_slug_None n _ Hs).
  destruct (find_by_slug n (reportsCache st)) as [[r|]|e]; [|done|done].
  split; [|done]. intros H. exfalso.
  destruct (if truthy (get r "explanationPath") then _ else _)
    as [st2 [path|e]]; simpl in H; [|done].
  destruct (truthy path); simpl in H; [|done]. by destruct (readFile path).
Qed.

Lemma resolve_with_cases idx report v :
  resolve_with idx report = Ok v ->
  truthy v = true ->
  stored idx v \/ v = object_function.
Proof.
  unfold resolve_with. destruct (source_slug _) as [slug|e]; [|done]. simpl.
  destruct (buildReportDocCandidates _ _) as [c|e]; [|done].
  simpl. unfold findDocPathForCandidates.
  destruct (scan_candidates idx (VNull, 0%float) c) as [r|e] eqn:Hs; [|done].
  apply scan_candidates_sound in Hs; [|by left]. simpl.
  destruct r as [found|[bestPath bestSimilarity]]; intros [= <-] Ht.
  - destruct Hs as (_ & c' & n & Hc & Hn & Hne & ->).
    unfold index_get in *. destruct (own idx n) as [p|] eqn:Hown.
    + left. exists n, p. split; [by apply own_Some_elem|done].
    + right. destruct (decide (n = js "constructor")) as [->|Hcon]; [done|].
      rewrite object_prototype_alnum in Ht; [done| |done].
      by eapply normalizeText_alnum.
  - unfold accept_path in *. simpl in Hs.
    destruct (truthy bestPath && _) eqn:Hb; [|done].
    destruct Hs as [->|Hs]; [done|by left].
Qed.

(** X24. The explain endpoint reads no file but a document of the index:
    started with an empty cache, whenever it answers with markdown, this is
    the content of a path stored in the index in use, or what [readFile]
    gives for the function [Object], the one other value the resolver can
    return; the requested slug is never used as a path. *)
Theorem explain_handler_reads_index (st : State) (slug : jsstring)
    (found : option Obj) (markdown : jsstring) :
  reportsCache st = [] ->
  (explain_handler slug st).2 = Ok (Explanation found markdown) ->
  exists path,
    readFile path = Done markdown
    /\ (stored (index_of st) path \/ path = object_function).
Proof.
  intros Hst. rewrite explain_handler_unfold.
  destruct (ensureReportsLoaded_empty st Hst)
    as (st' & -> & Hc & _ & Hidx' & Hidx).
  cbv zeta. simpl fst.
  destruct (normalizeText _) as [n|e]; [|done].
  destruct (find_by_slug n (reportsCache st')) as [[r|]|e] eqn:Hfind;
    [|done|done].
  apply find_by_slug_Some in Hfind as [Hin _]. rewrite Hc in Hin.
  assert (reportDocsIndex st' = Some (index_of st)) as Hbuilt.
  { destruct Hidx as [Hf|[Hf|Hidx]]; [| |done];
      unfold loaded_cache in Hin; rewrite Hf in Hin;
      by apply elem_of_nil in Hin. }
  apply list_elem_of_lookup in Hin as [i Hi].
  apply loaded_cache_lookup in Hi as (item & _ & He).
  destruct (enrich_with_frame _ _ _ _ He)
    as (_ & slug' & cached & _ & _ & Hcached & Hp & _).
  assert (forall path,
            (if truthy (get r "explanationPath")
             then (st', Ok (get r "explanationPath"))
             else resolveExplanationPath r st').2 = Ok path ->
            truthy path = true ->
            stored (index_of st) path \/ path = object_function) as Hpath.
  { intros path. destruct (truthy (get r "explanationPath")) eqn:Ht.
    - simpl. intros [= <-] _. rewrite Hp in *.
      rewrite truthy_js_or_null in Ht. rewrite (js_or_truthy _ _ Ht).
      by eapply resolve_with_cases.
    - rewrite (resolveExplanationPath_built st' _ r Hbuilt). simpl.
      apply resolve_with_cases. }
  destruct (if truthy (get r "explanationPath") then _ else _)
    as [st2 [path|e]]; simpl in *; [|done].
  destruct (truthy path) eqn:Ht; simpl; [|done].
  destruct (readFile path) as [md|] eqn:Hread; [|done].
  intros [= _ <-]. exists path. split; [done|]. by apply Hpath.
Qed.

End endpoint_composition.

(** X20 on the sample source and the query [foo]. *)
Lemma search_handler_textual_witness :
  (@search_handler sample_platform sample_world (VString (js "foo"))
     initial_state).2 <> Ok (ErrorStatus 500).
Proof.
  apply (@search_handler_textual sample_platform sample_world initial_state
           (js "foo") eq_refl).
  vm_compute. reflexivity.
Defined.

(** X21 on the loaded sample cache. *)
Lemma endpoints_read_only_witness :
  let st := (@ensureReportsLoaded sample_platform sample_world initial_state).1 in
  (@search_handler sample_platform sample_world (VString (js "foo bar")) st).1 = st.
Proof.
  intros st.
  assert (length (reportsCache st) = 3) as Hlen by (vm_compute; reflexivity).
  assert (reportsCache st <> []) as Hne.
  { intros Hnil. rewrite Hnil in Hlen. discriminate Hlen. }
  exact (proj1 (@endpoints_read_only sample_platform sample_world st
                  (VString (js "foo bar")) [] Hne)).
Defined.

(** X23 on the loaded sample cache and a slug no record has. *)
Lemma explain_handler_not_found_witness :
  let st := (@ensureReportsLoaded sample_platform sample_world initial_state).1 in
  Forall (fun r => @normalizeText sample_platform (get r "slug")
                   <> @normalizeText sample_platform (VString (js "no-such")))
    (reportsCache st).
Proof.
  intros st.
  assert (length (reportsCache st) = 3) as Hlen by (vm_compute; reflexivity).
  assert (reportsCache st <> []) as Hne.
  { intros Hnil. rewrite Hnil in Hlen. discriminate Hlen. }
  assert (forallb (fun r => is_string (get r "slug")) (reportsCache st) = true)
    as Hs by (vm_compute; reflexivity).
  apply (proj1 (@explain_handler_not_found sample_platform sample_world st
                  (js "no-such") Hne
                  (proj2 (Forall_forall _ _)
                     (fun r Hr => proj1 (forallb_forall _ _) Hs r
                                    (proj1 (list_elem_of_In _ _) Hr))))).
  vm_compute. reflexivity.
Defined.

(** X24 on the sample source and the slug [foo-bar]. *)
Lemma explain_handler_reads_index_witness :
  exists path,
    @readFile sample_world path = Done (js "# Foo Bar")
    /\ (stored (@index_of sample_platform sample_world initial_state) path
        \/ path = object_function).
Proof.
  assert (match (@explain_handler sample_platform sample_world (js "foo-bar")
                   initial_state).2 with
          | Ok (Explanation _ markdown) => markdown = js "# Foo Bar"
          | _ => False
          end) as Hm by (vm_compute; reflexivity).
  destruct ((@explain_handler sample_platform sample_world (js "foo-bar")
               initial_state).2) as [resp|e] eqn:H; [|contradiction].
  destruct resp as [status| |found sc| |found markdown]; try contradiction.
  subst markdown.
  exact (@explain_handler_reads_index sample_platform sample_world
           initial_state (js "foo-bar") found (js "# Foo Bar") eq_refl H).
Defined.

(** ** The extension of a file name *)

Section extension_facts.

Lemma strip_ext_rev_dot seen (r1 r2 : jsstring) :
  dot ∉ r1 ->
  strip_ext_rev seen (r1 ++ dot :: r2)
  = if seen || nonempty r1 then Some r2 else None.
Proof.
  revert seen. induction r1 as [|c r1 IH]; intros seen Hd; simpl.
  - by destruct seen.
  - apply not_elem_of_cons in Hd as [Hc Hd].
    rewrite bool_decide_eq_false_2 by done. rewrite (IH true Hd). simpl.
    by rewrite orb_true_r.
Qed.

Lemma strip_ext_rev_none seen (r : jsstring) :
  dot ∉ r -> strip_ext_rev seen r = None.
Proof.
  revert seen. induction r as [|c r IH]; intros seen Hd; simpl; [done|].
  apply not_elem_of_cons in Hd as [Hc Hd].
  rewrite bool_decide_eq_false_2 by done. by apply IH.
Qed.

Lemma not_elem_of_rev (c : N) (l : jsstring) : c ∉ l -> c ∉ rev l.
Proof.
  intros H Hin. apply H. by apply list_elem_of_In, in_rev, list_elem_of_In.
Qed.

(** X25. What [replace(/\.[^.]+$/, '')] does to a file name: a name
    [stem.ext], in which [ext] is not empty and has no dot, loses its last
    dot and [ext]; a name without a dot, and a name that ends in a dot, are
    kept as they are. Every name is of one of the three forms. *)
Theorem strip_extension_spec :
  (forall stem ext,
     ext <> [] -> dot ∉ ext -> strip_extension (stem ++ dot :: ext) = stem)
  /\ (forall fileName, dot ∉ fileName -> strip_extension fileName = fileName)
  /\ (forall stem, strip_extension (stem ++ [dot]) = stem ++ [dot])
  /\ (forall fileName,
        dot ∉ fileName
        \/ exists stem ext, fileName = stem ++ dot :: ext /\ dot ∉ ext).
Proof.
  split; [|split; [|split]].
  - intros stem ext Hne Hd. unfold strip_extension.
    rewrite rev_app_distr. simpl. rewrite <- app_assoc. simpl.
    rewrite strip_ext_rev_dot by (by apply not_elem_of_rev).
    assert (nonempty (rev ext) = true) as ->.
    { apply nonempty_true. intros H. apply Hne.
      by rewrite <- (rev_involutive ext), H. }
    simpl. apply rev_involutive.
  - intros fileName Hd. unfold strip_extension.
    by rewrite strip_ext_rev_none by (by apply not_elem_of_rev).
  - intros stem. unfold strip_extension. by rewrite rev_app_distr.
  - induction fileName as [|c fileName IH]; [left; apply not_elem_of_nil|].
    destruct IH as [Hd|(stem & ext & -> & Hd)].
    + destruct (decide (c = dot)) as [->|Hc].
      * right. by exists [], fileName.
      * left. by apply not_elem_of_cons.
    + right. by exists (c :: stem), ext.
Qed.

End extension_facts.

(** ** The bug list endpoints *)

Section bug_list_facts.

(** X26. An upload that is answered 400 changes nothing. One that is
    answered with success leaves an array in the cache, reports its length
    as the count, and reports the hash the file-hash endpoint then gives.
    When the upload to the storage network failed, the hash is the one of
    an earlier upload, kept as it was. And a file that holds an array
    replaces the cache even when the request is answered 500. *)
Theorem upload_handler_effect (file : option Upload) (st : Store) :
  let r := upload_handler file st in
  (r.2 = ReplyError 400 -> r.1 = st)
  /\ (forall count hash,
        r.2 = ReplyUploaded count hash ->
        exists items,
          bugsCache r.1 = ArrayDoc items /\ count = length items
          /\ file_hash_handler r.1 = ReplyHash hash)
  /\ (forall run,
        file = Some run -> upload_root run = None ->
        uploadedFileHash r.1 = uploadedFileHash st)
  /\ (forall run items,
        file = Some run -> upload_content run = Done (ArrayDoc items) ->
        bugsCache r.1 = ArrayDoc items)
  /\ (r.1 = st \/ exists items, bugsCache r.1 = ArrayDoc items).
Proof.
  intros r. subst r. unfold upload_handler.
  destruct file as [run|]; [|repeat split; try done; auto].
  destruct (upload_content run) as [[items| |z v]|enoent] eqn:Hc.
  - assert (forall run' items',
              Some run = Some run' ->
              upload_content run' = Done (ArrayDoc items') -> items = items')
      as Hitems.
    { intros run' items' [= <-] Hc'. rewrite Hc in Hc'. by injection Hc'. }
    destruct (upload_written run && upload_unlinked run); simpl.
    + split; [done|]. split.
      { intros count hash [= <- <-]. by exists items. }
      split; [by intros run' [= <-] ->|].
      split; [by intros run' items' H1 H2; rewrite (Hitems run' items' H1 H2)|].
      right. by exists items.
    + split; [done|]. split; [done|].
      split; [by intros run' [= <-] ->|].
      split; [by intros run' items' H1 H2; rewrite (Hitems run' items' H1 H2)|].
      right. by exists items.
  - simpl. repeat split; try done; auto.
    intros run' items' [= <-] Hc'. rewrite Hc in Hc'. discriminate Hc'.
  - simpl. repeat split; try done; auto.
    intros run' items' [= <-] Hc'. rewrite Hc in Hc'. discriminate Hc'.
  - simpl. repeat split; try done; auto.
    intros run' items' [= <-] Hc'. rewrite Hc in Hc'. discriminate Hc'.
Qed.

Lemma bugs_handler_null read st :
  bugsCache st = NullDoc -> bugs_handler read st = (st, ReplyError 500).
Proof. unfold bugs_handler. by intros ->. Qed.

(** X27. The bugs endpoint answers 500 exactly when the cache holds
    [null], which a download can put there; it then leaves the store as it
    is, so that every later request for the bugs or the hash finds the
    same store, and every request for the bugs is answered 500. *)
Theorem bugs_handler_null_forever (st : Store) :
  (forall read,
     (bugs_handler read st).2 = ReplyError 500 <-> bugsCache st = NullDoc)
  /\ (forall rootHash,
        truthy rootHash = true ->
        bugsCache (download_handler rootHash (Done NullDoc) st).1 = NullDoc)
  /\ (bugsCache st = NullDoc ->
      forall requests,
        Forall (fun request =>
                  request = GetFileHash \/ exists read, request = GetBugs read)
          requests ->
        serve_all st requests = st
        /\ Forall (fun request =>
                     forall read, request = GetBugs read ->
                     (serve st request).2 = ReplyError 500) requests).
Proof.
  split; [|split].
  - intros read. unfold bugs_handler.
    destruct (bugsCache st) as [items| |z v]; simpl.
    + by destruct (length items =? 0)%nat.
    + done.
    + by destruct z.
  - intros rootHash Ht. unfold download_handler. by rewrite Ht.
  - intros Hnull requests Hreq.
    induction Hreq as [|request requests Hr _ IH]; [done|].
    assert ((serve st request).1 = st) as Hst.
    { destruct Hr as [->|[read ->]]; simpl; [done|].
      by rewrite bugs_handler_null. }
    destruct IH as [IH1 IH2]. split.
    + unfold serve_all in *. simpl. by rewrite Hst.
    + apply Forall_cons. split; [|done].
      intros read ->. simpl. by rewrite bugs_handler_null.
Qed.

(** X28. After an upload that was answered with success and a count that
    is not 0, the bugs endpoint answers with the uploaded items, whatever
    the file on disk holds, and leaves the store as it is. *)
Theorem upload_then_bugs (run : Upload) (st : Store) (count : nat)
    (hash : JsValue) (read : IOResult Document) :
  (upload_handler (Some run) st).2 = ReplyUploaded count hash ->
  0 < count ->
  let st' := (upload_handler (Some run) st).1 in
  exists items,
    upload_content run = Done (ArrayDoc items)
    /\ length items = count
    /\ bugs_handler read st' = (st', ReplyBugs (ArrayDoc items)).
Proof.
  unfold upload_handler.
  destruct (upload_content run) as [[items| |z v]|enoent]; try done.
  destruct (upload_written run && upload_unlinked run); [|done].
  simpl. intros [= <- <-] Hcount. exists items. split; [done|].
  split; [done|]. unfold bugs_handler. simpl.
  destruct items; [simpl in Hcount; lia|done].
Qed.

End bug_list_facts.

(** X27 on a store whose cache holds [null], and three requests. *)
Lemma bugs_handler_null_forever_witness :
  let st := {| bugsCache := NullDoc; uploadedFileHash := VNull |} in
  serve_all st [GetBugs (Done (ArrayDoc [])); GetFileHash; GetBugs (Failed true)]
  = st.
Proof.
  intros st.
  apply (proj1 (proj2 (proj2 (bugs_handler_null_forever st)) eq_refl _
                  ltac:(repeat constructor; eauto))).
Defined.

(** X28 on the upload of an array of two items whose upload to the storage
    network failed. *)
Lemma upload_then_bugs_witness :
  let run := {| upload_content := Done (ArrayDoc [VNull; VNull]);
                upload_root := None;
                upload_written := true; upload_unlinked := true |} in
  let st' := (upload_handler (Some run) initial_store).1 in
  exists items,
    upload_content run = Done (ArrayDoc items)
    /\ length items = 2
    /\ bugs_handler (Failed true) st' = (st', ReplyBugs (ArrayDoc items)).
Proof.
  intros run.
  apply (upload_then_bugs run initial_store 2 VNull (Failed true) eq_refl).
  lia.
Defined.

(** ** The record the explain endpoint serves *)

Section explain_first.
Context {P : Platform} {W : World}.

Lemma find_by_slug_first n cache r :
  find_by_slug n cache = Ok (Some r) ->
  exists i,
    cache !! i = Some r
    /\ normalizeText (get r "slug") = Ok n
    /\ forall j r',
         j < i -> cache !! j = Some r' ->
         normalizeText (get r' "slug") <> Ok n.
Proof.
  induction cache as [|x cache IH]; simpl; [done|].
  destruct (normalizeText (get x "slug")) as [k|e] eqn:Hk; [|done]. simpl.
  case_bool_decide as Hkn.
  - intros [= <-]. subst k. exists 0. split; [done|]. split; [done|].
    intros j r' Hj. lia.
  - intros H. destruct (IH H) as (i & Hi & Hn & Hfirst).
    exists (S i). split; [done|]. split; [done|].
    intros [|j] r' Hj Hr'; simpl in Hr'.
    + injection Hr' as <-. rewrite Hk. congruence.
    + apply (Hfirst j r'); [lia|done].
Qed.

(** X29. The explain endpoint serves the first record of the cache whose
    slug has the normalised key of the requested one: the report it sends
    is that record without its [explanationPath], and no record before it
    has this key. Of two records with the same key the second is never
    served. *)
Theorem explain_handler_first (st : State) (slug : jsstring)
    (found : option Obj) (markdown : jsstring) :
  reportsCache st <> [] ->
  (explain_handler slug st).2 = Ok (Explanation found markdown) ->
  exists i r,
    reportsCache st !! i = Some r
    /\ found = Some (delete (js "explanationPath") r)
    /\ normalizeText (get r "slug") = normalizeText (VString slug)
    /\ forall j r',
         j < i -> reportsCache st !! j = Some r' ->
         normalizeText (get r' "slug") <> normalizeText (VString slug).
Proof.
  intros Hc. rewrite explain_handler_unfold.
  rewrite (ensureReportsLoaded_loaded st Hc). cbv zeta. simpl fst.
  destruct (normalizeText_string slug) as [n ->].
  destruct (find_by_slug n (reportsCache st)) as [[r|]|e] eqn:Hfind;
    [|done|done].
  apply find_by_slug_first in Hfind as (i & Hi & Hn & Hfirst).
  destruct (if truthy (get r "explanationPath") then _ else _)
    as [st2 [path|e]]; simpl; [|done].
  destruct (truthy path); simpl; [|done].
  destruct (readFile path); [|done].
  intros [= <- _]. by exists i, r.
Qed.

End explain_first.

(** X29 on the sample cache, whose first two records have the slug
    [foo-bar]: the first one is served. *)
Lemma explain_handler_first_witness :
  let st := (@ensureReportsLoaded sample_platform sample_world initial_state).1 in
  exists i r,
    reportsCache st !! i = Some r
    /\ @normalizeText sample_platform (get r "slug")
       = @normalizeText sample_platform (VString (js "foo-bar"))
    /\ forall j r',
         j < i -> reportsCache st !! j = Some r' ->
         @normalizeText sample_platform (get r' "slug")
         <> @normalizeText sample_platform (VString (js "foo-bar")).
Proof.
  intros st.
  assert (length (reportsCache st) = 3) as Hlen by (vm_compute; reflexivity).
  assert (reportsCache st <> []) as Hne.
  { intros Hnil. rewrite Hnil in Hlen. discriminate Hlen. }
  assert (match (@explain_handler sample_platform sample_world (js "foo-bar")
                   st).2 with
          | Ok (Explanation _ _) => True
          | _ => False
          end) as Hm by (vm_compute; exact I).
  destruct ((@explain_handler sample_platform sample_world (js "foo-bar")
               st).2) as [resp|e] eqn:H; [|contradiction].
  destruct resp as [status| |found' sc| |found markdown]; try contradiction.
  destruct (@explain_handler_first sample_platform sample_world st
              (js "foo-bar") found markdown Hne H)
    as (i & r & Hi & _ & Hk & Hfirst).
  exists i, r. split; [exact Hi|]. split; [exact Hk|exact Hfirst].
Defined.

(** ** The states the report endpoints go through *)

Section reachable_states.
Context {P : Platform} {W : World}.

Lemma ensureReportDocsIndex_consistent st :
  consistent st -> consistent (ensureReportDocsIndex st).1.
Proof.
  unfold consistent. destruct (reportDocsIndex st) as [idx|] eqn:Hi.
  - rewrite (ensureReportDocsIndex_built st idx Hi). simpl. by rewrite Hi.
  - rewrite (ensureReportDocsIndex_fresh st Hi). simpl.
    intros [-> ->]. auto.
Qed.

Lemma index_of_consistent st : consistent st -> index_of st = directory_index.
Proof.
  unfold consistent, index_of.
  destruct (reportDocsIndex st); [by intros [-> _]|done].
Qed.

Lemma ensureReportsLoaded_consistent st :
  consistent st -> consistent (ensureReportsLoaded st).1.
Proof.
  intros Hst. destruct (reportsCache st) as [|r cache] eqn:Hc.
  - pose proof (index_of_consistent st Hst) as Hidx.
    unfold ensureReportsLoaded. rewrite bind_unfold. simpl.
    rewrite Hc. simpl. unfold try_catch, load_reports. rewrite bind_unfold.
    simpl. destruct readReportsJson as [parsed|enoent] eqn:Hsrc; simpl.
    + rewrite bind_unfold.
      set (st0 := {| reportsCache := reportsCache st;
                     reportDocsIndex := reportDocsIndex st;
                     sourceReads := S (sourceReads st);
                     directoryReads := directoryReads st |}).
      assert (consistent st0) as H0 by done.
      apply ensureReportDocsIndex_consistent in H0.
      destruct (ensureReportDocsIndex_spec st0) as (st1 & Hst1 & Hi1 & _).
      rewrite Hst1 in *. simpl in H0.
      change (index_of st0) with (index_of st) in Hi1. rewrite Hidx in Hi1.
      rewrite bind_unfold, (mapM_enrich_built st1 directory_index _ Hi1).
      unfold consistent in H0. rewrite Hi1 in H0. destruct H0 as (_ & Hd & _).
      destruct (mapM _ _) as [cache|e] eqn:Hm; simpl;
        unfold consistent; simpl; rewrite Hi1;
        (split; [done|]); (split; [done|]).
      * right. unfold loaded_cache, reports_array. rewrite Hsrc.
        by destruct parsed; rewrite Hm.
      * by left.
    + unfold consistent in *. simpl.
      destruct (reportDocsIndex st); [|by destruct Hst].
      destruct Hst as (? & ? & _). auto.
  - rewrite ensureReportsLoaded_loaded; [done|]. by rewrite Hc.
Qed.

Lemma resolveExplanationPath_state r st :
  (resolveExplanationPath r st).1 = (ensureReportDocsIndex st).1.
Proof.
  unfold resolveExplanationPath. rewrite bind_unfold.
  destruct (ensureReportDocsIndex_spec st) as (st1 & -> & _). simpl.
  rewrite bind_unfold. unfold lift at 1.
  destruct (source_slug _) as [slug|e]; [|done]. simpl.
  rewrite bind_unfold. unfold lift at 1.
  by destruct (buildReportDocCandidates _ _).
Qed.

Lemma serve_report_consistent st request :
  consistent st -> consistent (serve_report st request).
Proof.
  intros Hst. destruct request as [|q|slug]; simpl.
  - by apply ensureReportsLoaded_consistent.
  - rewrite search_handler_unfold.
    destruct (js_trim _) as [query|e]; [|done].
    destruct (nonempty query); simpl; [|done].
    by apply ensureReportsLoaded_consistent.
  - rewrite explain_handler_unfold. cbv zeta.
    pose proof (ensureReportsLoaded_consistent st Hst) as H1.
    set (st1 := (ensureReportsLoaded st).1) in *.
    destruct (normalizeText _) as [n|e]; [|done].
    destruct (find_by_slug _ _) as [[r|]|e]; [|done|done].
    assert (consistent
              (if truthy (get r "explanationPath")
               then (st1, Ok (get r "explanationPath"))
               else resolveExplanationPath r st1).1) as H2.
    { destruct (truthy _); [done|]. rewrite resolveExplanationPath_state.
      by apply ensureReportDocsIndex_consistent. }
    destruct (if truthy (get r "explanationPath") then _ else _)
      as [st2 [path|e]]; simpl in *; [|done].
    destruct (truthy path); simpl; [|done]. by destruct (readFile path).
Qed.

Lemma state_after_steps requests : consistent (state_after requests).
Proof.
  unfold state_after.
  assert (consistent initial_state) as H0 by done. revert H0.
  generalize initial_state.
  induction requests as [|request requests IH]; intros st0 H0; simpl; [done|].
  by apply IH, serve_report_consistent.
Qed.

(** X30. In every state the report endpoints reach from the start of the
    server, by requests that do not overlap, the directory has been read
    once at most, the index is not built or is the one of the directory,
    the cache is empty or holds the records of the source enriched over
    that index, and a cache that is not empty comes with a built index. *)
Theorem state_after_consistent (requests : list ReportRequest) :
  let st := state_after requests in
  directoryReads st <= 1
  /\ (reportDocsIndex st = None \/ reportDocsIndex st = Some directory_index)
  /\ (reportsCache st = [] \/ reportsCache st = loaded_cache directory_index)
  /\ (reportsCache st <> [] -> reportDocsIndex st = Some directory_index).
Proof.
  intros st. pose proof (state_after_steps requests) as H. fold st in H.
  unfold consistent in H. destruct (reportDocsIndex st) as [idx|].
  - destruct H as (-> & -> & Hc). auto.
  - destruct H as [-> ->]. split; [lia|]. split; [by left|].
    split; [by left|done].
Qed.

End reachable_states.

(** ** Empty inputs *)

Section empty_inputs.
Context {P : Platform} {W : World}.

(** C8. When the records source gives no record (it is missing,
    unreadable, not an array or empty) and the directory gives no document
    (it is missing, unreadable or empty), then in every state the server
    reaches, by startup, search and explain requests that do not overlap:
    - the cache is empty; [ensureReportsLoaded] throws nothing and leaves
      it empty;
    - [ensureReportDocsIndex] throws nothing and leaves the empty index, a
      missing directory included;
    - [findBestReportMatch] returns none for every query;
    - the explain endpoint answers 404 for every slug, before it resolves
      anything, and the search endpoint answers "no match", or 400 for a
      blank query, for every query string;
    - [resolveExplanationPath], which is called with the items of the
      source and with the records of the cache only, hence not at all,
      returns none for every record none of whose candidates normalises to
      [constructor]. *)
Theorem empty_inputs_none (requests : list ReportRequest) :
  reports_array = [] ->
  (readdir = Done [] \/ exists enoent, readdir = Failed enoent) ->
  let st := state_after requests in
  let loaded := ensureReportsLoaded st in
  let indexed := ensureReportDocsIndex st in
  reportsCache st = []
  /\ loaded.2 = Ok tt /\ reportsCache loaded.1 = []
  /\ indexed.2 = Ok tt /\ reportDocsIndex indexed.1 = Some []
  /\ (forall query, findBestReportMatch (reportsCache loaded.1) query = Ok None)
  /\ (forall slug, (explain_handler slug st).2 = Ok (ErrorStatus 404))
  /\ (forall q,
        (search_handler (VString q) st).2 = Ok NoMatch
        \/ (search_handler (VString q) st).2 = Ok (ErrorStatus 400))
  /\ (forall report slug candidates,
        source_slug (slug_source report) = Ok slug ->
        buildReportDocCandidates report slug = Ok candidates ->
        Forall (no_hit []) candidates ->
        (resolveExplanationPath report indexed.1).2 = Ok VNull).
Proof.
  intros Hsrc Hdir st loaded indexed.
  assert (directory_index = []) as Hidx.
  { unfold directory_index. destruct Hdir as [-> | [e ->]]; reflexivity. }
  assert (forall idx, loaded_cache idx = []) as Hcache.
  { intros idx. unfold loaded_cache. rewrite Hsrc. by destruct readReportsJson. }
  pose proof (state_after_steps requests) as Hst. fold st in Hst.
  assert (reportsCache st = []) as Hc.
  { unfold consistent in Hst. destruct (reportDocsIndex st).
    - destruct Hst as (_ & _ & [?|Hl]); [done|]. by rewrite Hcache in Hl.
    - by destruct Hst. }
  assert (index_of st = []) as Hi.
  { by rewrite (index_of_consistent st Hst). }
  destruct (ensureReportsLoaded_empty st Hc) as (st' & Hl & Hc' & _).
  rewrite Hcache in Hc'.
  destruct (ensureReportDocsIndex_spec st) as (st1 & Hi1 & Hidx1 & _).
  rewrite Hi in Hidx1.
  subst loaded indexed. rewrite Hl, Hi1. simpl. rewrite Hc'.
  split; [done|]. split; [done|]. split; [done|]. split; [done|].
  split; [done|]. split; [apply findBestReportMatch_nil|].
  split; [|split].
  - intros slug. rewrite explain_handler_unfold, Hl. cbv zeta. simpl fst.
    destruct (normalizeText_string slug) as [n ->].
    by rewrite Hc', find_by_slug_nil.
  - intros q. rewrite search_handler_unfold.
    assert (js_or (VString q) (VString []) = VString q
            \/ js_or (VString q) (VString []) = VString []) as [->| ->].
    { unfold js_or. destruct (truthy (VString q)); auto. }
    + destruct (js_trim_string q) as [query ->].
      destruct (nonempty query); simpl; [|by right].
      rewrite Hl. simpl. rewrite Hc', findBestReportMatch_nil. by left.
    + by right.
  - intros report slug candidates Hs Hb Hno.
    rewrite (resolveExplanationPath_built st1 [] report Hidx1). simpl.
    by apply (resolve_with_empty_index report slug candidates).
Qed.

End empty_inputs.

(** C8 in [empty_world], after the startup and two requests. *)
Lemma empty_inputs_none_witness :
  let st :=
    @state_after sample_platform empty_world
      [Startup; GetSearch (VString (js "foo bar")); GetExplain (js "foo-bar")] in
  reportsCache st = []
  /\ (@explain_handler sample_platform empty_world (js "constructor") st).2
     = Ok (ErrorStatus 404)
  /\ @findBestReportMatch sample_platform
       (reportsCache (@ensureReportsLoaded sample_platform empty_world st).1)
       (js "constructor")
     = Ok None
  /\ reportDocsIndex (@ensureReportDocsIndex sample_platform empty_world st).1
     = Some [].
Proof.
  intros st.
  destruct (@empty_inputs_none sample_platform empty_world
              [Startup; GetSearch (VString (js "foo bar"));
               GetExplain (js "foo-bar")] eq_refl
              (or_intror (ex_intro _ true eq_refl)))
    as (Hc & _ & _ & _ & Hidx & Hfind & Hexplain & _).
  split; [exact Hc|]. split; [apply Hexplain|].
  split; [apply Hfind|exact Hidx].
Defined.
